(** * Muesli backend: PCM aligner, speaker merge and transcript emitter

    A shallow embedding of
    - [write_aligned_audio] and [TranscriptEmitter.emit_transcript] of
      [diarise_transcribe/muesli_backend.py], and
    - [assign_speakers_to_words], [_interpolate_unknown_speakers],
      [_join_words_smart] and [words_to_turns] of
      [diarise_transcribe/merge.py],
    together with the properties the specification states about them.

    Conventions.
    - Python [int] is [Z]; [bytes] is [list byte]; [len] is the list length.
    - Python [float] times (seconds) are rationals [Q].  Every finite double
      is a rational and the comparisons [<], [<=], [==] of finite doubles
      are the rational ones.  The machine rounds the result of [+], [-],
      [*] and [/] to the nearest double: [Binary64.fl] is this rounding,
      and it is applied to every such result in [Aligner.round_sample], in
      [Merge.word_speaker] (overlap, midpoint, distance), in [Merge64]
      (turn grouping) and in [Emitter64] (cutoff and the 0.02 s slack).
      [Merge.turn_step] and the module [Emitter] take the two differences
      and the sum as exact numbers; what depends on the last bit of a
      cutoff, a gap or a duration is stated in [Merge64] and [Emitter64].
      NaN is not modelled; [float("inf")] is [None] of an [option Q].
    - Python [str] is [string], one [ascii] per character (the characters
      with a code point below 256).
    - A [dict] is a [gmap], a [set] a [gset].
    - A function that mutates its object returns the new object; a function
      that writes JSON lines returns the list of events it wrote. *)

From Stdlib Require Import ZArith QArith Qminmax Qround Qpower Lqa Lia Bool.
From Stdlib Require Import Strings.String Strings.Ascii Strings.Byte.
From Stdlib Require Import Lists.List Sorting.Sorted Sorting.Permutation.
From stdpp Require Import base option list gmap strings.

Set Default Proof Using "Type".

(* ===================================================================== *)
(** * Rounding to binary64 ([float])                                       *)
(* ===================================================================== *)

(** Python's [float] is the IEEE 754 binary64 format and its operations
    round to nearest, ties to even.  A finite double is a rational number,
    and the result of [+], [-], [*], [/] on finite doubles is the exact
    result rounded by [fl].  The exponent is not bounded above here: a
    result of magnitude [2^1024] or more, where the machine gives an
    infinity, stays a number; it is larger than every double, as the
    infinity is.  NaN is not modelled. *)

Module Binary64.

Local Open Scope Q_scope.

(** [2^e], for any integer [e]. *)
Definition pow2 (e : Z) : Q := 2 ^ e.

(** The integer nearest to [q], a half going to the even one: what
    [round(x)] returns for a float [x], and what the machine does to the
    last bit of a result. *)
Definition rne (q : Q) : Z :=
  let f := Qfloor q in
  match Qcompare (q - inject_Z f) (1 # 2) with
  | Lt => f
  | Gt => (f + 1)%Z
  | Eq => if Z.even f then f else (f + 1)%Z
  end.

(** For [q > 0], the integer [k] with [2^k <= q < 2^(k+1)]. *)
Definition ilog2 (q : Q) : Z :=
  let k := (Z.log2 (Qnum q) - Z.log2 (Zpos (Qden q)))%Z in
  if Qle_bool (pow2 k) q then k else (k - 1)%Z.

(** The doubles have 53 significant bits, and are multiples of [2^-1074]. *)
Definition prec : Z := 53.
Definition emin : Z := -1074.

(** The exponent of the last bit of the doubles around [q > 0]. *)
Definition cexp (q : Q) : Z := Z.max (ilog2 q - (prec - 1)) emin.

(** The multiple of [2^e] nearest to [q]. *)
Definition round_at (e : Z) (q : Q) : Q := inject_Z (rne (q / pow2 e)) * pow2 e.

Definition round_pos (q : Q) : Q := round_at (cexp q) q.

(** The double nearest to [q], ties to the even one: the result the machine
    gives for an operation whose exact result is [q].  Also [float(n)] for
    an integer [n], and the value of a decimal literal. *)
Definition fl (q : Q) : Q :=
  match Qcompare q 0 with
  | Eq => 0
  | Gt => round_pos q
  | Lt => - round_pos (- q)
  end.

(** [q] is a number of the format: rounding leaves it alone. *)
Definition representable (q : Q) : Prop := fl q == q.

Example fl_one_tenth :
  fl 0.1 == 3602879701896397 # 36028797018963968 /\ fl 0.5 == 0.5 /\
  fl (fl 0.1 + fl 0.2) == fl 0.3 + pow2 (-54) /\ rne 2.5 = 2%Z /\
  rne 3.5 = 4%Z /\ rne (-0.5) = 0%Z.
Proof. vm_compute. repeat split. Qed.


(** ** Powers of two *)

Lemma pow2_pos (e : Z) : 0 < pow2 e.
Proof. apply Qpower_0_lt. reflexivity. Qed.

Lemma pow2_add (a b : Z) : pow2 (a + b) == pow2 a * pow2 b.
Proof. apply Qpower_plus. discriminate. Qed.

Lemma pow2_le (a b : Z) : (a <= b)%Z -> pow2 a <= pow2 b.
Proof. intros H. apply Qpower_le_compat_l; [exact H | discriminate]. Qed.

Lemma pow2_lt (a b : Z) : (a < b)%Z -> pow2 a < pow2 b.
Proof. intros H. apply Qpower_lt_compat_l; [exact H | reflexivity]. Qed.

Lemma pow2_lt_inv (a b : Z) : pow2 a < pow2 b -> (a < b)%Z.
Proof. intros H. apply (Qpower_lt_compat_l_inv 2); [exact H | reflexivity]. Qed.

Lemma pow2_Z (k : Z) : (0 <= k)%Z -> pow2 k == inject_Z (2 ^ k).
Proof. intros H. unfold pow2. rewrite Zpower_Qpower by exact H. reflexivity. Qed.

Lemma pow2_split (a e : Z) :
  (e <= a)%Z -> pow2 a == inject_Z (2 ^ (a - e)) * pow2 e.
Proof.
  intros H. rewrite <- pow2_Z by lia. rewrite <- pow2_add.
  replace (a - e + e)%Z with a by lia. reflexivity.
Qed.

(** ** Rounding to the nearest integer, halves to the even one *)

Lemma rne_bounds (q : Q) : (Qfloor q <= rne q <= Qfloor q + 1)%Z.
Proof.
  unfold rne. destruct (Qcompare _ _); [destruct (Z.even _) | |]; lia.
Qed.

Lemma rne_Z (n : Z) : rne (inject_Z n) = n.
Proof.
  unfold rne. rewrite Qfloor_Z.
  destruct (Qcompare_spec (inject_Z n - inject_Z n) (1 # 2)) as [H | H | H];
    [lra | reflexivity | lra].
Qed.

Lemma rne_err (q : Q) : - (1 # 2) <= inject_Z (rne q) - q <= 1 # 2.
Proof.
  pose proof (Qfloor_le q) as Hlo. pose proof (Qlt_floor q) as Hhi.
  assert (Hs : inject_Z (Qfloor q + 1) == inject_Z (Qfloor q) + 1)
    by (rewrite inject_Z_plus; reflexivity).
  rewrite Hs in Hhi. unfold rne.
  destruct (Qcompare_spec (q - inject_Z (Qfloor q)) (1 # 2)) as [H | H | H].
  - destruct (Z.even (Qfloor q)); [| rewrite Hs]; lra.
  - lra.
  - rewrite Hs. lra.
Qed.

Lemma rne_mono (q1 q2 : Q) : q1 <= q2 -> (rne q1 <= rne q2)%Z.
Proof.
  intros Hle.
  pose proof (Qfloor_resp_le _ _ Hle) as Hfloor.
  pose proof (rne_bounds q1) as B1. pose proof (rne_bounds q2) as B2.
  destruct (Z.eq_dec (Qfloor q1) (Qfloor q2)) as [Heq | Hne]; [| lia].
  unfold rne. rewrite <- Heq.
  destruct (Qcompare_spec (q1 - inject_Z (Qfloor q1)) (1 # 2)) as [H1 | H1 | H1];
    destruct (Qcompare_spec (q2 - inject_Z (Qfloor q1)) (1 # 2)) as [H2 | H2 | H2];
    try destruct (Z.even (Qfloor q1)); try lia; lra.
Qed.

Lemma rne_proper (q1 q2 : Q) : q1 == q2 -> rne q1 = rne q2.
Proof.
  intros H. apply Z.le_antisymm; apply rne_mono; rewrite H; apply Qle_refl.
Qed.

(** ** The binary logarithm *)

Lemma Qmake_lt_div (n : Z) (d : positive) (a b : Z) :
  (0 < b)%Z -> (n * b < a * Zpos d)%Z -> n # d < inject_Z a / inject_Z b.
Proof.
  intros Hb H. apply Qlt_shift_div_l.
  - change 0 with (inject_Z 0). rewrite <- Zlt_Qlt. exact Hb.
  - unfold Qlt, Qmult, inject_Z. simpl. lia.
Qed.

Lemma Qmake_le_div (n : Z) (d : positive) (a b : Z) :
  (0 < b)%Z -> (a * Zpos d <= n * b)%Z -> inject_Z a / inject_Z b <= n # d.
Proof.
  intros Hb H. apply Qle_shift_div_r.
  - change 0 with (inject_Z 0). rewrite <- Zlt_Qlt. exact Hb.
  - unfold Qle, Qmult, inject_Z. simpl. lia.
Qed.

Lemma pow2_sub (a b : Z) :
  (0 <= a)%Z -> (0 <= b)%Z ->
  pow2 (a - b) == inject_Z (2 ^ a) / inject_Z (2 ^ b).
Proof.
  intros Ha Hb. unfold pow2. rewrite Qpower_minus by discriminate.
  rewrite !Zpower_Qpower by assumption. reflexivity.
Qed.

Lemma ilog2_spec (q : Q) :
  0 < q -> pow2 (ilog2 q) <= q /\ q < pow2 (ilog2 q + 1).
Proof.
  intros Hq. destruct q as [n d].
  assert (Hn : (0 < n)%Z) by (unfold Qlt in Hq; simpl in Hq; lia).
  unfold ilog2. cbn [Qnum Qden].
  set (a := Z.log2 n). set (b := Z.log2 (Zpos d)).
  assert (Ha : (0 <= a)%Z) by apply Z.log2_nonneg.
  assert (Hb : (0 <= b)%Z) by apply Z.log2_nonneg.
  destruct (Z.log2_spec n Hn) as [Ha1 Ha2]. fold a in Ha1, Ha2.
  destruct (Z.log2_spec (Zpos d) eq_refl) as [Hb1 Hb2]. fold b in Hb1, Hb2.
  assert (Hpa : (0 < 2 ^ a)%Z) by (apply Z.pow_pos_nonneg; lia).
  assert (Hpb : (0 < 2 ^ b)%Z) by (apply Z.pow_pos_nonneg; lia).
  rewrite Z.pow_succ_r in Ha2, Hb2 by assumption.
  assert (Hup : n # d < pow2 (a - b + 1)).
  { replace (a - b + 1)%Z with ((a + 1) - b)%Z by lia.
    rewrite pow2_sub by lia. apply Qmake_lt_div; [exact Hpb |].
    rewrite Z.pow_add_r by lia. change (2 ^ 1)%Z with 2%Z. nia. }
  assert (Hlow : pow2 (a - b - 1) <= n # d).
  { replace (a - b - 1)%Z with (a - (b + 1))%Z by lia.
    rewrite pow2_sub by lia. apply Qmake_le_div.
    - apply Z.pow_pos_nonneg; lia.
    - rewrite Z.pow_add_r by lia. change (2 ^ 1)%Z with 2%Z. nia. }
  destruct (Qle_bool (pow2 (a - b)) (n # d)) eqn:Hk.
  - apply Qle_bool_iff in Hk. split; assumption.
  - assert (Hlt : n # d < pow2 (a - b)).
    { apply Qnot_le_lt. intros H. apply Qle_bool_iff in H. congruence. }
    replace (a - b - 1 + 1)%Z with (a - b)%Z by lia. split; assumption.
Qed.

Lemma ilog2_lt (q : Q) (k : Z) : 0 < q -> q < pow2 k -> (ilog2 q < k)%Z.
Proof.
  intros Hq Hk. destruct (ilog2_spec q Hq) as [Hlo _].
  apply pow2_lt_inv. lra.
Qed.

Lemma ilog2_ge (q : Q) (k : Z) : 0 < q -> pow2 k <= q -> (k <= ilog2 q)%Z.
Proof.
  intros Hq Hk. destruct (ilog2_spec q Hq) as [_ Hhi].
  assert (H : (k < ilog2 q + 1)%Z) by (apply pow2_lt_inv; lra). lia.
Qed.

Lemma ilog2_mono (x y : Q) : 0 < x -> x <= y -> (ilog2 x <= ilog2 y)%Z.
Proof.
  intros Hx Hxy. destruct (ilog2_spec x Hx) as [Hlo _].
  apply ilog2_ge; lra.
Qed.

Lemma cexp_mono (x y : Q) : 0 < x -> x <= y -> (cexp x <= cexp y)%Z.
Proof. intros Hx Hxy. pose proof (ilog2_mono x y Hx Hxy). unfold cexp. lia. Qed.

(** ** Rounding on one grid *)

Lemma round_at_mono (e : Z) (x y : Q) : x <= y -> round_at e x <= round_at e y.
Proof.
  intros Hxy. unfold round_at. pose proof (pow2_pos e) as He.
  apply Qmult_le_compat_r; [| lra].
  rewrite <- Zle_Qle. apply rne_mono.
  apply Qmult_le_compat_r; [exact Hxy |].
  apply Qlt_le_weak, Qinv_lt_0_compat, He.
Qed.

Lemma round_at_grid (e n : Z) : round_at e (inject_Z n * pow2 e) == inject_Z n * pow2 e.
Proof.
  unfold round_at. pose proof (pow2_pos e) as He.
  assert (H : inject_Z n * pow2 e / pow2 e == inject_Z n) by (field; lra).
  rewrite (rne_proper _ _ H), rne_Z. reflexivity.
Qed.

Lemma round_at_err (e : Z) (x : Q) :
  - ((1 # 2) * pow2 e) <= round_at e x - x <= (1 # 2) * pow2 e.
Proof.
  unfold round_at. pose proof (pow2_pos e) as He.
  assert (E : inject_Z (rne (x / pow2 e)) * pow2 e - x
              == (inject_Z (rne (x / pow2 e)) - x / pow2 e) * pow2 e)
    by (field; lra).
  assert (E1 : - ((1 # 2) * pow2 e) == - (1 # 2) * pow2 e) by ring.
  destruct (rne_err (x / pow2 e)) as [H1 H2].
  rewrite E, E1.
  split; apply Qmult_le_compat_r; try assumption; apply Qlt_le_weak, He.
Qed.

Lemma round_at_proper (e : Z) (x y : Q) : x == y -> round_at e x == round_at e y.
Proof.
  intros H. apply Qle_antisym; apply round_at_mono; rewrite H; apply Qle_refl.
Qed.

Lemma round_at_le (e k : Z) (x : Q) :
  (e <= k)%Z -> x <= pow2 k -> round_at e x <= pow2 k.
Proof.
  intros Hek Hx. rewrite (pow2_split k e Hek) in Hx |- *.
  rewrite <- (round_at_grid e (2 ^ (k - e))). apply round_at_mono, Hx.
Qed.

Lemma round_at_ge (e k : Z) (x : Q) :
  (e <= k)%Z -> pow2 k <= x -> pow2 k <= round_at e x.
Proof.
  intros Hek Hx. rewrite (pow2_split k e Hek) in Hx |- *.
  rewrite <- (round_at_grid e (2 ^ (k - e))). apply round_at_mono, Hx.
Qed.

(** ** Rounding of positive numbers *)

Lemma cexp_bounds (x : Q) :
  0 < x -> (emin <= cexp x)%Z /\ (ilog2 x < cexp x + prec)%Z.
Proof. intros _. unfold cexp, prec. lia. Qed.

Lemma round_pos_mono (x y : Q) : 0 < x -> x <= y -> round_pos x <= round_pos y.
Proof.
  intros Hx Hxy. unfold round_pos.
  assert (Hy : 0 < y) by lra.
  pose proof (cexp_mono x y Hx Hxy) as Hc.
  destruct (Z.eq_dec (cexp x) (cexp y)) as [He | Hne].
  - rewrite He. apply round_at_mono, Hxy.
  - assert (Hk : cexp y = (ilog2 y - (prec - 1))%Z).
    { pose proof (cexp_bounds x Hx). unfold cexp in *. lia. }
    destruct (ilog2_spec x Hx) as [_ Hxhi].
    destruct (ilog2_spec y Hy) as [Hylo _].
    apply Qle_trans with (pow2 (ilog2 y)).
    + apply round_at_le.
      * pose proof (cexp_bounds x Hx). unfold prec in *. lia.
      * apply Qle_trans with (pow2 (ilog2 x + 1)); [lra |].
        apply pow2_le. unfold cexp, prec in *. lia.
    + apply round_at_ge; [unfold prec in *; lia | exact Hylo].
Qed.

Lemma round_pos_nonneg (x : Q) : 0 <= x -> 0 <= round_pos x.
Proof.
  intros Hpos. unfold round_pos, round_at.
  pose proof (pow2_pos (cexp x)) as He.
  apply Qmult_le_0_compat; [| apply Qlt_le_weak, He].
  change 0 with (inject_Z 0). rewrite <- Zle_Qle.
  rewrite <- (rne_Z 0). apply rne_mono.
  unfold Qdiv. apply Qmult_le_0_compat; [exact Hpos |].
  apply Qlt_le_weak, Qinv_lt_0_compat, He.
Qed.


(** ** The rounding [fl] *)

Lemma fl_pos (x : Q) : 0 < x -> fl x = round_pos x.
Proof.
  intros H. unfold fl. destruct (Qcompare_spec x 0); [lra | lra | reflexivity].
Qed.

Lemma fl_neg (x : Q) : x < 0 -> fl x = - round_pos (- x).
Proof.
  intros H. unfold fl. destruct (Qcompare_spec x 0); [lra | reflexivity | lra].
Qed.

Lemma fl_zero (x : Q) : x == 0 -> fl x = 0.
Proof.
  intros H. unfold fl. destruct (Qcompare_spec x 0); [reflexivity | lra | lra].
Qed.

Lemma fl_nonneg (x : Q) : 0 <= x -> 0 <= fl x.
Proof.
  intros H. destruct (Qlt_le_dec 0 x) as [Hpos | Hz].
  - rewrite (fl_pos x Hpos). apply round_pos_nonneg, H.
  - rewrite (fl_zero x) by lra. apply Qle_refl.
Qed.

Lemma fl_nonpos (x : Q) : x <= 0 -> fl x <= 0.
Proof.
  intros H. destruct (Qlt_le_dec x 0) as [Hneg | Hz].
  - rewrite (fl_neg x Hneg).
    assert (0 <= round_pos (- x)) by (apply round_pos_nonneg; lra). lra.
  - rewrite (fl_zero x) by lra. apply Qle_refl.
Qed.

(** Rounding keeps the order. *)
Lemma fl_mono (x y : Q) : x <= y -> fl x <= fl y.
Proof.
  intros Hxy.
  destruct (Qlt_le_dec 0 x) as [Hx | Hx].
  - rewrite (fl_pos x Hx), (fl_pos y) by lra. apply round_pos_mono; assumption.
  - destruct (Qlt_le_dec y 0) as [Hy | Hy].
    + rewrite (fl_neg x), (fl_neg y) by lra.
      assert (round_pos (- y) <= round_pos (- x))
        by (apply round_pos_mono; lra).
      lra.
    + apply Qle_trans with 0; [apply fl_nonpos, Hx | apply fl_nonneg, Hy].
Qed.

#[global] Instance fl_proper : Proper (Qeq ==> Qeq) fl.
Proof.
  intros x y H. apply Qle_antisym; apply fl_mono; rewrite H; apply Qle_refl.
Qed.

Lemma fl_opp (x : Q) : fl (- x) == - fl x.
Proof.
  destruct (Qlt_le_dec 0 x) as [Hpos | Hle].
  - rewrite (fl_neg (- x)), (fl_pos x) by lra.
    assert (E : - - x == x) by ring.
    unfold round_pos.
    assert (Hc : cexp (- - x) = cexp x).
    { unfold cexp. f_equal. f_equal.
      apply Z.le_antisymm; apply ilog2_mono; lra. }
    rewrite Hc, (round_at_proper _ _ _ E). reflexivity.
  - destruct (Qlt_le_dec x 0) as [Hneg | Hz].
    + rewrite (fl_pos (- x)), (fl_neg x) by lra. ring.
    + rewrite (fl_zero x), (fl_zero (- x)) by lra. reflexivity.
Qed.

(** ** The numbers of the format *)

(** A number [m * 2^e] with less than 54 bits in [m] and [e] not below the
    smallest exponent is one of the format: rounding leaves it alone. *)
Lemma fl_dyadic (m e : Z) :
  (Z.abs m < 2 ^ prec)%Z -> (emin <= e)%Z ->
  fl (inject_Z m * pow2 e) == inject_Z m * pow2 e.
Proof.
  assert (Hposcase : forall m, (0 < m < 2 ^ prec)%Z -> (emin <= e)%Z ->
            fl (inject_Z m * pow2 e) == inject_Z m * pow2 e).
  { clear m. intros m Hm He. pose proof (pow2_pos e) as Hp.
    assert (Hx : 0 < inject_Z m * pow2 e).
    { apply Qmult_lt_0_compat; [| exact Hp].
      change 0 with (inject_Z 0). rewrite <- Zlt_Qlt. lia. }
    rewrite (fl_pos _ Hx). unfold round_pos.
    set (x := inject_Z m * pow2 e) in *.
    assert (Hlt : x < pow2 (prec + e)).
    { unfold x. rewrite pow2_add. apply Qmult_lt_compat_r; [exact Hp |].
      rewrite pow2_Z by (unfold prec; lia). rewrite <- Zlt_Qlt. lia. }
    pose proof (ilog2_lt x _ Hx Hlt) as Hlog.
    assert (Hc : (cexp x <= e)%Z) by (unfold cexp, prec in *; lia).
    assert (E : x == inject_Z (m * 2 ^ (e - cexp x)) * pow2 (cexp x)).
    { unfold x at 1. rewrite (pow2_split e (cexp x) Hc).
      rewrite inject_Z_mult. apply Qmult_assoc. }
    rewrite (round_at_proper _ _ _ E), round_at_grid. symmetry. exact E. }
  intros Hm He.
  destruct (Z.lt_trichotomy m 0) as [Hneg | [-> | Hpos]].
  - assert (E : inject_Z m * pow2 e == - (inject_Z (- m) * pow2 e)).
    { rewrite inject_Z_opp. ring. }
    rewrite E, fl_opp, Hposcase by lia. reflexivity.
  - rewrite fl_zero; [ring | ring].
  - apply Hposcase; lia.
Qed.

Lemma fl_Z (n : Z) : (Z.abs n <= 2 ^ prec)%Z -> fl (inject_Z n) == inject_Z n.
Proof.
  intros Hn.
  destruct (Z.eq_dec (Z.abs n) (2 ^ prec)%Z) as [Hmax | Hlt].
  - assert (E : inject_Z n == inject_Z (Z.sgn n) * pow2 prec).
    { rewrite pow2_Z by (unfold prec; lia). rewrite <- inject_Z_mult.
      rewrite <- Hmax, Z.mul_comm, Z.abs_sgn. reflexivity. }
    rewrite E. apply fl_dyadic; [| unfold emin, prec; lia].
    unfold prec. destruct n; simpl; lia.
  - assert (E : inject_Z n == inject_Z n * pow2 0) by (unfold pow2; simpl; ring).
    rewrite E at 1. rewrite fl_dyadic; [symmetry; exact E | lia | unfold emin; lia].
Qed.

(** The error of rounding is at most half the spacing of the format. *)
Lemma fl_err (x : Q) (k : Z) :
  0 < x -> x < pow2 k -> (emin + prec <= k)%Z ->
  - ((1 # 2) * pow2 (k - prec)) <= fl x - x <= (1 # 2) * pow2 (k - prec).
Proof.
  intros Hx Hk Hmin. rewrite (fl_pos x Hx). unfold round_pos.
  pose proof (ilog2_lt x k Hx Hk) as Hlog.
  assert (Hc : (cexp x <= k - prec)%Z) by (unfold cexp, prec in *; lia).
  pose proof (round_at_err (cexp x) x) as [H1 H2].
  pose proof (pow2_le _ _ Hc) as Hp.
  pose proof (pow2_pos (cexp x)) as Hp0.
  set (a := pow2 (cexp x)) in *. set (b := pow2 (k - prec)) in *.
  set (r := round_at (cexp x) x) in *.
  clearbody a b r. split; lra.
Qed.

(** The result of rounding is a number of the format. *)
Lemma fl_idem (x : Q) : fl (fl x) == fl x.
Proof.
  assert (Hposcase : forall x, 0 < x -> fl (round_pos x) == round_pos x).
  { clear x. intros x Hx. unfold round_pos, round_at.
    destruct (cexp_bounds x Hx) as [Hmin Hlog].
    destruct (ilog2_spec x Hx) as [_ Hhi].
    pose proof (pow2_pos (cexp x)) as Hp.
    set (c := cexp x) in *. set (M := rne (x / pow2 c)).
    assert (HM0 : (0 <= M)%Z).
    { unfold M. rewrite <- (rne_Z 0). apply rne_mono.
      unfold Qdiv. apply Qmult_le_0_compat; [lra |].
      apply Qlt_le_weak, Qinv_lt_0_compat, Hp. }
    assert (HM1 : (M <= 2 ^ prec)%Z).
    { unfold M. rewrite <- (rne_Z (2 ^ prec)). apply rne_mono.
      apply Qle_shift_div_r; [exact Hp |].
      rewrite <- (pow2_Z prec) by (unfold prec; lia). rewrite <- pow2_add.
      apply Qle_trans with (pow2 (ilog2 x + 1)); [lra |].
      apply pow2_le. lia. }
    destruct (Z.eq_dec M (2 ^ prec)%Z) as [-> | Hne].
    - assert (E : inject_Z (2 ^ prec) * pow2 c == inject_Z 1 * pow2 (prec + c)).
      { rewrite pow2_add, (pow2_Z prec) by (unfold prec; lia).
        change (inject_Z 1) with 1. rewrite Qmult_1_l. reflexivity. }
      rewrite E. apply fl_dyadic; [unfold prec; simpl; lia | unfold prec; lia].
    - apply fl_dyadic; lia. }
  destruct (Qlt_le_dec 0 x) as [Hpos | Hle].
  - rewrite (fl_pos x Hpos). apply Hposcase, Hpos.
  - destruct (Qlt_le_dec x 0) as [Hneg | Hz].
    + rewrite (fl_neg x Hneg), fl_opp, Hposcase by lra. reflexivity.
    + rewrite (fl_zero x) by lra. reflexivity.
Qed.

End Binary64.

(* ===================================================================== *)
(** * The PCM aligner ([muesli_backend.py], [write_aligned_audio])        *)
(* ===================================================================== *)

Module Aligner.

Local Open Scope Z_scope.

(** [BYTES_PER_SAMPLE = 2  # int16] *)
Definition BYTES_PER_SAMPLE : Z := 2.

(** [StreamWriter]: the two sinks are the bytes written so far to the
    container ([wav.writeframes]) and to the raw file ([pcm.write]). *)
Record StreamWriter := mkWriter {
  wav : list byte;
  pcm : list byte;
  last_sample_index : Z;
  bytes_written : Z
}.

(** [open_stream_writer]: both sinks empty, counters at their defaults. *)
Definition open_stream_writer : StreamWriter :=
  {| wav := []; pcm := []; last_sample_index := 0; bytes_written := 0 |}.

Definition len (b : list byte) : Z := Z.of_nat (length b).

(** [payload[:n]] and [payload[n:]] for [n >= 0]. *)
Definition slice_to (b : list byte) (n : Z) : list byte := firstn (Z.to_nat n) b.
Definition slice_from (b : list byte) (n : Z) : list byte := skipn (Z.to_nat n) b.

(** [b"\x00" * n] (empty when [n <= 0]). *)
Definition zeros (n : Z) : list byte := repeat x00 (Z.to_nat n).

(** [round(pts_us * sample_rate / 1_000_000.0)].  The product of the two
    integers is exact.  The division by a float turns it into a double,
    which rounds it when it has more than 53 bits, and rounds the quotient.
    [round] then gives the integer nearest to that double, a half going to
    the even integer.  (A product too large for a double, beyond [10^308],
    raises in Python; it is a number here.) *)
Definition round_sample (pts_us sample_rate : Z) : Z :=
  Binary64.rne
    (Binary64.fl
       (Binary64.fl (inject_Z (pts_us * sample_rate)) / 1000000)%Q).

(** [start_sample = int(round(...))], clamped at [0]. *)
Definition start_sample_of (pts_us sample_rate : Z) : Z :=
  let start_sample := round_sample pts_us sample_rate in
  if start_sample <? 0 then 0 else start_sample.

(** The two writes and the two counter updates the code always makes
    together: [wav.writeframes(data); pcm.write(data)], then
    [last_sample_index += frames; bytes_written += len(data)]. *)
Definition write_both (writer : StreamWriter) (data : list byte) (frames : Z)
    : StreamWriter :=
  {| wav := wav writer ++ data;
     pcm := pcm writer ++ data;
     last_sample_index := last_sample_index writer + frames;
     bytes_written := bytes_written writer + len data |}.

(** The alignment branch of [write_aligned_audio]: the writer after the
    silence (if any) and the payload that is left to write, or [None] where
    the code returns because the whole payload overlaps. *)
Definition align (writer : StreamWriter) (payload : list byte)
    (start_sample bytes_per_frame : Z) : option (StreamWriter * list byte) :=
  if last_sample_index writer <? start_sample then
    let gap_frames := start_sample - last_sample_index writer in
    let silence := zeros (gap_frames * bytes_per_frame) in
    Some (write_both writer silence gap_frames, payload)
  else if start_sample <? last_sample_index writer then
    let overlap_frames := last_sample_index writer - start_sample in
    let drop_bytes := overlap_frames * bytes_per_frame in
    if len payload <=? drop_bytes then None
    else Some (writer, slice_from payload drop_bytes)
  else Some (writer, payload).

(** [write_aligned_audio(writer, payload, pts_us, sample_rate, channels)];
    the writer is mutated in place, here the new writer is returned.  The
    meeting's [channels] is a positive integer; with [channels = 0] the
    division by [bytes_per_frame] raises in Python, and is [0] here. *)
Definition write_aligned_audio (writer : StreamWriter) (payload : list byte)
    (pts_us sample_rate channels : Z) : StreamWriter :=
  match payload with
  | [] => writer
  | _ =>
    let bytes_per_frame := BYTES_PER_SAMPLE * channels in
    let usable := (len payload / bytes_per_frame) * bytes_per_frame in
    if usable <=? 0 then writer
    else
      let payload := slice_to payload usable in
      let start_sample := start_sample_of pts_us sample_rate in
      match align writer payload start_sample bytes_per_frame with
      | None => writer
      | Some (writer, payload) =>
          write_both writer payload (len payload / bytes_per_frame)
      end
  end.

(** One [AUDIO] frame as the dispatcher hands it over. *)
Record AudioFrame := mkFrame { fr_payload : list byte; fr_pts_us : Z }.

(** The dispatcher applies the frames of a stream one after the other, with
    the meeting's [sample_rate] and [channels]. *)
Definition apply_frames (sample_rate channels : Z)
    (writer : StreamWriter) (frames : list AudioFrame) : StreamWriter :=
  fold_left
    (fun w f => write_aligned_audio w (fr_payload f) (fr_pts_us f) sample_rate channels)
    frames writer.

(** A payload made of whole frames. *)
Definition whole_frames (payload : list byte) (channels : Z) : Prop :=
  (len payload) mod (BYTES_PER_SAMPLE * channels) = 0.

(** The writer invariant of the specification. *)
Definition raw_size_ok (channels : Z) (w : StreamWriter) : Prop :=
  len (pcm w) = last_sample_index w * (BYTES_PER_SAMPLE * channels).

(** What the specification says a frame one sample ahead does: one frame of
    zero bytes, then the payload, in both sinks, and the index after it. *)
Definition one_frame_gap (w w' : StreamWriter) (payload : list byte)
    (channels : Z) : Prop :=
  wav w' = wav w ++ zeros (BYTES_PER_SAMPLE * channels) ++ payload /\
  pcm w' = pcm w ++ zeros (BYTES_PER_SAMPLE * channels) ++ payload /\
  last_sample_index w' =
    last_sample_index w + 1 + len payload / (BYTES_PER_SAMPLE * channels).

(** ** Facts about slices *)

Lemma len_nonneg (b : list byte) : 0 <= len b.
Proof. unfold len. lia. Qed.

Lemma len_app (a b : list byte) : len (a ++ b) = len a + len b.
Proof. unfold len. rewrite length_app. lia. Qed.

Lemma len_zeros (n : Z) : 0 <= n -> len (zeros n) = n.
Proof. intros Hn. unfold len, zeros. rewrite repeat_length. lia. Qed.

Lemma len_slice_to (b : list byte) (n : Z) :
  0 <= n <= len b -> len (slice_to b n) = n.
Proof.
  unfold len, slice_to. intros Hn.
  rewrite firstn_length_le by lia. lia.
Qed.

Lemma len_slice_from (b : list byte) (n : Z) :
  0 <= n <= len b -> len (slice_from b n) = len b - n.
Proof.
  unfold len, slice_from. intros Hn. rewrite length_skipn. lia.
Qed.

Lemma slice_to_all (b : list byte) : slice_to b (len b) = b.
Proof.
  unfold slice_to, len. rewrite Nat2Z.id. apply firstn_all.
Qed.

(** The truncated length [(len // bpf) * bpf] lies between [0] and [len]. *)
Lemma usable_bounds (n bpf : Z) :
  0 <= n -> 0 < bpf -> 0 <= n / bpf * bpf <= n.
Proof.
  intros Hn Hb. split.
  - apply Z.mul_nonneg_nonneg; [apply Z.div_pos; lia | lia].
  - rewrite Z.mul_comm. apply Z.mul_div_le. lia.
Qed.

(** ** The invariant is kept by every write *)

Lemma write_both_raw_size_ok (ch : Z) (w : StreamWriter) (data : list byte) (k : Z) :
  raw_size_ok ch w ->
  len data = k * (BYTES_PER_SAMPLE * ch) ->
  raw_size_ok ch (write_both w data k).
Proof.
  unfold raw_size_ok, write_both. simpl. intros Hw Hd.
  rewrite len_app, Hw, Hd. ring.
Qed.

Lemma align_raw_size_ok (ch : Z) (w : StreamWriter) (payload : list byte)
    (start k : Z) (w1 : StreamWriter) (p1 : list byte) :
  1 <= ch ->
  raw_size_ok ch w ->
  len payload = k * (BYTES_PER_SAMPLE * ch) ->
  align w payload start (BYTES_PER_SAMPLE * ch) = Some (w1, p1) ->
  raw_size_ok ch w1 /\ exists k1, len p1 = k1 * (BYTES_PER_SAMPLE * ch).
Proof.
  intros Hch Hw Hp. unfold align.
  destruct (Z.ltb_spec (last_sample_index w) start) as [Hgap | Hnogap].
  - intros [= <- <-]. split; [| eauto].
    apply write_both_raw_size_ok; [exact Hw |].
    apply len_zeros. unfold BYTES_PER_SAMPLE. nia.
  - destruct (Z.ltb_spec start (last_sample_index w)) as [Hover | Heq].
    + destruct (Z.leb_spec (len payload)
                  ((last_sample_index w - start) * (BYTES_PER_SAMPLE * ch)))
        as [Hall | Hsome]; [discriminate |].
      intros [= <- <-]. split; [exact Hw |].
      exists (k - (last_sample_index w - start)).
      rewrite len_slice_from; [rewrite Hp; ring |].
      unfold BYTES_PER_SAMPLE in *. nia.
    + intros [= <- <-]. eauto.
Qed.

Lemma write_aligned_audio_raw_size_ok (ch sr pts : Z) (w : StreamWriter)
    (payload : list byte) :
  1 <= ch ->
  raw_size_ok ch w ->
  raw_size_ok ch (write_aligned_audio w payload pts sr ch).
Proof.
  intros Hch Hw. unfold write_aligned_audio.
  destruct payload as [| b0 rest]; [exact Hw |].
  set (payload := b0 :: rest).
  set (bpf := BYTES_PER_SAMPLE * ch).
  assert (Hbpf : 0 < bpf) by (unfold bpf, BYTES_PER_SAMPLE; lia).
  destruct (Z.leb_spec (len payload / bpf * bpf) 0) as [_ | Hpos]; [exact Hw |].
  pose proof (usable_bounds (len payload) bpf (len_nonneg _) Hbpf) as Hu.
  assert (Hlen : len (slice_to payload (len payload / bpf * bpf))
                 = len payload / bpf * bpf) by (apply len_slice_to; exact Hu).
  destruct (align w _ _ bpf) as [[w1 p1] |] eqn:Hal; [| exact Hw].
  destruct (align_raw_size_ok ch w _ _ _ w1 p1 Hch Hw Hlen Hal) as [Hw1 [k1 Hk1]].
  apply write_both_raw_size_ok; [exact Hw1 |].
  fold bpf in Hk1 |- *. rewrite Hk1, Z.div_mul by lia. reflexivity.
Qed.

(** C3. Starting from a freshly opened stream writer, after any sequence
    of [write_aligned_audio] calls with one [sample_rate] and one
    [channels >= 1], the size of the raw PCM file is
    [last_sample_index * bytes_per_frame], with [bytes_per_frame = 2 * channels]. *)
Theorem raw_size_after_any_frames (sample_rate channels : Z)
    (frames : list AudioFrame) :
  1 <= channels ->
  let w := apply_frames sample_rate channels open_stream_writer frames in
  len (pcm w) = last_sample_index w * (2 * channels).
Proof.
  intros Hch. cbv zeta.
  change (raw_size_ok channels
            (apply_frames sample_rate channels open_stream_writer frames)).
  assert (H0 : raw_size_ok channels open_stream_writer) by reflexivity.
  revert H0. generalize open_stream_writer.
  induction frames as [| f frames IH]; intros w Hw; simpl.
  - exact Hw.
  - apply IH. apply write_aligned_audio_raw_size_ok; assumption.
Qed.

Lemma raw_size_after_any_frames_witness :
  let w := apply_frames 16000 1 open_stream_writer
             [mkFrame [x01; x02; x03] 0; mkFrame [x04; x05] 500;
              mkFrame [x06; x07; x08; x09] 0] in
  len (pcm w) = last_sample_index w * (2 * 1).
Proof. apply (raw_size_after_any_frames 16000 1); lia. Defined.

(** ** The sample index never goes back *)

Lemma write_aligned_audio_index_mono (ch sr pts : Z) (w : StreamWriter)
    (payload : list byte) :
  1 <= ch ->
  last_sample_index w
  <= last_sample_index (write_aligned_audio w payload pts sr ch).
Proof.
  intros Hch. unfold write_aligned_audio.
  destruct payload as [| b0 rest]; [lia |].
  set (payload := b0 :: rest).
  set (bpf := BYTES_PER_SAMPLE * ch).
  assert (Hbpf : 0 < bpf) by (unfold bpf, BYTES_PER_SAMPLE; lia).
  destruct (Z.leb_spec (len payload / bpf * bpf) 0) as [_ | Hpos]; [lia |].
  assert (Hdiv : forall p, 0 <= len p / bpf).
  { intros p. apply Z.div_pos; [apply len_nonneg | exact Hbpf]. }
  unfold align.
  destruct (Z.ltb_spec (last_sample_index w) (start_sample_of pts sr)).
  - simpl. specialize (Hdiv (slice_to payload (len payload / bpf * bpf))). lia.
  - destruct (Z.ltb_spec (start_sample_of pts sr) (last_sample_index w)).
    + destruct (Z.leb_spec (len (slice_to payload (len payload / bpf * bpf)))
                  ((last_sample_index w - start_sample_of pts sr) * bpf));
        [lia |].
      simpl.
      specialize (Hdiv (slice_from (slice_to payload (len payload / bpf * bpf))
                          ((last_sample_index w - start_sample_of pts sr) * bpf))).
      lia.
    + simpl. specialize (Hdiv (slice_to payload (len payload / bpf * bpf))). lia.
Qed.

Lemma apply_frames_index_nonneg (sr ch : Z) (frames : list AudioFrame) :
  1 <= ch ->
  0 <= last_sample_index (apply_frames sr ch open_stream_writer frames).
Proof.
  intros Hch. unfold apply_frames.
  assert (H0 : 0 <= last_sample_index open_stream_writer) by (simpl; lia).
  revert H0. generalize open_stream_writer.
  induction frames as [| f frames IH]; intros w Hw; simpl; [exact Hw |].
  apply IH.
  pose proof (write_aligned_audio_index_mono ch sr (fr_pts_us f) w
                (fr_payload f) Hch).
  lia.
Qed.

(** Timestamps halfway between two samples go to the even one. *)
Example round_sample_halves :
  round_sample 500000 1 = 0 /\ round_sample 1500000 1 = 2 /\
  round_sample 2500000 1 = 2 /\ round_sample (-500000) 1 = 0 /\
  round_sample 62500 16000 = 1000.
Proof. vm_compute. repeat split. Qed.

(** A frame at [pts_us = 62500] with 16 kHz mono lands on sample 1000: 2000
    zero bytes go in front of it. *)
Example silence_before_sample_1000 :
  let w := write_aligned_audio open_stream_writer [x01; x02; x03; x04]
             62500 16000 1 in
  pcm w = zeros 2000 ++ [x01; x02; x03; x04] /\ last_sample_index w = 1002.
Proof. vm_compute. split; reflexivity. Qed.

(** A frame that starts before the written samples loses its overlapping
    prefix; a trailing odd byte is dropped. *)
Example overlap_and_odd_byte :
  let w1 := write_aligned_audio open_stream_writer [x01; x02; x03; x04; x05]
              0 16000 1 in
  let w2 := write_aligned_audio w1 [x0a; x0b; x0c; x0d] 63 16000 1 in
  pcm w1 = [x01; x02; x03; x04] /\ pcm w2 = [x01; x02; x03; x04; x0c; x0d].
Proof. vm_compute. split; reflexivity. Qed.

(** ** A frame one sample ahead *)

Lemma whole_frames_usable (payload : list byte) (ch : Z) :
  1 <= ch -> whole_frames payload ch ->
  len payload / (BYTES_PER_SAMPLE * ch) * (BYTES_PER_SAMPLE * ch) = len payload.
Proof.
  unfold whole_frames. intros Hch Hmod.
  pose proof (Z.div_mod (len payload) (BYTES_PER_SAMPLE * ch)) as Hdm.
  unfold BYTES_PER_SAMPLE in *. lia.
Qed.

(** C5 (as amended). For a writer with [last_sample_index = L >= 0] and a
    non-empty payload of whole frames whose [pts_us] rounds to sample
    [L + 1], [write_aligned_audio] appends exactly one frame of zero bytes
    and then the payload to both sinks, and [last_sample_index] becomes
    [L + 1 + payload_frames]. *)
Theorem one_sample_ahead_inserts_one_frame (w : StreamWriter)
    (payload : list byte) (pts_us sample_rate channels : Z) :
  1 <= channels ->
  0 <= last_sample_index w ->
  payload <> [] ->
  whole_frames payload channels ->
  round_sample pts_us sample_rate = last_sample_index w + 1 ->
  one_frame_gap w (write_aligned_audio w payload pts_us sample_rate channels)
    payload channels.
Proof.
  intros Hch HL Hne Hwhole Hpts.
  unfold write_aligned_audio.
  destruct payload as [| b0 rest]; [congruence |].
  set (payload := b0 :: rest) in *.
  rewrite (whole_frames_usable payload channels Hch Hwhole).
  assert (Hlen : 0 < len payload) by (unfold len, payload; simpl; lia).
  destruct (Z.leb_spec (len payload) 0) as [Hle | _]; [lia |].
  rewrite slice_to_all.
  unfold start_sample_of. rewrite Hpts.
  destruct (Z.ltb_spec (last_sample_index w + 1) 0) as [Hneg | _]; [lia |].
  unfold align.
  destruct (Z.ltb_spec (last_sample_index w) (last_sample_index w + 1))
    as [_ | Hge]; [| lia].
  replace (last_sample_index w + 1 - last_sample_index w) with 1 by lia.
  rewrite Z.mul_1_l.
  unfold one_frame_gap, write_both; simpl.
  rewrite <- !app_assoc. repeat split; reflexivity.
Qed.

Lemma one_sample_ahead_inserts_one_frame_witness :
  one_frame_gap open_stream_writer
    (write_aligned_audio open_stream_writer [x01; x02; x03; x04] 63 16000 1)
    [x01; x02; x03; x04] 1.
Proof.
  apply one_sample_ahead_inserts_one_frame.
  - lia.
  - simpl. lia.
  - discriminate.
  - reflexivity.
  - reflexivity.
Defined.

(** C5 (as stated) fails on the empty payload: it is a whole number of
    frames (none), its [pts_us] rounds to sample [L + 1], and the code
    returns at [if not payload] without writing anything. *)
Lemma one_sample_ahead_empty_payload :
  ~ (forall (w : StreamWriter) (payload : list byte) (pts_us sample_rate channels : Z),
        1 <= channels ->
        whole_frames payload channels ->
        round_sample pts_us sample_rate = last_sample_index w + 1 ->
        one_frame_gap w (write_aligned_audio w payload pts_us sample_rate channels)
          payload channels).
Proof.
  intros H.
  specialize (H open_stream_writer [] 63 16000 1).
  destruct H as [Hwav _]; [lia | reflexivity | reflexivity |].
  vm_compute in Hwav. discriminate Hwav.
Qed.

(* --------------------------------------------------------------------- *)
(** ** More on [write_aligned_audio]                                       *)
(* --------------------------------------------------------------------- *)

(** [len(payload) // bytes_per_frame]: the whole frames of a payload. *)
Definition payload_frames (payload : list byte) (channels : Z) : Z :=
  len payload / (BYTES_PER_SAMPLE * channels).

(** [payload[:usable]]: the payload without its trailing partial frame. *)
Definition usable_part (payload : list byte) (channels : Z) : list byte :=
  slice_to payload
    (payload_frames payload channels * (BYTES_PER_SAMPLE * channels)).

(** Both sinks hold the same bytes, and [bytes_written] counts them. *)
Definition sinks_agree (w : StreamWriter) : Prop :=
  wav w = pcm w /\ bytes_written w = len (pcm w).

Lemma slice_from_all (b : list byte) (n : Z) :
  len b <= n -> slice_from b n = [].
Proof.
  unfold len, slice_from. intros Hn. apply skipn_all2. lia.
Qed.

Lemma slice_from_0 (b : list byte) : slice_from b 0 = b.
Proof. reflexivity. Qed.

Lemma len_usable_part (payload : list byte) (ch : Z) :
  1 <= ch ->
  len (usable_part payload ch)
  = payload_frames payload ch * (BYTES_PER_SAMPLE * ch).
Proof.
  intros Hch. unfold usable_part, payload_frames. apply len_slice_to.
  apply usable_bounds; [apply len_nonneg | unfold BYTES_PER_SAMPLE; lia].
Qed.

Lemma payload_frames_nonneg (payload : list byte) (ch : Z) :
  1 <= ch -> 0 <= payload_frames payload ch.
Proof.
  intros Hch. unfold payload_frames. apply Z.div_pos;
    [apply len_nonneg | unfold BYTES_PER_SAMPLE; lia].
Qed.

(** [write_aligned_audio] in terms of the whole frames of the payload: with
    none it returns at once, otherwise it aligns and writes them. *)
Lemma write_aligned_audio_unfold (w : StreamWriter) (payload : list byte)
    (pts sr ch : Z) :
  1 <= ch ->
  write_aligned_audio w payload pts sr ch
  = if payload_frames payload ch <=? 0 then w
    else match align w (usable_part payload ch) (start_sample_of pts sr)
                 (BYTES_PER_SAMPLE * ch) with
         | None => w
         | Some (w1, p1) =>
             write_both w1 p1 (len p1 / (BYTES_PER_SAMPLE * ch))
         end.
Proof.
  intros Hch. unfold write_aligned_audio, usable_part, payload_frames.
  set (bpf := BYTES_PER_SAMPLE * ch).
  assert (Hbpf : 0 < bpf) by (unfold bpf, BYTES_PER_SAMPLE; lia).
  destruct payload as [| b0 rest].
  - change (len []) with 0. rewrite Z.div_0_l by lia. reflexivity.
  - set (payload := b0 :: rest).
    destruct (Z.leb_spec (len payload / bpf * bpf) 0) as [Hle | Hgt];
      destruct (Z.leb_spec (len payload / bpf) 0) as [Hle' | Hgt'];
      try reflexivity; nia.
Qed.

(** The writer a call leaves is the old one with [added] appended to both
    sinks and the index advanced by [k]. *)
Definition extends_by (w w' : StreamWriter) (added : list byte) (k : Z) : Prop :=
  wav w' = wav w ++ added /\ pcm w' = pcm w ++ added /\
  last_sample_index w' = last_sample_index w + k /\
  bytes_written w' = bytes_written w + len added.

Lemma extends_by_refl (w : StreamWriter) : extends_by w w [] 0.
Proof.
  unfold extends_by. rewrite !app_nil_r. change (len []) with 0.
  repeat split; lia.
Qed.

(** What a call appends, branch by branch. *)
Lemma write_aligned_audio_extends (w : StreamWriter) (payload : list byte)
    (pts sr ch : Z) :
  1 <= ch ->
  let bpf := BYTES_PER_SAMPLE * ch in
  let s := start_sample_of pts sr in
  let L := last_sample_index w in
  let p := usable_part payload ch in
  let w' := write_aligned_audio w payload pts sr ch in
  if payload_frames payload ch <=? 0 then w' = w
  else if L <? s then
    extends_by w w' (zeros ((s - L) * bpf) ++ p)
      (s - L + payload_frames payload ch)
  else if payload_frames payload ch <=? L - s then w' = w
  else
    extends_by w w' (slice_from p ((L - s) * bpf))
      (payload_frames payload ch - (L - s)).
Proof.
  intros Hch. cbv zeta. rewrite write_aligned_audio_unfold by exact Hch.
  set (bpf := BYTES_PER_SAMPLE * ch).
  assert (Hbpf : 0 < bpf) by (unfold bpf, BYTES_PER_SAMPLE; lia).
  pose proof (len_usable_part payload ch Hch) as Hlen. fold bpf in Hlen.
  destruct (Z.leb_spec (payload_frames payload ch) 0) as [_ | Hpos];
    [reflexivity |].
  unfold align.
  destruct (Z.ltb_spec (last_sample_index w) (start_sample_of pts sr))
    as [Hgap | Hnogap].
  - unfold extends_by, write_both. simpl.
    rewrite Hlen, Z.div_mul, !len_app, len_zeros by nia.
    rewrite <- !app_assoc. repeat split; lia.
  - assert (Hcmp : (len (usable_part payload ch)
                    <=? (last_sample_index w - start_sample_of pts sr) * bpf)
                   = (payload_frames payload ch
                      <=? last_sample_index w - start_sample_of pts sr)).
    { rewrite Hlen.
      destruct (Z.leb_spec (payload_frames payload ch * bpf)
                  ((last_sample_index w - start_sample_of pts sr) * bpf));
        destruct (Z.leb_spec (payload_frames payload ch)
                    (last_sample_index w - start_sample_of pts sr));
        try reflexivity; nia. }
    destruct (Z.ltb_spec (start_sample_of pts sr) (last_sample_index w))
      as [Hover | Heq].
    + rewrite Hcmp.
      destruct (Z.leb_spec (payload_frames payload ch)
                  (last_sample_index w - start_sample_of pts sr))
        as [Hall | Hsome]; [reflexivity |].
      unfold extends_by, write_both. simpl.
      rewrite len_slice_from by (rewrite Hlen; nia).
      rewrite Hlen.
      replace (payload_frames payload ch * bpf
               - (last_sample_index w - start_sample_of pts sr) * bpf)
        with ((payload_frames payload ch
               - (last_sample_index w - start_sample_of pts sr)) * bpf)
        by ring.
      rewrite Z.div_mul by lia. repeat split; lia.
    + assert (Hs : start_sample_of pts sr = last_sample_index w) by lia.
      rewrite Hs, Z.sub_diag.
      destruct (Z.leb_spec (payload_frames payload ch) 0); [lia |].
      rewrite Z.mul_0_l, slice_from_0.
      unfold extends_by, write_both. simpl.
      rewrite Hlen, Z.div_mul by lia. repeat split; lia.
Qed.

Lemma write_both_sinks_agree (w : StreamWriter) (data : list byte) (k : Z) :
  sinks_agree w -> sinks_agree (write_both w data k).
Proof.
  unfold sinks_agree, write_both. simpl. intros [Hwav Hcount].
  rewrite Hwav, Hcount, len_app. split; reflexivity.
Qed.

Lemma write_aligned_audio_sinks_agree (w : StreamWriter) (payload : list byte)
    (pts sr ch : Z) :
  sinks_agree w -> sinks_agree (write_aligned_audio w payload pts sr ch).
Proof.
  intros Hw. unfold write_aligned_audio.
  destruct payload as [| b0 rest]; [exact Hw |].
  destruct (_ <=? 0); [exact Hw |].
  unfold align.
  destruct (_ <? _).
  - apply write_both_sinks_agree, write_both_sinks_agree, Hw.
  - destruct (_ <? _).
    + destruct (_ <=? _); [exact Hw | apply write_both_sinks_agree, Hw].
    + apply write_both_sinks_agree, Hw.
Qed.

(** X1. After any sequence of frames applied to a freshly opened writer,
    whatever the sample rate and channel count, the container sink and the
    raw sink hold the same bytes and [bytes_written] is their number. *)
Theorem sinks_identical_after_any_frames (sample_rate channels : Z)
    (frames : list AudioFrame) :
  let w := apply_frames sample_rate channels open_stream_writer frames in
  wav w = pcm w /\ bytes_written w = len (pcm w).
Proof.
  cbv zeta.
  change (sinks_agree
            (apply_frames sample_rate channels open_stream_writer frames)).
  assert (H0 : sinks_agree open_stream_writer) by (split; reflexivity).
  revert H0. generalize open_stream_writer.
  induction frames as [| f frames IH]; intros w Hw; simpl; [exact Hw |].
  apply IH, write_aligned_audio_sinks_agree, Hw.
Qed.

(** X2. A call of [write_aligned_audio] only appends: the bytes already in
    the two sinks stay where they are, the same bytes are added to both,
    and [last_sample_index] grows by exactly the number of frames added
    (so it never decreases). *)
Theorem write_appends_whole_frames (w : StreamWriter) (payload : list byte)
    (pts_us sample_rate channels : Z) :
  1 <= channels ->
  exists (added : list byte) (k : Z),
    extends_by w (write_aligned_audio w payload pts_us sample_rate channels)
      added k /\
    0 <= k /\ len added = k * (BYTES_PER_SAMPLE * channels).
Proof.
  intros Hch.
  pose proof (write_aligned_audio_extends w payload pts_us sample_rate
                channels Hch) as H. cbv zeta in H.
  pose proof (len_usable_part payload channels Hch) as Hlen.
  set (bpf := BYTES_PER_SAMPLE * channels) in *.
  assert (Hbpf : 0 < bpf) by (unfold bpf, BYTES_PER_SAMPLE; lia).
  assert (Hnoop : forall w', w' = w -> exists added k,
             extends_by w w' added k /\ 0 <= k /\ len added = k * bpf).
  { intros w' ->. exists [], 0. split; [apply extends_by_refl |].
    split; [lia | reflexivity]. }
  destruct (Z.leb_spec (payload_frames payload channels) 0) as [_ | Hpos];
    [apply Hnoop, H |].
  destruct (Z.ltb_spec (last_sample_index w)
              (start_sample_of pts_us sample_rate)) as [Hgap | Hnogap].
  - eexists _, _. split; [exact H |]. split; [lia |].
    rewrite len_app, len_zeros, Hlen by nia. ring.
  - destruct (Z.leb_spec (payload_frames payload channels)
                (last_sample_index w - start_sample_of pts_us sample_rate))
      as [Hall | Hsome]; [apply Hnoop, H |].
    eexists _, _. split; [exact H |]. split; [lia |].
    rewrite len_slice_from by (rewrite Hlen; nia). rewrite Hlen. ring.
Qed.

Lemma write_appends_whole_frames_witness :
  exists (added : list byte) (k : Z),
    extends_by (mkWriter [x01; x02] [x01; x02] 1 2)
      (write_aligned_audio (mkWriter [x01; x02] [x01; x02] 1 2)
         [x03; x04; x05] 125 16000 1)
      added k /\
    0 <= k /\ len added = k * (BYTES_PER_SAMPLE * 1).
Proof. apply write_appends_whole_frames. lia. Defined.

(** X3. When the payload holds at least one whole frame, the index after
    the call is the larger of the old index and the end of the frame as
    its timestamp places it: [max(L, start_sample + payload_frames)]. *)
Theorem index_after_write (w : StreamWriter) (payload : list byte)
    (pts_us sample_rate channels : Z) :
  1 <= channels ->
  1 <= payload_frames payload channels ->
  last_sample_index (write_aligned_audio w payload pts_us sample_rate channels)
  = Z.max (last_sample_index w)
      (start_sample_of pts_us sample_rate + payload_frames payload channels).
Proof.
  intros Hch Hframes.
  pose proof (write_aligned_audio_extends w payload pts_us sample_rate
                channels Hch) as H. cbv zeta in H.
  destruct (Z.leb_spec (payload_frames payload channels) 0); [lia |].
  destruct (Z.ltb_spec (last_sample_index w)
              (start_sample_of pts_us sample_rate)).
  - destruct H as (_ & _ & Hidx & _). lia.
  - destruct (Z.leb_spec (payload_frames payload channels)
                (last_sample_index w - start_sample_of pts_us sample_rate)).
    + rewrite H. lia.
    + destruct H as (_ & _ & Hidx & _). lia.
Qed.

Lemma index_after_write_witness :
  last_sample_index
    (write_aligned_audio (mkWriter [] [] 10 0) [x01; x02; x03; x04] 250 16000 1)
  = Z.max 10 (start_sample_of 250 16000 + payload_frames [x01; x02; x03; x04] 1).
Proof. apply index_after_write; [lia | vm_compute; discriminate]. Defined.

(** X4. A frame whose timestamp lies at or before the samples already
    written loses exactly the bytes of the overlapping frames: what is
    appended to both sinks is the payload (without a trailing partial
    frame) from byte [(L - start_sample) * bytes_per_frame] on, which is
    nothing when the whole payload overlaps. *)
Theorem early_frame_loses_overlap (w : StreamWriter) (payload : list byte)
    (pts_us sample_rate channels : Z) :
  1 <= channels ->
  start_sample_of pts_us sample_rate <= last_sample_index w ->
  let w' := write_aligned_audio w payload pts_us sample_rate channels in
  let kept := slice_from (usable_part payload channels)
                ((last_sample_index w - start_sample_of pts_us sample_rate)
                 * (BYTES_PER_SAMPLE * channels)) in
  pcm w' = pcm w ++ kept /\ wav w' = wav w ++ kept.
Proof.
  intros Hch Hearly. cbv zeta.
  pose proof (write_aligned_audio_extends w payload pts_us sample_rate
                channels Hch) as H. cbv zeta in H.
  pose proof (len_usable_part payload channels Hch) as Hlen.
  pose proof (payload_frames_nonneg payload channels Hch) as Hnn.
  set (bpf := BYTES_PER_SAMPLE * channels) in *.
  assert (Hbpf : 0 < bpf) by (unfold bpf, BYTES_PER_SAMPLE; lia).
  assert (Hnone : payload_frames payload channels
                  <= last_sample_index w - start_sample_of pts_us sample_rate ->
                  slice_from (usable_part payload channels)
                    ((last_sample_index w - start_sample_of pts_us sample_rate)
                     * bpf) = []).
  { intros Hall. apply slice_from_all. rewrite Hlen. nia. }
  destruct (Z.leb_spec (payload_frames payload channels) 0) as [Hzero | Hpos].
  - rewrite H, Hnone, !app_nil_r by lia. split; reflexivity.
  - destruct (Z.ltb_spec (last_sample_index w)
                (start_sample_of pts_us sample_rate)); [lia |].
    destruct (Z.leb_spec (payload_frames payload channels)
                (last_sample_index w - start_sample_of pts_us sample_rate))
      as [Hall | Hsome].
    + rewrite H, (Hnone Hall), !app_nil_r. split; reflexivity.
    + destruct H as (Hwav & Hpcm & _). split; assumption.
Qed.

Lemma early_frame_loses_overlap_witness :
  let w := mkWriter [x01; x02; x03; x04] [x01; x02; x03; x04] 2 4 in
  let w' := write_aligned_audio w [x0a; x0b; x0c; x0d; x0e] 63 16000 1 in
  let kept := slice_from (usable_part [x0a; x0b; x0c; x0d; x0e] 1)
                ((last_sample_index w - start_sample_of 63 16000)
                 * (BYTES_PER_SAMPLE * 1)) in
  pcm w' = pcm w ++ kept /\ wav w' = wav w ++ kept.
Proof.
  apply (early_frame_loses_overlap
           (mkWriter [x01; x02; x03; x04] [x01; x02; x03; x04] 2 4)).
  - lia.
  - vm_compute. discriminate.
Defined.

(** Frames that follow one another without gap or overlap: each payload is
    made of whole frames and its timestamp rounds to the sample after the
    previous payload. *)
Fixpoint back_to_back (sample_rate channels : Z) (next : Z)
    (frames : list AudioFrame) : Prop :=
  match frames with
  | [] => True
  | f :: rest =>
      whole_frames (fr_payload f) channels /\
      start_sample_of (fr_pts_us f) sample_rate = next /\
      back_to_back sample_rate channels
        (next + payload_frames (fr_payload f) channels) rest
  end.

(** X5. Frames that arrive back to back are stored unchanged: the raw sink
    grows by the concatenation of their payloads, nothing else. *)
Theorem back_to_back_round_trip (sample_rate channels : Z) (w : StreamWriter)
    (frames : list AudioFrame) :
  1 <= channels ->
  back_to_back sample_rate channels (last_sample_index w) frames ->
  pcm (apply_frames sample_rate channels w frames)
  = pcm w ++ List.concat (map fr_payload frames).
Proof.
  intros Hch. revert w. induction frames as [| f frames IH]; intros w Hbb.
  - simpl. rewrite app_nil_r. reflexivity.
  - destruct Hbb as (Hwhole & Hstart & Hrest). simpl.
    pose proof (early_frame_loses_overlap w (fr_payload f) (fr_pts_us f)
                  sample_rate channels Hch) as Hover.
    cbv zeta in Hover. rewrite Hstart, Z.sub_diag in Hover.
    destruct (Hover (Z.le_refl _)) as [Hpcm _].
    rewrite Z.mul_0_l, slice_from_0 in Hpcm.
    assert (Hall : usable_part (fr_payload f) channels = fr_payload f).
    { unfold usable_part, payload_frames.
      rewrite (whole_frames_usable _ _ Hch Hwhole). apply slice_to_all. }
    rewrite Hall in Hpcm.
    assert (Hidx : last_sample_index
                     (write_aligned_audio w (fr_payload f) (fr_pts_us f)
                        sample_rate channels)
                   = last_sample_index w
                     + payload_frames (fr_payload f) channels).
    { pose proof (write_aligned_audio_extends w (fr_payload f) (fr_pts_us f)
                    sample_rate channels Hch) as H. cbv zeta in H.
      rewrite Hstart, Z.ltb_irrefl, Z.sub_diag in H.
      destruct (Z.leb_spec (payload_frames (fr_payload f) channels) 0).
      - pose proof (payload_frames_nonneg (fr_payload f) channels Hch).
        rewrite H. lia.
      - destruct H as (_ & _ & Hi & _). lia. }
    rewrite IH by (rewrite Hidx; exact Hrest).
    rewrite Hpcm, <- app_assoc. reflexivity.
Qed.

Lemma back_to_back_round_trip_witness :
  pcm (apply_frames 16000 1 open_stream_writer
         [mkFrame [x01; x02; x03; x04] 0; mkFrame [x05; x06] 125;
          mkFrame [x07; x08] 188])
  = pcm open_stream_writer
    ++ List.concat (map fr_payload
         [mkFrame [x01; x02; x03; x04] 0; mkFrame [x05; x06] 125;
          mkFrame [x07; x08] 188]).
Proof.
  apply back_to_back_round_trip; [lia |].
  vm_compute. repeat split.
Defined.

(** X6. A trailing partial frame is dropped: a payload of whole frames
    followed by fewer bytes than one frame is written exactly like the
    whole frames alone, and a payload shorter than one frame writes
    nothing. *)
Theorem trailing_partial_frame_ignored (w : StreamWriter)
    (payload extra : list byte) (pts_us sample_rate channels : Z) :
  1 <= channels ->
  whole_frames payload channels ->
  len extra < BYTES_PER_SAMPLE * channels ->
  write_aligned_audio w (payload ++ extra) pts_us sample_rate channels
  = write_aligned_audio w payload pts_us sample_rate channels.
Proof.
  intros Hch Hwhole Hextra.
  rewrite !write_aligned_audio_unfold by exact Hch.
  set (bpf := BYTES_PER_SAMPLE * channels) in *.
  assert (Hbpf : 0 < bpf) by (unfold bpf, BYTES_PER_SAMPLE; lia).
  pose proof (whole_frames_usable payload channels Hch Hwhole) as Hp.
  fold bpf in Hp.
  assert (Hframes : payload_frames (payload ++ extra) channels
                    = payload_frames payload channels).
  { unfold payload_frames. fold bpf. rewrite len_app.
    remember (len payload / bpf) as k eqn:Hk. rewrite <- Hp.
    rewrite Z.div_add_l by lia.
    rewrite (Z.div_small (len extra)); [lia |].
    split; [apply len_nonneg | exact Hextra]. }
  assert (Husable : usable_part (payload ++ extra) channels
                    = usable_part payload channels).
  { unfold usable_part. rewrite Hframes. unfold payload_frames. fold bpf.
    rewrite Hp, slice_to_all. unfold slice_to, len.
    rewrite Nat2Z.id, firstn_app, Nat.sub_diag, firstn_all. simpl.
    apply app_nil_r. }
  rewrite Hframes, Husable. reflexivity.
Qed.

Lemma trailing_partial_frame_ignored_witness :
  write_aligned_audio open_stream_writer ([x01; x02; x03; x04] ++ [x05]) 0 16000 1
  = write_aligned_audio open_stream_writer [x01; x02; x03; x04] 0 16000 1.
Proof.
  apply trailing_partial_frame_ignored; [lia | reflexivity | reflexivity].
Defined.

(* --------------------------------------------------------------------- *)
(** ** From timestamps to sample indices                                   *)
(* --------------------------------------------------------------------- *)

Lemma round_sample_mono (sample_rate pts1 pts2 : Z) :
  0 <= sample_rate -> pts1 <= pts2 ->
  round_sample pts1 sample_rate <= round_sample pts2 sample_rate.
Proof.
  intros Hsr Hpts. unfold round_sample.
  apply Binary64.rne_mono, Binary64.fl_mono.
  apply Qmult_le_compat_r; [| vm_compute; discriminate].
  apply Binary64.fl_mono. rewrite <- Zle_Qle. nia.
Qed.

(** Below [2^53] the product is a double, and the rounding of the quotient
    is too small to move it across the middle between two integers: these
    middles are at least [10^-6] away from a quotient that is not one of
    them, the rounding moves it by [2^-20] at most. *)
Lemma round_sample_nearest (pts_us sample_rate : Z) :
  0 <= pts_us * sample_rate < 2 ^ 53 ->
  - 1000000
  <= 2 * (round_sample pts_us sample_rate * 1000000 - pts_us * sample_rate)
  <= 1000000.
Proof.
  intros Hn. unfold round_sample. set (n := pts_us * sample_rate) in *.
  assert (Hfl : (Binary64.fl (inject_Z n) == inject_Z n)%Q).
  { apply Binary64.fl_Z. unfold Binary64.prec. lia. }
  assert (Hx : (Binary64.fl (inject_Z n) / 1000000 == inject_Z n / 1000000)%Q)
    by (rewrite Hfl; reflexivity).
  rewrite (Binary64.rne_proper _ _ (Binary64.fl_proper _ _ Hx)).
  set (x := (inject_Z n / 1000000)%Q).
  assert (Hxn : (x * 1000000 == inject_Z n)%Q) by (unfold x; field).
  destruct (Z.eq_dec n 0) as [Hz | Hnz].
  - assert (Hx0 : (x == 0)%Q) by (unfold x; rewrite Hz; reflexivity).
    rewrite (Binary64.fl_zero x Hx0), Hz. vm_compute. split; discriminate.
  - assert (Hpos : (0 < x)%Q).
    { unfold x. apply Qlt_shift_div_l; [reflexivity |].
      rewrite Qmult_0_l. change 0%Q with (inject_Z 0). rewrite <- Zlt_Qlt. lia. }
    assert (Hsmall : (x < Binary64.pow2 34)%Q).
    { unfold x. apply Qlt_shift_div_r; [reflexivity |].
      apply Qlt_le_trans with (inject_Z (2 ^ 53)).
      - rewrite <- Zlt_Qlt. lia.
      - vm_compute. discriminate. }
    pose proof (Binary64.fl_err x 34 Hpos Hsmall ltac:(vm_compute; discriminate))
      as [He1 He2].
    assert (Hd : (Binary64.pow2 (34 - Binary64.prec) == 1 # 524288)%Q)
      by reflexivity.
    rewrite Hd in He1, He2.
    pose proof (Binary64.rne_err (Binary64.fl x)) as [Hr1 Hr2].
    set (s := Binary64.rne (Binary64.fl x)) in *.
    set (y := Binary64.fl x) in *. clearbody y s.
    assert (Hq : (inject_Z (s * 1000000 - n)
                  == inject_Z s * 1000000 - inject_Z n)%Q).
    { unfold Z.sub. rewrite inject_Z_plus, inject_Z_mult, inject_Z_opp.
      reflexivity. }
    split.
    + destruct (Z_le_gt_dec (- 500000) (s * 1000000 - n)) as [H | H]; [lia |].
      exfalso. assert (H' : s * 1000000 - n <= - 500001) by lia.
      rewrite Zle_Qle, Hq in H'.
      change (inject_Z (- 500001)) with (- 500001)%Q in H'. lra.
    + destruct (Z_le_gt_dec (s * 1000000 - n) 500000) as [H | H]; [lia |].
      exfalso. assert (H' : 500001 <= s * 1000000 - n) by lia.
      rewrite Zle_Qle, Hq in H'.
      change (inject_Z 500001) with 500001%Q in H'. lra.
Qed.

(** The largest timestamp the header of a message can carry, at 48 kHz:
    the product has more than 53 bits, and the index is nine samples above
    the exact position [442721857769029239.9...]. *)
Example round_sample_large_timestamp :
  round_sample 9223372036854775807 48000 = 442721857769029248.
Proof. vm_compute. reflexivity. Qed.

(** X7. The sample index a timestamp is aligned to is never negative and
    never moves back when the timestamp moves forward; and it is within
    half a sample of the exact position [pts_us * sample_rate / 10^6]
    whenever the product [pts_us * sample_rate] is not negative and below
    [2^53] (beyond that the double the code divides is no longer the
    product). *)
Theorem start_sample_nearest_and_monotone (sample_rate : Z) :
  0 <= sample_rate ->
  (forall pts_us, 0 <= start_sample_of pts_us sample_rate) /\
  (forall pts_us, 0 <= pts_us -> pts_us * sample_rate < 2 ^ 53 ->
     - 1000000
     <= 2 * (start_sample_of pts_us sample_rate * 1000000 - pts_us * sample_rate)
     <= 1000000) /\
  (forall pts1 pts2, pts1 <= pts2 ->
     start_sample_of pts1 sample_rate <= start_sample_of pts2 sample_rate).
Proof.
  intros Hsr. unfold start_sample_of.
  split; [| split].
  - intros pts_us.
    destruct (Z.ltb_spec (round_sample pts_us sample_rate) 0); lia.
  - intros pts_us Hpts Hsmall.
    pose proof (round_sample_nearest pts_us sample_rate ltac:(nia)).
    destruct (Z.ltb_spec (round_sample pts_us sample_rate) 0); nia.
  - intros pts1 pts2 Hle.
    pose proof (round_sample_mono sample_rate pts1 pts2 Hsr Hle).
    destruct (Z.ltb_spec (round_sample pts1 sample_rate) 0);
      destruct (Z.ltb_spec (round_sample pts2 sample_rate) 0); lia.
Qed.

Lemma start_sample_nearest_and_monotone_witness :
  (forall pts_us, 0 <= start_sample_of pts_us 48000) /\
  (forall pts_us, 0 <= pts_us -> pts_us * 48000 < 2 ^ 53 ->
     - 1000000
     <= 2 * (start_sample_of pts_us 48000 * 1000000 - pts_us * 48000)
     <= 1000000) /\
  (forall pts1 pts2, pts1 <= pts2 ->
     start_sample_of pts1 48000 <= start_sample_of pts2 48000).
Proof. apply start_sample_nearest_and_monotone. lia. Defined.

End Aligner.

(* ===================================================================== *)
(** * Speaker assignment, turn grouping and text join ([merge.py])         *)
(* ===================================================================== *)

Module Merge.

Import Binary64.

Local Open Scope Q_scope.
Local Open Scope string_scope.
Local Open Scope list_scope.

(** ** Data model ([asr.Word], [diarisation.DiarSegment], [merge.py]) *)

Record Word := mkWord {
  w_text : string;
  w_start : Q;
  w_end : Q
}.

Record DiarSegment := mkSeg {
  seg_start : Q;
  seg_end : Q;
  seg_speaker : string
}.

Record LabelledWord := mkLabelled {
  lw_text : string;
  lw_start : Q;
  lw_end : Q;
  lw_speaker : string
}.

Record SpeakerTurn := mkTurn {
  t_speaker : string;
  t_start : Q;
  t_end : Q;
  t_text : string;
  t_words : list LabelledWord
}.

Record MergedTranscript := mkMerged {
  turns : list SpeakerTurn;
  words : list LabelledWord;
  segments : list DiarSegment
}.

Definition UNKNOWN : string := "UNKNOWN".

(** Python's [max] and [min] of two numbers: the first argument is kept
    unless the second is strictly greater (smaller). *)
Definition py_max (a b : Q) : Q := if Qlt_le_dec a b then b else a.
Definition py_min (a b : Q) : Q := if Qlt_le_dec b a then b else a.

(** ** [assign_speakers_to_words] *)

(** [sorted(words, key=lambda w: w.start)]: Python's sort is stable, and a
    stable sort has one result; it is computed here by insertion, a word
    going in front of the first one whose start is not smaller. *)
Fixpoint insert_by_start (w : Word) (l : list Word) : list Word :=
  match l with
  | [] => [w]
  | x :: l' =>
      if Qlt_le_dec (w_start x) (w_start w) then x :: insert_by_start w l'
      else w :: x :: l'
  end.

Definition sorted_by_start (ws : list Word) : list Word :=
  fold_right insert_by_start [] ws.

(** [w.end > w.start] *)
Definition valid_word (w : Word) : bool :=
  if Qlt_le_dec (w_start w) (w_end w) then true else false.

(** The results of [+], [-] and [/] on floats are rounded to the nearest
    double, by [fl]. *)
(** [word_mid = (word.start + word.end) / 2] *)
Definition midpoint (word : Word) : Q :=
  fl (fl (w_start word + w_end word) / 2).

(** [overlap = max(0, min(word.end, seg.end) - max(word.start, seg.start))] *)
Definition overlap (word : Word) (seg : DiarSegment) : Q :=
  let overlap_start := py_max (w_start word) (seg_start seg) in
  let overlap_end := py_min (w_end word) (seg_end seg) in
  py_max 0 (fl (overlap_end - overlap_start)).

(** [dist]: the distance from the word's midpoint to the segment. *)
Definition distance (word_mid : Q) (seg : DiarSegment) : Q :=
  if Qlt_le_dec word_mid (seg_start seg) then fl (seg_start seg - word_mid)
  else if Qlt_le_dec (seg_end seg) word_mid then fl (word_mid - seg_end seg)
  else 0.

(** The four variables of the loop over the segments; [min_distance] starts
    at [float("inf")], which is [None] here. *)
Record scan := mkScan {
  best_speaker : string;
  best_overlap : Q;
  nearest_speaker : option string;
  min_distance : option Q
}.

Definition scan_init : scan :=
  {| best_speaker := UNKNOWN; best_overlap := 0;
     nearest_speaker := None; min_distance := None |}.

(** [dist < min_distance] *)
Definition closer (dist : Q) (min_distance : option Q) : bool :=
  match min_distance with
  | None => true
  | Some m => if Qlt_le_dec dist m then true else false
  end.

(** The body of [for seg in segments]. *)
Definition scan_step (word : Word) (word_mid : Q) (st : scan) (seg : DiarSegment)
    : scan :=
  let ov := overlap word seg in
  let better := if Qlt_le_dec (best_overlap st) ov then true else false in
  let dist := distance word_mid seg in
  let near := closer dist (min_distance st) in
  {| best_overlap := if better then ov else best_overlap st;
     best_speaker := if better then seg_speaker seg else best_speaker st;
     min_distance := if near then Some dist else min_distance st;
     nearest_speaker := if near then Some (seg_speaker seg) else nearest_speaker st |}.

(** Truth value of [nearest_speaker]: [None] and the empty string are false. *)
Definition truthy (s : option string) : bool :=
  match s with
  | None => false
  | Some s => negb (s =? "")
  end.

(** [min_distance <= tolerance] *)
Definition within (min_distance : option Q) (tolerance : Q) : bool :=
  match min_distance with
  | None => false
  | Some m => if Qlt_le_dec tolerance m then false else true
  end.

(** The speaker given to one word, before interpolation. *)
Definition word_speaker (word : Word) (segs : list DiarSegment) (tolerance : Q)
    : string :=
  let word_mid := midpoint word in
  let st := fold_left (scan_step word word_mid) segs scan_init in
  if Qeq_bool (best_overlap st) 0 && truthy (nearest_speaker st)
       && within (min_distance st) tolerance
  then default UNKNOWN (nearest_speaker st)
  else best_speaker st.

Definition label_word (segs : list DiarSegment) (tolerance : Q) (word : Word)
    : LabelledWord :=
  {| lw_text := w_text word; lw_start := w_start word; lw_end := w_end word;
     lw_speaker := word_speaker word segs tolerance |}.

(** ** [_interpolate_unknown_speakers] *)

Definition is_unknown (w : LabelledWord) : bool := lw_speaker w =? UNKNOWN.

Definition with_speaker (w : LabelledWord) (s : string) : LabelledWord :=
  {| lw_text := lw_text w; lw_start := lw_start w; lw_end := lw_end w;
     lw_speaker := s |}.

(** [for j in range(lo, hi): if result[j].speaker != "UNKNOWN": ...; break],
    over the indices [js]. *)
Fixpoint first_known (result : list LabelledWord) (js : list nat) : option string :=
  match js with
  | [] => None
  | j :: js' =>
      match result !! j with
      | Some w => if is_unknown w then first_known result js' else Some (lw_speaker w)
      | None => first_known result js'
      end
  end.

(** [range(lo, hi)] *)
Definition range (lo hi : nat) : list nat := seq lo (hi - lo).

(** The body of the forward loop, at index [i]; the state is the list
    [result], updated in place, and [last_known]. *)
Definition forward_step (st : list LabelledWord * option string) (i : nat)
    : list LabelledWord * option string :=
  let '(result, last_known) := st in
  match result !! i with
  | None => st
  | Some word =>
      if negb (is_unknown word) then (result, Some (lw_speaker word))
      else
        match last_known with
        | None => st
        | Some lk =>
            let next_known :=
              first_known result (range (i + 1) (Nat.min (i + 10) (length result))) in
            match next_known with
            | None => (<[i := with_speaker word lk]> result, last_known)
            | Some nk =>
                if nk =? lk then (<[i := with_speaker word lk]> result, last_known)
                else st
            end
        end
  end.

Definition forward_pass (result : list LabelledWord) : list LabelledWord :=
  fst (fold_left forward_step (range 0 (length result)) (result, None)).

(** The body of the backward loop, [for i in range(len(result) - 1, -1, -1)]. *)
Definition backward_step (st : list LabelledWord * option string) (i : nat)
    : list LabelledWord * option string :=
  let '(result, next_known) := st in
  match result !! i with
  | None => st
  | Some word =>
      if negb (is_unknown word) then (result, Some (lw_speaker word))
      else
        match next_known with
        | None => st
        | Some nk => (<[i := with_speaker word nk]> result, next_known)
        end
  end.

Definition backward_pass (result : list LabelledWord) : list LabelledWord :=
  fst (fold_left backward_step (rev (range 0 (length result))) (result, None)).

Definition _interpolate_unknown_speakers (ws : list LabelledWord)
    : list LabelledWord :=
  match ws with
  | [] => ws
  | _ => backward_pass (forward_pass ws)
  end.

Definition assign_speakers_to_words (ws : list Word) (segs : list DiarSegment)
    (tolerance : Q) : list LabelledWord :=
  let sorted_words := sorted_by_start ws in
  let sorted_words := List.filter valid_word sorted_words in
  let labelled := map (label_word segs tolerance) sorted_words in
  _interpolate_unknown_speakers labelled.

(** ** [_join_words_smart] *)

(** [sub in s] on strings: [sub] occurs in [s] as a substring. *)
Fixpoint str_in (sub s : string) : bool :=
  String.prefix sub s ||
  match s with
  | EmptyString => false
  | String _ s' => str_in sub s'
  end.

(** The literals [".,!?;:)]}\"'"] and ["([{\"'"]; character 34 is the
    double quote. *)
Definition closing : string := ".,!?;:)]}" +:+ String "034"%char "'".
Definition opening : string := "([{" +:+ String "034"%char "'".

Definition nonempty {A} (l : list A) : bool :=
  match l with [] => false | _ => true end.

(** The body of [for w in words]; [parts.append(x)] is [parts ++ [x]]. *)
Definition join_step (parts : list string) (w : LabelledWord) : list string :=
  let text := lw_text w in
  if text =? "" then parts
  else if nonempty parts && str_in text closing then parts ++ [text]
  else if str_in text opening && nonempty parts then parts ++ [" " +:+ text]
  else if nonempty parts then parts ++ [" " +:+ text]
  else parts ++ [text].

Definition two_spaces : string := "  ".

(** [result.replace("  ", " ")]: the occurrences are taken from the left and
    do not overlap. *)
Fixpoint replace_two_spaces (s : string) : string :=
  match s with
  | EmptyString => EmptyString
  | String c rest =>
      match rest with
      | String c' rest' =>
          if ((c =? " ") && (c' =? " "))%char
          then String " " (replace_two_spaces rest')
          else String c (replace_two_spaces rest)
      | EmptyString => String c EmptyString
      end
  end.

(** [while "  " in result: result = result.replace("  ", " ")], with the
    number of iterations bounded by [fuel]. *)
Fixpoint collapse_loop (fuel : nat) (result : string) : string :=
  match fuel with
  | O => result
  | S fuel' =>
      if str_in two_spaces result
      then collapse_loop fuel' (replace_two_spaces result)
      else result
  end.

(** Every iteration shortens the string, so its length is fuel enough (see
    [collapse_spaces_done] and [collapse_loop_more_fuel]). *)
Definition collapse_spaces (result : string) : string :=
  collapse_loop (String.length result) result.

(** [str.isspace] on the characters below 256: tab to carriage return, the
    four separators 28 to 31, the space, NEL (133) and the no-break space
    (160). *)
Definition py_isspace (c : ascii) : bool :=
  let n := nat_of_ascii c in
  ((9 <=? n) && (n <=? 13))%nat || ((28 <=? n) && (n <=? 32))%nat
  || (n =? 133)%nat || (n =? 160)%nat.

Fixpoint lstrip (s : string) : string :=
  match s with
  | EmptyString => EmptyString
  | String c s' => if py_isspace c then lstrip s' else s
  end.

Fixpoint rstrip (s : string) : string :=
  match s with
  | EmptyString => EmptyString
  | String c s' =>
      match rstrip s' with
      | EmptyString => if py_isspace c then EmptyString else String c EmptyString
      | r => String c r
      end
  end.

(** [s.strip()] *)
Definition strip (s : string) : string := rstrip (lstrip s).

Definition _join_words_smart (ws : list LabelledWord) : string :=
  match ws with
  | [] => ""
  | _ =>
      let parts := fold_left join_step ws [] in
      let result := String.concat "" parts in
      strip (collapse_spaces result)
  end.

(** ** [words_to_turns] *)

(** [current_words[0]] and [current_words[-1]]; the list is never empty
    where the code reads them (see [turn_loop_current_nonempty]), so the
    default is never returned. *)
Definition no_word : LabelledWord :=
  {| lw_text := ""; lw_start := 0; lw_end := 0; lw_speaker := "" |}.
Definition first_word (ws : list LabelledWord) : LabelledWord := hd no_word ws.
Definition last_word (ws : list LabelledWord) : LabelledWord := List.last ws no_word.

(** [SpeakerTurn(speaker=current_speaker, start=current_words[0].start,
    end=current_words[-1].end, text=turn_text, words=list(current_words))] *)
Definition make_turn (current_speaker : string) (current_words : list LabelledWord)
    : SpeakerTurn :=
  {| t_speaker := current_speaker;
     t_start := lw_start (first_word current_words);
     t_end := lw_end (last_word current_words);
     t_text := _join_words_smart current_words;
     t_words := current_words |}.

(** [a > b] on floats, as a boolean. *)
Definition Qgtb (a b : Q) : bool := if Qlt_le_dec b a then true else false.

(** The state of the loop: [turns], [current_words], [current_speaker]. *)
Record grouping := mkGrouping {
  g_turns : list SpeakerTurn;
  current_words : list LabelledWord;
  current_speaker : string
}.

(** The body of [for word in words[1:]], [gap] and [turn_duration] as
    exact numbers ([Merge64.turn_step] rounds them). *)
Definition turn_step (gap_threshold max_turn_duration : Q)
    (g : grouping) (word : LabelledWord) : grouping :=
  let gap := lw_start word - lw_end (last_word (current_words g)) in
  let speaker_change := negb (lw_speaker word =? current_speaker g) in
  let turn_duration := lw_end word - lw_start (first_word (current_words g)) in
  if speaker_change || Qgtb gap gap_threshold
     || Qgtb turn_duration max_turn_duration
  then
    {| g_turns := g_turns g ++ [make_turn (current_speaker g) (current_words g)];
       current_words := [word];
       current_speaker := lw_speaker word |}
  else
    {| g_turns := g_turns g;
       current_words := current_words g ++ [word];
       current_speaker := current_speaker g |}.

Definition words_to_turns (ws : list LabelledWord)
    (gap_threshold max_turn_duration : Q) : list SpeakerTurn :=
  match ws with
  | [] => []
  | w0 :: rest =>
      let g := fold_left (turn_step gap_threshold max_turn_duration) rest
                 {| g_turns := []; current_words := [w0];
                    current_speaker := lw_speaker w0 |} in
      if nonempty (current_words g)
      then g_turns g ++ [make_turn (current_speaker g) (current_words g)]
      else g_turns g
  end.

(** [merge_transcript_with_diarisation], on the words of the transcript. *)
Definition merge_transcript_with_diarisation (transcript_words : list Word)
    (segs : list DiarSegment)
    (gap_threshold speaker_tolerance max_turn_duration : Q) : MergedTranscript :=
  let labelled_words :=
    assign_speakers_to_words transcript_words segs speaker_tolerance in
  let turns := words_to_turns labelled_words gap_threshold max_turn_duration in
  {| turns := turns; words := labelled_words; segments := segs |}.

(* --------------------------------------------------------------------- *)
(** ** The punctuation-aware join                                          *)
(* --------------------------------------------------------------------- *)

Section JoinFacts.

(** Induction on strings two characters at a time, the way
    [replace_two_spaces] recurses. *)
Lemma string_ind2 (P : string -> Prop) :
  P EmptyString ->
  (forall c, P (String c EmptyString)) ->
  (forall c c' s, P s -> P (String c' s) -> P (String c (String c' s))) ->
  forall s, P s.
Proof.
  intros H0 H1 H2.
  assert (Hboth : forall s, P s /\ forall c, P (String c s)).
  { induction s as [| c s [IHs IHcs]].
    - split; [exact H0 | exact H1].
    - split; [apply IHcs |]. intros c0. apply H2; [exact IHs | apply IHcs]. }
  intros s. apply Hboth.
Qed.

(** [s] starts with two spaces. *)
Definition starts_two_spaces (s : string) : bool :=
  match s with
  | String c (String c' _) => ((c =? " ") && (c' =? " "))%char
  | _ => false
  end.

Lemma prefix_two_spaces (s : string) :
  String.prefix two_spaces s = starts_two_spaces s.
Proof.
  destruct s as [| c [| c' s]]; unfold two_spaces;
    cbn [String.prefix starts_two_spaces].
  - reflexivity.
  - destruct (ascii_dec " " c); reflexivity.
  - destruct (ascii_dec " " c) as [<- | Hc].
    + destruct (ascii_dec " " c') as [<- | Hc']; [destruct s; reflexivity |].
      symmetry. apply andb_false_intro2. apply Ascii.eqb_neq. congruence.
    + symmetry. apply andb_false_intro1. apply Ascii.eqb_neq. congruence.
Qed.

Lemma str_in_two_spaces_cons (c : ascii) (s : string) :
  str_in two_spaces (String c s)
  = starts_two_spaces (String c s) || str_in two_spaces s.
Proof.
  change (str_in two_spaces (String c s))
    with (String.prefix two_spaces (String c s) || str_in two_spaces s).
  rewrite prefix_two_spaces. reflexivity.
Qed.

Lemma str_in_two_spaces_nil : str_in two_spaces EmptyString = false.
Proof. reflexivity. Qed.

Lemma replace_two_spaces_length_le (s : string) :
  (String.length (replace_two_spaces s) <= String.length s)%nat.
Proof.
  induction s as [| c | c c' s IHs IHcs] using string_ind2.
  - simpl. lia.
  - simpl. lia.
  - change (replace_two_spaces (String c (String c' s)))
      with (if ((c =? " ") && (c' =? " "))%char
            then String " " (replace_two_spaces s)
            else String c (replace_two_spaces (String c' s))).
    destruct ((c =? " ") && (c' =? " "))%char; simpl in *; lia.
Qed.

(** An iteration of the loop shortens the string. *)
Lemma replace_two_spaces_shorter (s : string) :
  str_in two_spaces s = true ->
  (String.length (replace_two_spaces s) < String.length s)%nat.
Proof.
  induction s as [| c | c c' s IHs IHcs] using string_ind2.
  - discriminate.
  - rewrite str_in_two_spaces_cons. simpl. discriminate.
  - rewrite str_in_two_spaces_cons.
    change (replace_two_spaces (String c (String c' s)))
      with (if ((c =? " ") && (c' =? " "))%char
            then String " " (replace_two_spaces s)
            else String c (replace_two_spaces (String c' s))).
    unfold starts_two_spaces.
    destruct ((c =? " ") && (c' =? " "))%char; intros Hin.
    + pose proof (replace_two_spaces_length_le s). simpl. lia.
    + simpl in Hin. specialize (IHcs Hin). simpl in *. lia.
Qed.

(** With fuel for the whole length the loop ends because its condition
    fails, not because the fuel is spent. *)
Lemma collapse_loop_done (fuel : nat) (s : string) :
  (String.length s <= fuel)%nat ->
  str_in two_spaces (collapse_loop fuel s) = false.
Proof.
  revert s. induction fuel as [| fuel IH]; intros s Hlen.
  - destruct s; [reflexivity | simpl in Hlen; lia].
  - simpl. destruct (str_in two_spaces s) eqn:Hin; [| exact Hin].
    apply IH. pose proof (replace_two_spaces_shorter s Hin). lia.
Qed.

Lemma collapse_spaces_done (s : string) :
  str_in two_spaces (collapse_spaces s) = false.
Proof. apply collapse_loop_done. unfold collapse_spaces. lia. Qed.

(** More fuel than the length changes nothing. *)
Lemma collapse_loop_more_fuel (fuel : nat) (s : string) :
  (String.length s <= fuel)%nat ->
  collapse_loop fuel s = collapse_spaces s.
Proof.
  unfold collapse_spaces.
  assert (H : forall f1 f2 t, (String.length t <= f1)%nat ->
              (String.length t <= f2)%nat ->
              collapse_loop f1 t = collapse_loop f2 t).
  { induction f1 as [| f1 IH]; intros f2 t H1 H2.
    - destruct t; [| simpl in H1; lia]. destruct f2; reflexivity.
    - destruct f2 as [| f2].
      + destruct t; [reflexivity | simpl in H2; lia].
      + simpl. destruct (str_in two_spaces t) eqn:Hin; [| reflexivity].
        pose proof (replace_two_spaces_shorter t Hin).
        apply IH; lia. }
  intros Hlen. apply H; [exact Hlen | lia].
Qed.

Lemma collapse_spaces_id (s : string) :
  str_in two_spaces s = false -> collapse_spaces s = s.
Proof.
  unfold collapse_spaces. intros Hin.
  destruct (String.length s); simpl; [reflexivity |].
  rewrite Hin. reflexivity.
Qed.

(** Trimming does not bring two spaces together. *)
Lemma lstrip_no_two_spaces (s : string) :
  str_in two_spaces s = false -> str_in two_spaces (lstrip s) = false.
Proof.
  induction s as [| c s IH]; [reflexivity |].
  intros Hin. simpl. destruct (py_isspace c); [| exact Hin].
  apply IH. rewrite str_in_two_spaces_cons in Hin.
  apply orb_false_elim in Hin. apply Hin.
Qed.

Lemma rstrip_head (s : string) (c : ascii) (r : string) :
  rstrip s = String c r -> exists t, s = String c t.
Proof.
  destruct s as [| c0 s]; simpl; [discriminate |].
  destruct (rstrip s).
  - destruct (py_isspace c0); [discriminate |]. intros [= <- <-]. eauto.
  - intros [= <- <-]. eauto.
Qed.

Lemma rstrip_no_two_spaces (s : string) :
  str_in two_spaces s = false -> str_in two_spaces (rstrip s) = false.
Proof.
  induction s as [| c s IH]; [reflexivity |].
  intros Hin. rewrite str_in_two_spaces_cons in Hin.
  apply orb_false_elim in Hin. destruct Hin as [Hstart Hrest].
  specialize (IH Hrest). simpl.
  destruct (rstrip s) as [| c2 r2] eqn:Hr.
  - destruct (py_isspace c); [reflexivity |].
    rewrite str_in_two_spaces_cons. reflexivity.
  - rewrite str_in_two_spaces_cons, IH, orb_false_r.
    destruct (rstrip_head s c2 r2 Hr) as [t ->]. exact Hstart.
Qed.

Lemma strip_no_two_spaces (s : string) :
  str_in two_spaces s = false -> str_in two_spaces (strip s) = false.
Proof.
  intros Hin. unfold strip.
  apply rstrip_no_two_spaces, lstrip_no_two_spaces, Hin.
Qed.

Lemma join_single (w : LabelledWord) :
  _join_words_smart [w] = strip (collapse_spaces (lw_text w)).
Proof.
  unfold _join_words_smart, join_step. simpl.
  destruct (String.eqb_spec (lw_text w) "") as [-> | Hne]; [reflexivity |].
  rewrite andb_false_r. simpl.
  destruct (lw_text w); reflexivity.
Qed.

(** *** What the specification says, in its own terms *)

(** The text with every run of spaces made one space: a space that is
    followed by a space is left out. *)
Fixpoint squeeze (s : string) : string :=
  match s with
  | EmptyString => EmptyString
  | String c rest =>
      match rest with
      | String c' _ =>
          if ((c =? " ") && (c' =? " "))%char then squeeze rest
          else String c (squeeze rest)
      | EmptyString => String c EmptyString
      end
  end.

(** No two neighbouring characters of [s] are both spaces. *)
Definition no_double_space (s : string) : Prop :=
  forall i, ~ (String.get i s = Some " "%char /\
               String.get (S i) s = Some " "%char).

(** Every character of [s] is white space. *)
Fixpoint all_space (s : string) : Prop :=
  match s with
  | EmptyString => True
  | String c s' => py_isspace c = true /\ all_space s'
  end.

(** [s] neither starts nor ends with white space. *)
Definition starts_space (s : string) : bool :=
  match s with
  | EmptyString => false
  | String c _ => py_isspace c
  end.

Fixpoint ends_space (s : string) : bool :=
  match s with
  | EmptyString => false
  | String c EmptyString => py_isspace c
  | String _ s' => ends_space s'
  end.

(** [r] is [s] without its leading and trailing white space. *)
Definition trimmed_of (s r : string) : Prop :=
  exists leading trailing,
    s = leading +:+ r +:+ trailing /\
    all_space leading /\ all_space trailing /\
    starts_space r = false /\ ends_space r = false.

Lemma str_app_cons (c : ascii) (a b : string) :
  String c a +:+ b = String c (a +:+ b).
Proof. reflexivity. Qed.

Lemma str_app_nil_r (a : string) : a +:+ "" = a.
Proof. induction a as [| c a IH]; [reflexivity |]. rewrite str_app_cons, IH. reflexivity. Qed.

Lemma starts_two_spaces_spec (c c' : ascii) (s : string) :
  starts_two_spaces (String c (String c' s)) = ((c =? " ") && (c' =? " "))%char.
Proof. reflexivity. Qed.

Lemma squeeze_cons2 (c c' : ascii) (s : string) :
  squeeze (String c (String c' s))
  = if ((c =? " ") && (c' =? " "))%char then squeeze (String c' s)
    else String c (squeeze (String c' s)).
Proof. reflexivity. Qed.

Lemma replace_two_spaces_cons2 (c c' : ascii) (s : string) :
  replace_two_spaces (String c (String c' s))
  = if ((c =? " ") && (c' =? " "))%char
    then String " " (replace_two_spaces s)
    else String c (replace_two_spaces (String c' s)).
Proof. reflexivity. Qed.

(** Whether a string starts with the space character. *)
Definition head_is_space (s : string) : bool :=
  match s with
  | String c _ => (c =? " ")%char
  | EmptyString => false
  end.

Lemma squeeze_cons (c : ascii) (s : string) :
  squeeze (String c s)
  = if ((c =? " ")%char && head_is_space s) then squeeze s
    else String c (squeeze s).
Proof.
  destruct s as [| c' s]; [rewrite andb_false_r; reflexivity |].
  apply squeeze_cons2.
Qed.

Lemma replace_two_spaces_head (s : string) :
  head_is_space (replace_two_spaces s) = head_is_space s.
Proof.
  destruct s as [| c [| c' s]]; [reflexivity | reflexivity |].
  rewrite replace_two_spaces_cons2.
  destruct (Ascii.eqb_spec c " ") as [-> | Hc]; simpl.
  - destruct (c' =? " ")%char; reflexivity.
  - reflexivity.
Qed.

(** One round of the loop leaves the squeezed text as it is. *)
Lemma squeeze_replace (s : string) : squeeze (replace_two_spaces s) = squeeze s.
Proof.
  induction s as [| c | c c' s IHs IHcs] using string_ind2.
  - reflexivity.
  - reflexivity.
  - rewrite replace_two_spaces_cons2.
    destruct ((c =? " ") && (c' =? " "))%char eqn:Hcc.
    + apply andb_prop in Hcc. destruct Hcc as [Hc Hc'].
      apply Ascii.eqb_eq in Hc. apply Ascii.eqb_eq in Hc'. subst c c'.
      rewrite (squeeze_cons " " (String " " s)).
      change (head_is_space (String " " s)) with true.
      change ((" " =? " ")%char && true) with true. cbv iota.
      rewrite !squeeze_cons, replace_two_spaces_head, IHs. reflexivity.
    + rewrite (squeeze_cons c (replace_two_spaces (String c' s))),
        replace_two_spaces_head, IHcs.
      rewrite (squeeze_cons c (String c' s)). reflexivity.
Qed.

Lemma squeeze_collapse_loop (fuel : nat) (s : string) :
  squeeze (collapse_loop fuel s) = squeeze s.
Proof.
  revert s. induction fuel as [| fuel IH]; intros s; [reflexivity |].
  simpl. destruct (str_in two_spaces s); [| reflexivity].
  rewrite IH. apply squeeze_replace.
Qed.

(** A text without two spaces in a row is its own squeezed text. *)
Lemma squeeze_id (s : string) : str_in two_spaces s = false -> squeeze s = s.
Proof.
  induction s as [| c | c c' s IHs IHcs] using string_ind2.
  - reflexivity.
  - reflexivity.
  - rewrite str_in_two_spaces_cons, starts_two_spaces_spec, squeeze_cons2.
    intros H. apply orb_false_elim in H. destruct H as [-> Hrest].
    rewrite (IHcs Hrest). reflexivity.
Qed.

(** The loop computes the squeezed text. *)
Lemma collapse_spaces_squeeze (s : string) : collapse_spaces s = squeeze s.
Proof.
  rewrite <- (squeeze_id (collapse_spaces s)) by apply collapse_spaces_done.
  unfold collapse_spaces. apply squeeze_collapse_loop.
Qed.

Lemma str_in_two_spaces_spec (s : string) :
  str_in two_spaces s = false <-> no_double_space s.
Proof.
  unfold no_double_space.
  induction s as [| c | c c' s IHs IHcs] using string_ind2.
  - split; [intros _ i [H _]; discriminate | reflexivity].
  - split; [| intros _; rewrite str_in_two_spaces_cons; reflexivity].
    intros _ [| i] [_ H]; simpl in H; [discriminate |].
    destruct i; discriminate.
  - rewrite str_in_two_spaces_cons, starts_two_spaces_spec. split.
    + intros H. apply orb_false_elim in H. destruct H as [Hcc Hrest].
      intros [| i] [H1 H2].
      * simpl in H1, H2. injection H1 as ->. injection H2 as ->.
        discriminate Hcc.
      * apply (proj1 IHcs Hrest i). split; assumption.
    + intros H. apply orb_false_intro.
      * destruct (Ascii.eqb_spec c " ") as [-> | Hc]; [| reflexivity].
        destruct (Ascii.eqb_spec c' " ") as [-> | Hc']; [| reflexivity].
        exfalso. apply (H 0%nat). split; reflexivity.
      * apply IHcs. intros i Hi. apply (H (S i)). exact Hi.
Qed.

Lemma lstrip_spec (s : string) :
  exists leading, s = leading +:+ lstrip s /\ all_space leading /\
                  starts_space (lstrip s) = false.
Proof.
  induction s as [| c s (l & Hs & Hl & Hstart)].
  - exists "". repeat split.
  - simpl. destruct (py_isspace c) eqn:Hc.
    + exists (String c l). rewrite str_app_cons, <- Hs.
      repeat split; assumption.
    + exists "". repeat split. exact Hc.
Qed.

Lemma rstrip_spec (s : string) :
  exists trailing, s = rstrip s +:+ trailing /\ all_space trailing /\
                   ends_space (rstrip s) = false /\
                   (starts_space s = false -> starts_space (rstrip s) = false).
Proof.
  induction s as [| c s (t & Hs & Ht & Hend & _)].
  - exists "". repeat split.
  - cbn [rstrip]. destruct (rstrip s) as [| c2 r2] eqn:Hr.
    + change ("" +:+ t) with t in Hs. subst t.
      destruct (py_isspace c) eqn:Hc.
      * exists (String c s). split; [reflexivity |].
        split; [split; assumption |]. split; [reflexivity |].
        intros _. reflexivity.
      * exists s. split; [reflexivity |]. split; [exact Ht |].
        split; [exact Hc |]. intros _. exact Hc.
    + exists t. rewrite str_app_cons, <- Hs.
      repeat split; try assumption. intros H. exact H.
Qed.

(** [strip] removes the white space at both ends, and only that. *)
Lemma strip_spec (s : string) : trimmed_of s (strip s).
Proof.
  unfold strip, trimmed_of.
  destruct (lstrip_spec s) as (l & Hs & Hl & Hstart).
  destruct (rstrip_spec (lstrip s)) as (t & Hr & Ht & Hend & Hkeep).
  exists l, t. rewrite <- Hr. repeat split; try assumption.
  apply Hkeep, Hstart.
Qed.

End JoinFacts.

(** C7 (as amended). For a turn of a single word the join returns the
    word's text with every run of spaces made one space and then trimmed
    of leading and trailing white space; this is the trimmed text whenever
    the text has no two consecutive spaces.  For every turn, the joined
    string never contains two consecutive spaces. *)
Theorem join_words_smart_single_and_no_double_space :
  (forall w : LabelledWord,
      trimmed_of (squeeze (lw_text w)) (_join_words_smart [w])) /\
  (forall w : LabelledWord,
      no_double_space (lw_text w) ->
      trimmed_of (lw_text w) (_join_words_smart [w])) /\
  (forall ws : list LabelledWord, no_double_space (_join_words_smart ws)).
Proof.
  split; [| split].
  - intros w. rewrite join_single, collapse_spaces_squeeze. apply strip_spec.
  - intros w Hw. apply str_in_two_spaces_spec in Hw.
    rewrite join_single, collapse_spaces_id by exact Hw. apply strip_spec.
  - intros ws. apply str_in_two_spaces_spec. unfold _join_words_smart.
    destruct ws as [| w ws]; [reflexivity |].
    apply strip_no_two_spaces, collapse_spaces_done.
Qed.

(** C7 (as stated) fails for a single word whose text has two consecutive
    spaces inside: the join makes them one, trimming would not. *)
Lemma join_single_word_inner_spaces :
  ~ ((forall w : LabelledWord,
         trimmed_of (lw_text w) (_join_words_smart [w])) /\
     (forall ws : list LabelledWord, no_double_space (_join_words_smart ws))).
Proof.
  intros [Hsingle _].
  specialize (Hsingle (mkLabelled "a  b" 0 1 "SPEAKER_00")).
  destruct Hsingle as (l & t & Heq & Hl & _).
  assert (Hjoin : _join_words_smart [mkLabelled "a  b" 0 1 "SPEAKER_00"] = "a b")
    by (vm_compute; reflexivity).
  rewrite Hjoin in Heq. cbn [lw_text] in Heq.
  destruct l as [| c l].
  - change ("" +:+ "a b" +:+ t) with (String "a" (String " " (String "b" t)))
      in Heq.
    discriminate Heq.
  - rewrite str_app_cons in Heq. injection Heq as <- _.
    destruct Hl as [Hc _]. vm_compute in Hc. discriminate Hc.
Qed.

Example join_punctuation :
  _join_words_smart
    (map (fun t => mkLabelled t 0 1 "SPEAKER_00")
       ["Hello"; ","; "world"; "("; "ok"; ")"; "!"])
  = "Hello, world ( ok)!".
Proof. vm_compute. reflexivity. Qed.

(* --------------------------------------------------------------------- *)
(** ** Turn grouping                                                       *)
(* --------------------------------------------------------------------- *)

Section TurnFacts.

Variables gap_threshold max_turn_duration : Q.

(** The words the loop has consumed so far, in order. *)
Definition consumed (g : grouping) : list LabelledWord :=
  concat (map t_words (g_turns g)) ++ current_words g.

(** Every finished turn has words, and so has the turn under construction. *)
Definition grouping_ok (g : grouping) : Prop :=
  Forall (fun t => t_words t <> []) (g_turns g) /\ current_words g <> [].

Lemma turn_step_consumed (g : grouping) (word : LabelledWord) :
  consumed (turn_step gap_threshold max_turn_duration g word)
  = consumed g ++ [word].
Proof.
  unfold turn_step, consumed.
  destruct (_ || _ || _); simpl.
  - rewrite map_app, concat_app. simpl. rewrite app_nil_r. reflexivity.
  - rewrite app_assoc. reflexivity.
Qed.

Lemma turn_step_ok (g : grouping) (word : LabelledWord) :
  grouping_ok g ->
  grouping_ok (turn_step gap_threshold max_turn_duration g word).
Proof.
  unfold turn_step, grouping_ok. intros [Hturns Hcur].
  destruct (_ || _ || _); simpl; split.
  - apply Forall_app. split; [exact Hturns |].
    constructor; [exact Hcur | constructor].
  - discriminate.
  - exact Hturns.
  - destruct (current_words g); discriminate.
Qed.

Lemma turn_loop_consumed (rest : list LabelledWord) (g : grouping) :
  consumed (fold_left (turn_step gap_threshold max_turn_duration) rest g)
  = consumed g ++ rest.
Proof.
  revert g. induction rest as [| w rest IH]; intros g; simpl.
  - rewrite app_nil_r. reflexivity.
  - rewrite IH, turn_step_consumed, <- app_assoc. reflexivity.
Qed.

(** [current_words[0]] and [current_words[-1]] are always defined. *)
Lemma turn_loop_current_nonempty (rest : list LabelledWord) (g : grouping) :
  grouping_ok g ->
  grouping_ok (fold_left (turn_step gap_threshold max_turn_duration) rest g).
Proof.
  revert g. induction rest as [| w rest IH]; intros g Hg; simpl.
  - exact Hg.
  - apply IH, turn_step_ok, Hg.
Qed.

End TurnFacts.

(** C9. [words_to_turns] partitions its input: every returned turn has a
    non-empty word list, and the word lists of the turns, concatenated in
    order, are exactly the input word list. *)
Theorem words_to_turns_partition (ws : list LabelledWord)
    (gap_threshold max_turn_duration : Q) :
  Forall (fun t => t_words t <> [])
    (words_to_turns ws gap_threshold max_turn_duration) /\
  concat (map t_words (words_to_turns ws gap_threshold max_turn_duration)) = ws.
Proof.
  destruct ws as [| w0 rest]; [split; [constructor | reflexivity] |].
  unfold words_to_turns.
  set (g0 := {| g_turns := []; current_words := [w0];
                current_speaker := lw_speaker w0 |}).
  assert (Hg0 : grouping_ok g0) by (split; [constructor | discriminate]).
  pose proof (turn_loop_current_nonempty gap_threshold max_turn_duration
                rest g0 Hg0) as [Hturns Hcur].
  pose proof (turn_loop_consumed gap_threshold max_turn_duration rest g0)
    as Hflat.
  set (g := fold_left (turn_step gap_threshold max_turn_duration) rest g0) in *.
  destruct (current_words g) as [| c cs] eqn:Hc; [congruence |].
  simpl nonempty. cbv iota. split.
  - apply Forall_app. split; [exact Hturns |].
    constructor; [simpl; discriminate | constructor].
  - rewrite map_app, concat_app. simpl. rewrite app_nil_r.
    unfold consumed in Hflat. rewrite Hc in Hflat. exact Hflat.
Qed.

(* --------------------------------------------------------------------- *)
(** ** Sorting and filtering the words                                     *)
(* --------------------------------------------------------------------- *)

Section SortFacts.

(** [a] starts no later than [b]. *)
Definition starts_before (a b : Word) : Prop := w_start a <= w_start b.

Lemma insert_by_start_perm (w : Word) (l : list Word) :
  Permutation (insert_by_start w l) (w :: l).
Proof.
  induction l as [| x l IH]; simpl; [reflexivity |].
  destruct (Qlt_le_dec (w_start x) (w_start w)); [| reflexivity].
  rewrite IH. apply perm_swap.
Qed.

Lemma sorted_by_start_perm (ws : list Word) :
  Permutation (sorted_by_start ws) ws.
Proof.
  induction ws as [| w ws IH]; simpl; [reflexivity |].
  rewrite insert_by_start_perm, IH. reflexivity.
Qed.

Lemma insert_by_start_sorted (w : Word) (l : list Word) :
  StronglySorted starts_before l ->
  StronglySorted starts_before (insert_by_start w l).
Proof.
  induction l as [| x l IH]; intros Hs; simpl.
  - repeat constructor.
  - apply StronglySorted_inv in Hs. destruct Hs as [Hl Hx].
    destruct (Qlt_le_dec (w_start x) (w_start w)) as [Hlt | Hle].
    + constructor; [apply IH, Hl |].
      rewrite (insert_by_start_perm w l).
      constructor; [apply Qlt_le_weak, Hlt | exact Hx].
    + constructor; [constructor; assumption |].
      constructor; [exact Hle |].
      eapply Forall_impl; [exact Hx |].
      intros y Hy. unfold starts_before in *. lra.
Qed.

Lemma sorted_by_start_sorted (ws : list Word) :
  StronglySorted starts_before (sorted_by_start ws).
Proof.
  induction ws as [| w ws IH]; simpl; [constructor |].
  apply insert_by_start_sorted, IH.
Qed.

Lemma filter_strongly_sorted {A} (R : A -> A -> Prop) (f : A -> bool) (l : list A) :
  StronglySorted R l -> StronglySorted R (List.filter f l).
Proof.
  induction 1 as [| x l Hl IH Hx]; simpl; [constructor |].
  destruct (f x); [| exact IH].
  constructor; [exact IH |].
  apply List.Forall_forall. intros y Hy. apply filter_In in Hy.
  rewrite List.Forall_forall in Hx. apply Hx, Hy.
Qed.

Lemma filter_perm {A} (f : A -> bool) (l l' : list A) :
  Permutation l l' -> Permutation (List.filter f l) (List.filter f l').
Proof.
  induction 1 as [| x l l' _ IH | x y l | l l' l'' _ IH1 _ IH2]; simpl.
  - reflexivity.
  - destruct (f x); [constructor |]; exact IH.
  - destruct (f x), (f y); try reflexivity. apply perm_swap.
  - etransitivity; eassumption.
Qed.

End SortFacts.

(* --------------------------------------------------------------------- *)
(** ** Interpolation touches UNKNOWN words only                            *)
(* --------------------------------------------------------------------- *)

Section KeptFacts.

(** The word without its label. *)
Definition word_of (w : LabelledWord) : Word :=
  {| w_text := lw_text w; w_start := lw_start w; w_end := lw_end w |}.

(** [r] stands where [w] stood: same text and times, and the same speaker
    unless [w] was UNKNOWN. *)
Definition kept (w r : LabelledWord) : Prop :=
  word_of r = word_of w /\ (is_unknown w = false -> r = w).

Definition kept_list (ws result : list LabelledWord) : Prop :=
  length result = length ws /\
  forall i w, ws !! i = Some w -> exists r, result !! i = Some r /\ kept w r.

Lemma kept_list_refl (ws : list LabelledWord) : kept_list ws ws.
Proof.
  split; [reflexivity |]. intros i w Hw. exists w. repeat split; auto.
Qed.

(** Replacing an UNKNOWN word by the same word under another label. *)
Lemma kept_list_relabel (ws result : list LabelledWord) (i : nat)
    (word : LabelledWord) (s : string) :
  kept_list ws result ->
  result !! i = Some word ->
  is_unknown word = true ->
  kept_list ws (<[i := with_speaker word s]> result).
Proof.
  intros [Hlen Hkept] Hi Hunk. split; [rewrite length_insert; exact Hlen |].
  intros j w Hw. destruct (Hkept j w Hw) as [r [Hr [Hof Hknown]]].
  destruct (decide (i = j)) as [<- | Hne].
  - exists (with_speaker word s).
    split; [apply list_lookup_insert_eq; eapply lookup_lt_Some; eassumption |].
    assert (r = word) as -> by congruence.
    split; [exact Hof |].
    intros Hw_known. specialize (Hknown Hw_known). congruence.
  - exists r. rewrite list_lookup_insert_ne by exact Hne. repeat split; auto.
Qed.

Lemma forward_step_kept (ws : list LabelledWord)
    (st : list LabelledWord * option string) (i : nat) :
  kept_list ws (fst st) -> kept_list ws (fst (forward_step st i)).
Proof.
  destruct st as [result last_known]. unfold forward_step. simpl.
  intros Hk.
  destruct (result !! i) as [word |] eqn:Hi; [| exact Hk].
  destruct (is_unknown word) eqn:Hunk; simpl; [| exact Hk].
  destruct last_known as [lk |]; [| exact Hk].
  destruct (first_known _ _) as [nk |].
  - destruct (nk =? lk); [| exact Hk].
    simpl. apply kept_list_relabel; assumption.
  - simpl. apply kept_list_relabel; assumption.
Qed.

Lemma backward_step_kept (ws : list LabelledWord)
    (st : list LabelledWord * option string) (i : nat) :
  kept_list ws (fst st) -> kept_list ws (fst (backward_step st i)).
Proof.
  destruct st as [result next_known]. unfold backward_step. simpl.
  intros Hk.
  destruct (result !! i) as [word |] eqn:Hi; [| exact Hk].
  destruct (is_unknown word) eqn:Hunk; simpl; [| exact Hk].
  destruct next_known as [nk |]; [| exact Hk].
  simpl. apply kept_list_relabel; assumption.
Qed.

Lemma fold_kept (step : list LabelledWord * option string -> nat ->
                        list LabelledWord * option string)
    (ws : list LabelledWord) :
  (forall st i, kept_list ws (fst st) -> kept_list ws (fst (step st i))) ->
  forall idxs st,
    kept_list ws (fst st) -> kept_list ws (fst (fold_left step idxs st)).
Proof.
  intros Hstep idxs. induction idxs as [| i idxs IH]; intros st Hst; simpl.
  - exact Hst.
  - apply IH, Hstep, Hst.
Qed.

Lemma kept_list_trans (ws mid result : list LabelledWord) :
  kept_list ws mid -> kept_list mid result -> kept_list ws result.
Proof.
  intros [Hlen1 H1] [Hlen2 H2]. split; [congruence |].
  intros i w Hw. destruct (H1 i w Hw) as [m [Hm [Hof1 Hk1]]].
  destruct (H2 i m Hm) as [r [Hr [Hof2 Hk2]]].
  exists r. split; [exact Hr |]. split; [congruence |].
  intros Hknown. specialize (Hk1 Hknown). subst m. auto.
Qed.

Lemma forward_pass_kept (ws : list LabelledWord) :
  kept_list ws (forward_pass ws).
Proof.
  unfold forward_pass. apply fold_kept.
  - apply forward_step_kept.
  - apply kept_list_refl.
Qed.

Lemma backward_pass_kept (ws : list LabelledWord) :
  kept_list ws (backward_pass ws).
Proof.
  unfold backward_pass. apply fold_kept.
  - apply backward_step_kept.
  - apply kept_list_refl.
Qed.

Lemma interpolate_kept (ws : list LabelledWord) :
  kept_list ws (_interpolate_unknown_speakers ws).
Proof.
  unfold _interpolate_unknown_speakers.
  destruct ws as [| w ws]; [apply kept_list_refl |].
  eapply kept_list_trans; [apply forward_pass_kept | apply backward_pass_kept].
Qed.

Lemma kept_list_word_of (ws result : list LabelledWord) :
  kept_list ws result -> map word_of result = map word_of ws.
Proof.
  intros [Hlen Hk]. apply list_eq. intros i.
  change (map word_of result) with (word_of <$> result).
  change (map word_of ws) with (word_of <$> ws).
  rewrite !list_lookup_fmap.
  destruct (ws !! i) as [w |] eqn:Hw.
  - destruct (Hk i w Hw) as [r [-> [Hof _]]]. simpl. congruence.
  - apply lookup_ge_None in Hw.
    rewrite (proj2 (lookup_ge_None result i)) by lia. reflexivity.
Qed.

Lemma word_of_label_word (segs : list DiarSegment) (tol : Q) (l : list Word) :
  map word_of (map (label_word segs tol) l) = l.
Proof.
  induction l as [| [t a b] l IH]; simpl; [reflexivity |].
  rewrite IH. reflexivity.
Qed.

End KeptFacts.

(** C10. [assign_speakers_to_words] returns exactly the input words whose
    [end > start], ordered by non-decreasing [start], each with its text,
    start and end unchanged; and neither interpolation pass changes the
    speaker of a word whose speaker is not UNKNOWN. *)
Theorem assign_speakers_frame (ws : list Word) (segs : list DiarSegment)
    (tolerance : Q) :
  let out := map word_of (assign_speakers_to_words ws segs tolerance) in
  Permutation out (List.filter valid_word ws) /\
  StronglySorted starts_before out /\
  (forall (lws : list LabelledWord) (i : nat) (w : LabelledWord),
      lws !! i = Some w -> lw_speaker w <> UNKNOWN ->
      forward_pass lws !! i = Some w /\
      backward_pass lws !! i = Some w /\
      _interpolate_unknown_speakers lws !! i = Some w).
Proof.
  cbv zeta. unfold assign_speakers_to_words.
  rewrite (kept_list_word_of _ _ (interpolate_kept _)), word_of_label_word.
  split; [| split].
  - apply filter_perm, sorted_by_start_perm.
  - apply filter_strongly_sorted, sorted_by_start_sorted.
  - intros lws i w Hw Hknown.
    assert (Hk : is_unknown w = false).
    { unfold is_unknown. apply String.eqb_neq. exact Hknown. }
    assert (Hkeep : forall result, kept_list lws result -> result !! i = Some w).
    { intros result [_ H]. destruct (H i w Hw) as [r [Hr [_ Heq]]].
      rewrite Hr, (Heq Hk). reflexivity. }
    repeat split; apply Hkeep.
    + apply forward_pass_kept.
    + apply backward_pass_kept.
    + apply interpolate_kept.
Qed.

(** Scenario F of the specification: the middle word, covered by no
    segment, takes the speaker on both of its sides. *)
Example middle_word_interpolated :
  map lw_speaker
    (assign_speakers_to_words
       [mkWord "a" 0 0.5; mkWord "b" 0.6 1; mkWord "c" 1.1 1.5]
       [mkSeg 0 0.5 "SPEAKER_01"; mkSeg 1.1 1.5 "SPEAKER_01"] 0)
  = ["SPEAKER_01"; "SPEAKER_01"; "SPEAKER_01"].
Proof. vm_compute. reflexivity. Qed.

(* --------------------------------------------------------------------- *)
(** ** The forward pass, word by word                                      *)
(* --------------------------------------------------------------------- *)

Section ForwardFacts.

(** The speaker of the last word of [l] that is not UNKNOWN. *)
Definition last_known (l : list LabelledWord) : option string :=
  fold_left (fun acc w => if is_unknown w then acc else Some (lw_speaker w))
    l None.

(** The speaker of the first word that is not UNKNOWN among the [n]
    positions after position [i]. *)
Definition next_known_within (n : nat) (ws : list LabelledWord) (i : nat)
    : option string :=
  lw_speaker <$>
    List.find (fun w => negb (is_unknown w)) (take n (drop (S i) ws)).

(** What the forward loop leaves at index [i], in terms of the input list. *)
Definition forward_word (ws : list LabelledWord) (i : nat) (w : LabelledWord)
    : LabelledWord :=
  if is_unknown w then
    match last_known (take i ws) with
    | None => w
    | Some lk =>
        match first_known ws (range (i + 1) (Nat.min (i + 10) (length ws))) with
        | None => with_speaker w lk
        | Some nk => if nk =? lk then with_speaker w lk else w
        end
    end
  else w.

(** The state of the forward loop before index [k]. *)
Definition forward_inv (ws : list LabelledWord) (k : nat)
    (st : list LabelledWord * option string) : Prop :=
  snd st = last_known (take k ws) /\
  length (fst st) = length ws /\
  (forall j, (k <= j)%nat -> fst st !! j = ws !! j) /\
  (forall j w, (j < k)%nat -> ws !! j = Some w ->
               fst st !! j = Some (forward_word ws j w)).

Lemma last_known_snoc (l : list LabelledWord) (w : LabelledWord) :
  last_known (l ++ [w])
  = if is_unknown w then last_known l else Some (lw_speaker w).
Proof. unfold last_known. rewrite fold_left_app. reflexivity. Qed.

Lemma last_known_is_known (l : list LabelledWord) (lk : string) :
  last_known l = Some lk -> lk <> UNKNOWN.
Proof.
  induction l as [| w l IH] using rev_ind; [discriminate |].
  rewrite last_known_snoc. destruct (is_unknown w) eqn:Hw; [exact IH |].
  intros [= <-]. apply String.eqb_neq. exact Hw.
Qed.

Lemma first_known_ext (r1 r2 : list LabelledWord) (js : list nat) :
  (forall j, In j js -> r1 !! j = r2 !! j) ->
  first_known r1 js = first_known r2 js.
Proof.
  induction js as [| j js IH]; intros Hagree; simpl; [reflexivity |].
  rewrite (Hagree j) by (left; reflexivity).
  rewrite IH by (intros j' Hj'; apply Hagree; right; exact Hj').
  reflexivity.
Qed.

Lemma forward_inv_step (ws : list LabelledWord) (k : nat)
    (st : list LabelledWord * option string) :
  (k < length ws)%nat ->
  forward_inv ws k st -> forward_inv ws (S k) (forward_step st k).
Proof.
  intros Hk. destruct st as [result last]. unfold forward_inv. simpl.
  intros (Hlast & Hlen & Hafter & Hbefore).
  destruct (lookup_lt_is_Some_2 ws k Hk) as [w Hw].
  assert (Hrk : result !! k = Some w) by (rewrite Hafter by lia; exact Hw).
  assert (Htake : last_known (take (S k) ws)
                  = if is_unknown w then last else Some (lw_speaker w)).
  { rewrite (take_S_r ws k w Hw), last_known_snoc, Hlast. reflexivity. }
  assert (Hfirst :
    first_known result (range (k + 1) (Nat.min (k + 10) (length result)))
    = first_known ws (range (k + 1) (Nat.min (k + 10) (length ws)))).
  { rewrite Hlen. apply first_known_ext. intros j Hj.
    apply in_seq in Hj. apply Hafter. lia. }
  assert (Hold : forall j w', (j < S k)%nat -> j <> k -> ws !! j = Some w' ->
                 result !! j = Some (forward_word ws j w')).
  { intros j w' Hj Hne Hw'. apply Hbefore; [lia | exact Hw']. }
  (* the same four facts, whether or not index [k] is rewritten *)
  assert (Hsame : forward_word ws k w = w ->
            (if is_unknown w then last else Some (lw_speaker w))
              = last_known (take (S k) ws) /\
            length result = length ws /\
            (forall j, (S k <= j)%nat -> result !! j = ws !! j) /\
            (forall j w', (j < S k)%nat -> ws !! j = Some w' ->
                          result !! j = Some (forward_word ws j w'))).
  { intros Hfw. repeat split.
    - symmetry. exact Htake.
    - exact Hlen.
    - intros j Hj. apply Hafter. lia.
    - intros j w' Hj Hw'. destruct (decide (j = k)) as [-> | Hne].
      + assert (w' = w) as -> by congruence. rewrite Hfw. exact Hrk.
      + apply Hold; assumption. }
  assert (Hset : forall lk, is_unknown w = true ->
            forward_word ws k w = with_speaker w lk ->
            last = last_known (take (S k) ws) /\
            length (<[k := with_speaker w lk]> result) = length ws /\
            (forall j, (S k <= j)%nat ->
                       <[k := with_speaker w lk]> result !! j = ws !! j) /\
            (forall j w', (j < S k)%nat -> ws !! j = Some w' ->
                          <[k := with_speaker w lk]> result !! j
                          = Some (forward_word ws j w'))).
  { intros lk Hunk Hfw. repeat split.
    - rewrite Htake, Hunk. reflexivity.
    - rewrite length_insert. exact Hlen.
    - intros j Hj. rewrite list_lookup_insert_ne by lia. apply Hafter. lia.
    - intros j w' Hj Hw'. destruct (decide (j = k)) as [-> | Hne].
      + assert (w' = w) as -> by congruence. rewrite Hfw.
        apply list_lookup_insert_eq. lia.
      + rewrite list_lookup_insert_ne by congruence. apply Hold; assumption. }
  unfold forward_step. rewrite Hrk.
  destruct (is_unknown w) eqn:Hunk; simpl.
  - destruct last as [lk |].
    + rewrite Hfirst.
      destruct (first_known ws _) as [nk |] eqn:Hnk.
      * destruct (nk =? lk) eqn:Hmatch; simpl.
        -- apply Hset; [reflexivity |].
           unfold forward_word. rewrite Hunk, <- Hlast, Hnk, Hmatch. reflexivity.
        -- apply (Hsame) .
           unfold forward_word. rewrite Hunk, <- Hlast, Hnk, Hmatch. reflexivity.
      * simpl. apply Hset; [reflexivity |].
        unfold forward_word. rewrite Hunk, <- Hlast, Hnk. reflexivity.
    + simpl. apply Hsame.
      unfold forward_word. rewrite Hunk, <- Hlast. reflexivity.
  - apply Hsame. unfold forward_word. rewrite Hunk. reflexivity.
Qed.

Lemma forward_inv_loop (ws : list LabelledWord) (k : nat) :
  (k <= length ws)%nat ->
  forward_inv ws k (fold_left forward_step (range 0 k) (ws, None)).
Proof.
  unfold range. rewrite Nat.sub_0_r.
  induction k as [| k IH]; intros Hk.
  - simpl. repeat split; intros; lia.
  - rewrite seq_S, fold_left_app. simpl.
    apply forward_inv_step; [lia |]. apply IH. lia.
Qed.

(** The forward pass is [forward_word] at every index. *)
Lemma forward_pass_lookup (ws : list LabelledWord) (i : nat) (w : LabelledWord) :
  ws !! i = Some w -> forward_pass ws !! i = Some (forward_word ws i w).
Proof.
  intros Hw. unfold forward_pass.
  destruct (forward_inv_loop ws (length ws) (Nat.le_refl _))
    as (_ & _ & _ & Hbefore).
  apply Hbefore; [eapply lookup_lt_Some; exact Hw | exact Hw].
Qed.

Lemma first_known_seq (ws : list LabelledWord) (m a : nat) :
  (a + m <= length ws)%nat ->
  first_known ws (seq a m)
  = lw_speaker <$> List.find (fun w => negb (is_unknown w)) (take m (drop a ws)).
Proof.
  revert a. induction m as [| m IH]; intros a Ha; [reflexivity |].
  destruct (lookup_lt_is_Some_2 ws a) as [w Hw]; [lia |].
  simpl seq. simpl first_known. rewrite Hw, (drop_S ws w a Hw). simpl.
  destruct (is_unknown w); simpl; [| reflexivity].
  apply IH. lia.
Qed.

(** The indices [range(i + 1, min(i + 10, len(result)))] are the nine
    positions after [i] (fewer at the end of the list). *)
Lemma first_known_window (ws : list LabelledWord) (i : nat) :
  (i < length ws)%nat ->
  first_known ws (range (i + 1) (Nat.min (i + 10) (length ws)))
  = next_known_within 9 ws i.
Proof.
  intros Hi. unfold range, next_known_within.
  rewrite first_known_seq by lia.
  replace (i + 1)%nat with (S i) by lia.
  destruct (Nat.le_gt_cases (i + 10) (length ws)) as [Hfar | Hnear].
  - replace (Nat.min (i + 10) (length ws) - S i)%nat with 9%nat by lia.
    reflexivity.
  - replace (Nat.min (i + 10) (length ws) - S i)%nat
      with (length (drop (S i) ws)) by (rewrite length_drop; lia).
    rewrite firstn_all, take_ge by (rewrite length_drop; lia).
    reflexivity.
Qed.

End ForwardFacts.

(** C4 (as amended). In the forward pass, a word labelled UNKNOWN that
    has a preceding known speaker looks ahead over the next 9 positions
    (indices [i + 1] to [i + 9]) for the next known speaker, and adopts
    the last known speaker exactly when no known speaker is found in that
    window or the one found is the last known one; otherwise the word is
    left as it is. *)
Theorem forward_pass_adoption (ws : list LabelledWord) (i : nat)
    (w : LabelledWord) (lk : string) :
  ws !! i = Some w ->
  lw_speaker w = UNKNOWN ->
  last_known (take i ws) = Some lk ->
  exists w',
    forward_pass ws !! i = Some w' /\
    (lw_speaker w' = lk <->
       next_known_within 9 ws i = None \/ next_known_within 9 ws i = Some lk) /\
    (lw_speaker w' = lk -> w' = with_speaker w lk) /\
    (lw_speaker w' <> lk -> w' = w).
Proof.
  intros Hw Hunk Hlk.
  assert (Hi : (i < length ws)%nat) by (eapply lookup_lt_Some; exact Hw).
  assert (Hlk_known : lk <> UNKNOWN) by (eapply last_known_is_known; exact Hlk).
  exists (forward_word ws i w). split; [apply forward_pass_lookup, Hw |].
  unfold forward_word, is_unknown.
  rewrite Hunk, String.eqb_refl, Hlk, (first_known_window ws i Hi).
  destruct (next_known_within 9 ws i) as [nk |].
  - destruct (String.eqb_spec nk lk) as [-> | Hne]; simpl.
    + repeat split; auto. intros H; congruence.
    + rewrite Hunk. repeat split.
      * intros H; congruence.
      * intros [H | H]; congruence.
      * intros H; congruence.
  - simpl. repeat split; auto. intros H; congruence.
Qed.

Lemma forward_pass_adoption_witness :
  let ws := [mkLabelled "a" 0 1 "A"; mkLabelled "b" 1 2 UNKNOWN;
             mkLabelled "c" 2 3 "A"] in
  exists w',
    forward_pass ws !! 1%nat = Some w' /\
    (lw_speaker w' = "A" <->
       next_known_within 9 ws 1 = None \/ next_known_within 9 ws 1 = Some "A") /\
    (lw_speaker w' = "A" -> w' = with_speaker (mkLabelled "b" 1 2 UNKNOWN) "A") /\
    (lw_speaker w' <> "A" -> w' = mkLabelled "b" 1 2 UNKNOWN).
Proof.
  apply (forward_pass_adoption
           [mkLabelled "a" 0 1 "A"; mkLabelled "b" 1 2 UNKNOWN;
            mkLabelled "c" 2 3 "A"] 1 (mkLabelled "b" 1 2 UNKNOWN) "A");
    reflexivity.
Defined.

(** Ten UNKNOWN words between a word of speaker A and a word of speaker B. *)
Definition ten_unknown_between : list LabelledWord :=
  mkLabelled "a" 0 1 "A"
  :: repeat (mkLabelled "u" 1 2 UNKNOWN) 10
  ++ [mkLabelled "b" 2 3 "B"].

(** C4 (as stated) fails with a window of 10 positions: at index 1 of
    [ten_unknown_between] the next known speaker, B, is 10 positions ahead;
    the loop stops at index [i + 9], finds none, and the word adopts A. *)
Lemma forward_pass_window_is_not_ten :
  ~ (forall (ws : list LabelledWord) (i : nat) (w : LabelledWord) (lk : string),
        ws !! i = Some w ->
        lw_speaker w = UNKNOWN ->
        last_known (take i ws) = Some lk ->
        exists w',
          forward_pass ws !! i = Some w' /\
          (lw_speaker w' = lk <->
             next_known_within 10 ws i = None \/
             next_known_within 10 ws i = Some lk)).
Proof.
  intros H.
  destruct (H ten_unknown_between 1%nat (mkLabelled "u" 1 2 UNKNOWN) "A")
    as (w' & Hw' & Hiff); try reflexivity.
  vm_compute in Hw'. injection Hw' as <-.
  destruct Hiff as [Hadopt _].
  destruct (Hadopt eq_refl) as [Hnone | Hsome]; vm_compute in *; discriminate.
Qed.

(* --------------------------------------------------------------------- *)
(** ** The speaker of one word                                             *)
(* --------------------------------------------------------------------- *)

Section ScanFacts.

(** The segment at index [i] is the earliest-listed one with the largest
    (smallest) value of [f]. *)
Definition first_max (f : DiarSegment -> Q) (segs : list DiarSegment)
    (i : nat) (s : DiarSegment) : Prop :=
  segs !! i = Some s /\
  (forall j s', segs !! j = Some s' -> f s' <= f s) /\
  (forall j s', (j < i)%nat -> segs !! j = Some s' -> f s' < f s).

Definition first_min (f : DiarSegment -> Q) (segs : list DiarSegment)
    (i : nat) (s : DiarSegment) : Prop :=
  segs !! i = Some s /\
  (forall j s', segs !! j = Some s' -> f s <= f s') /\
  (forall j s', (j < i)%nat -> segs !! j = Some s' -> f s < f s').

(** No segment overlaps the word. *)
Definition no_overlap (word : Word) (segs : list DiarSegment) : Prop :=
  forall j s', segs !! j = Some s' -> ~ 0 < overlap word s'.

(** The rule of the specification for the speaker of [word] before
    interpolation, case by case; [usable] says which nearest segments may
    lend their speaker. *)
Definition speaker_rule (usable : DiarSegment -> Prop) (word : Word)
    (segs : list DiarSegment) (tolerance : Q) (speaker : string) : Prop :=
  let word_mid := midpoint word in
  (exists i s, first_max (overlap word) segs i s /\ 0 < overlap word s /\
               speaker = seg_speaker s) \/
  (no_overlap word segs /\
   exists i s, first_min (distance word_mid) segs i s /\
               distance word_mid s <= tolerance /\ usable s /\
               speaker = seg_speaker s) \/
  (no_overlap word segs /\
   (forall i s, first_min (distance word_mid) segs i s ->
                ~ (distance word_mid s <= tolerance /\ usable s)) /\
   speaker = UNKNOWN).

Variable word : Word.
Variable word_mid : Q.

(** What the loop knows about overlaps after the segments [l]. *)
Definition overlap_inv (l : list DiarSegment) (st : scan) : Prop :=
  (best_overlap st = 0 /\ best_speaker st = UNKNOWN /\ no_overlap word l) \/
  (0 < best_overlap st /\
   exists i s, first_max (overlap word) l i s /\
               overlap word s = best_overlap st /\
               best_speaker st = seg_speaker s).

(** What the loop knows about distances after the segments [l]. *)
Definition nearest_inv (l : list DiarSegment) (st : scan) : Prop :=
  (l = [] /\ nearest_speaker st = None /\ min_distance st = None) \/
  (exists i s, first_min (distance word_mid) l i s /\
               min_distance st = Some (distance word_mid s) /\
               nearest_speaker st = Some (seg_speaker s)).

Lemma lookup_snoc_cases {A} (l : list A) (x y : A) (j : nat) :
  (l ++ [x]) !! j = Some y ->
  l !! j = Some y /\ (j < length l)%nat \/ j = length l /\ y = x.
Proof.
  intros H. destruct (Nat.lt_ge_cases j (length l)) as [Hlt | Hge].
  - rewrite lookup_app_l in H by exact Hlt. left. split; assumption.
  - rewrite lookup_app_r in H by exact Hge.
    destruct (j - length l)%nat as [| n] eqn:Hn; simpl in H; [| discriminate].
    right. split; [lia | congruence].
Qed.

Lemma overlap_nonneg (seg : DiarSegment) : 0 <= overlap word seg.
Proof.
  unfold overlap, py_max at 1.
  destruct (Qlt_le_dec 0 _); lra.
Qed.

Lemma overlap_inv_step (l : list DiarSegment) (st : scan) (seg : DiarSegment) :
  overlap_inv l st ->
  overlap_inv (l ++ [seg]) (scan_step word word_mid st seg).
Proof.
  unfold overlap_inv, scan_step. simpl.
  destruct (Qlt_le_dec (best_overlap st) (overlap word seg)) as [Hlt | Hle].
  - (* the new segment overlaps more than all before *)
    intros Hinv. right.
    assert (Hprev : forall j s', l !! j = Some s' ->
                    overlap word s' < overlap word seg).
    { intros j s' Hs'. destruct Hinv as [(H0 & _ & Hno) | (_ & i & s & Hmax & Hov & _)].
      - specialize (Hno j s' Hs'). rewrite H0 in Hlt. lra.
      - destruct Hmax as (_ & Hall & _). specialize (Hall j s' Hs').
        rewrite Hov in Hall. lra. }
    split.
    + destruct Hinv as [(H0 & _) | (Hpos & _)]; [rewrite H0 in Hlt |]; lra.
    + exists (length l), seg. repeat split.
      * rewrite lookup_app_r by lia. rewrite Nat.sub_diag. reflexivity.
      * intros j s' Hs'.
        destruct (lookup_snoc_cases l seg s' j Hs') as [[Hl _] | [_ ->]].
        -- apply Qlt_le_weak. eapply Hprev. exact Hl.
        -- lra.
      * intros j s' Hj Hs'. rewrite lookup_app_l in Hs' by exact Hj.
        eapply Hprev. exact Hs'.
  - intros [(H0 & Hsp & Hno) | (Hpos & i & s & (Hi & Hall & Hfirst) & Hov & Hsp)].
    + left. repeat split; [exact H0 | exact Hsp |].
      intros j s' Hs'.
      destruct (lookup_snoc_cases l seg s' j Hs') as [[Hl _] | [_ ->]].
      * eapply Hno. exact Hl.
      * rewrite H0 in Hle. lra.
    + right. split; [exact Hpos |]. exists i, s. repeat split.
      * rewrite lookup_app_l by (eapply lookup_lt_Some; exact Hi). exact Hi.
      * intros j s' Hs'.
        destruct (lookup_snoc_cases l seg s' j Hs') as [[Hl _] | [_ ->]].
        -- eapply Hall. exact Hl.
        -- rewrite Hov. exact Hle.
      * intros j s' Hj Hs'. apply (Hfirst j s' Hj).
        rewrite lookup_app_l in Hs'; [exact Hs' |].
        apply lookup_lt_Some in Hi. lia.
      * exact Hov.
      * exact Hsp.
Qed.

Lemma nearest_inv_step (l : list DiarSegment) (st : scan) (seg : DiarSegment) :
  nearest_inv l st ->
  nearest_inv (l ++ [seg]) (scan_step word word_mid st seg).
Proof.
  unfold nearest_inv, scan_step. simpl.
  intros [(-> & Hnone & Hinf) | (i & s & (Hi & Hall & Hfirst) & Hmin & Hsp)].
  - right. rewrite Hinf. simpl. exists 0%nat, seg. repeat split.
    + intros j s' Hs'. destruct j; simpl in Hs'; [| discriminate].
      injection Hs' as <-. lra.
    + intros j s' Hj. lia.
  - right. rewrite Hmin. simpl.
    destruct (Qlt_le_dec (distance word_mid seg) (distance word_mid s))
      as [Hlt | Hle].
    + exists (length l), seg. repeat split.
      * rewrite lookup_app_r by lia. rewrite Nat.sub_diag. reflexivity.
      * intros j s' Hs'.
        destruct (lookup_snoc_cases l seg s' j Hs') as [[Hl _] | [_ ->]].
        -- specialize (Hall j s' Hl). lra.
        -- lra.
      * intros j s' Hj Hs'. rewrite lookup_app_l in Hs' by exact Hj.
        specialize (Hall j s' Hs'). lra.
    + exists i, s. repeat split.
      * rewrite lookup_app_l by (eapply lookup_lt_Some; exact Hi). exact Hi.
      * intros j s' Hs'.
        destruct (lookup_snoc_cases l seg s' j Hs') as [[Hl _] | [_ ->]].
        -- eapply Hall. exact Hl.
        -- exact Hle.
      * intros j s' Hj Hs'. apply (Hfirst j s' Hj).
        rewrite lookup_app_l in Hs'; [exact Hs' |].
        apply lookup_lt_Some in Hi. lia.
      * exact Hsp.
Qed.

Lemma scan_loop_inv (l : list DiarSegment) :
  let st := fold_left (scan_step word word_mid) l scan_init in
  overlap_inv l st /\ nearest_inv l st.
Proof.
  induction l as [| seg l [IHo IHn]] using rev_ind.
  - split; left; repeat split. intros j s' Hs'. discriminate.
  - cbv zeta. rewrite fold_left_app. simpl. split.
    + apply overlap_inv_step, IHo.
    + apply nearest_inv_step, IHn.
Qed.

(** The earliest-listed extremum is unique. *)
Lemma first_max_unique (f : DiarSegment -> Q) (l : list DiarSegment)
    (i i' : nat) (s s' : DiarSegment) :
  first_max f l i s -> first_max f l i' s' -> s = s'.
Proof.
  intros (Hi & Hall & Hfirst) (Hi' & Hall' & Hfirst').
  destruct (Nat.lt_total i i') as [Hlt | [-> | Hgt]].
  - specialize (Hfirst' i s Hlt Hi). specialize (Hall i' s' Hi'). lra.
  - congruence.
  - specialize (Hfirst i' s' Hgt Hi'). specialize (Hall' i s Hi). lra.
Qed.

Lemma first_min_unique (f : DiarSegment -> Q) (l : list DiarSegment)
    (i i' : nat) (s s' : DiarSegment) :
  first_min f l i s -> first_min f l i' s' -> s = s'.
Proof.
  intros (Hi & Hall & Hfirst) (Hi' & Hall' & Hfirst').
  destruct (Nat.lt_total i i') as [Hlt | [-> | Hgt]].
  - specialize (Hfirst' i s Hlt Hi). specialize (Hall i' s' Hi'). lra.
  - congruence.
  - specialize (Hfirst i' s' Hgt Hi'). specialize (Hall' i s Hi). lra.
Qed.

End ScanFacts.

(** The overlap, the midpoint and the distances are the doubles the code
    computes.  A word from 0.1 to 0.2 has the midpoint 0.15000000000000002,
    and its distance to a segment starting at 0.5 is computed as the double
    0.35, within a tolerance of 0.35, where the exact distance of the exact
    midpoint is above that double. *)
Example word_speaker_rounded_distance :
  word_speaker (mkWord "hi" (fl 0.1) (fl 0.2)) [mkSeg 0.5 (fl 0.6) "A"] (fl 0.35)
  = "A" /\
  distance (midpoint (mkWord "hi" (fl 0.1) (fl 0.2))) (mkSeg 0.5 (fl 0.6) "A")
  == fl 0.35 /\
  fl 0.35 < 0.5 - (fl 0.1 + fl 0.2) / 2.
Proof. vm_compute. repeat split. Qed.

(** C6 (as amended). For every word with [end > start] and every segment
    list, the speaker given to the word before interpolation is: the speaker
    of the segment with the largest positive overlap (the earliest-listed
    one among equals); if no segment has positive overlap, the speaker of
    the segment nearest to the word's midpoint (again the earliest-listed
    one), provided its distance is at most the tolerance and its speaker
    label is not the empty string; and UNKNOWN otherwise.  Overlap, midpoint
    and distance are the values the code computes, every [+], [-] and [/]
    rounded to the nearest double. *)
Theorem word_speaker_rule (word : Word) (segs : list DiarSegment)
    (tolerance : Q) :
  w_start word < w_end word ->
  speaker_rule (fun s => seg_speaker s <> "") word segs tolerance
    (word_speaker word segs tolerance).
Proof.
  intros _. unfold speaker_rule, word_speaker. cbv zeta.
  set (word_mid := midpoint word).
  destruct (scan_loop_inv word word_mid segs) as [Hov Hnear].
  set (st := fold_left (scan_step word word_mid) segs scan_init) in *.
  destruct Hov as [(H0 & Hsp & Hno) | (Hpos & i0 & s0 & Hmax & Hbest & Hsp)].
  - (* no segment overlaps the word *)
    right. rewrite H0. change (Qeq_bool 0 0) with true. cbn [andb].
    destruct Hnear as [(-> & -> & _) | (i1 & s1 & Hmin1 & Hd & Hn)].
    { right. simpl. split; [exact Hno | split; [| exact Hsp]].
      intros i s (Hi & _). discriminate Hi. }
    rewrite Hd, Hn. simpl.
    assert (Hskip : ~ (distance word_mid s1 <= tolerance /\ seg_speaker s1 <> "") ->
              no_overlap word segs /\
              (forall i s, first_min (distance word_mid) segs i s ->
                 ~ (distance word_mid s <= tolerance /\ seg_speaker s <> "")) /\
              best_speaker st = UNKNOWN).
    { intros Hnot. split; [exact Hno | split; [| exact Hsp]].
      intros i s Hmin.
      assert (s1 = s) as <- by (eapply first_min_unique; eassumption).
      exact Hnot. }
    destruct (String.eqb_spec (seg_speaker s1) "") as [Hempty | Hlabel]; simpl.
    { right. apply Hskip. intros [_ Hlabel]. contradiction. }
    destruct (Qlt_le_dec tolerance (distance word_mid s1)) as [Hfar | Hclose].
    { right. apply Hskip. intros [Hclose _]. lra. }
    left. split; [exact Hno |]. exists i1, s1.
    split; [exact Hmin1 | split; [exact Hclose | split; [exact Hlabel |]]].
    reflexivity.
  - (* some segment overlaps the word *)
    left.
    assert (Hnz : Qeq_bool (best_overlap st) 0 = false).
    { destruct (Qeq_bool (best_overlap st) 0) eqn:He; [| reflexivity].
      apply Qeq_bool_eq in He. lra. }
    rewrite Hnz. cbn [andb].
    exists i0, s0. repeat split; [apply Hmax .. | | exact Hsp].
    rewrite Hbest. exact Hpos.
Qed.

Lemma word_speaker_rule_witness :
  speaker_rule (fun s => seg_speaker s <> "")
    (mkWord "hello" 1 2) [mkSeg 0.5 1.5 "SPEAKER_00"; mkSeg 1.5 3 "SPEAKER_01"]
    0.25
    (word_speaker (mkWord "hello" 1 2)
       [mkSeg 0.5 1.5 "SPEAKER_00"; mkSeg 1.5 3 "SPEAKER_01"] 0.25).
Proof. apply word_speaker_rule. reflexivity. Defined.

(** A word before a single segment that carries the empty label. *)
Definition early_word : Word := mkWord "hello" 0 1.
Definition unlabelled_segment : DiarSegment := mkSeg 5 6 "".

(** C6 (as stated) fails when the nearest segment carries the empty
    label: the test [nearest_speaker and ...] is false for the empty
    string, and the word stays UNKNOWN. *)
Lemma word_speaker_empty_label :
  ~ (forall (word : Word) (segs : list DiarSegment) (tolerance : Q),
        w_start word < w_end word ->
        speaker_rule (fun _ => True) word segs tolerance
          (word_speaker word segs tolerance)).
Proof.
  intros H.
  specialize (H early_word [unlabelled_segment] 10 eq_refl).
  assert (Hone : forall j s', [unlabelled_segment] !! j = Some s' ->
                 s' = unlabelled_segment).
  { intros [| j] s' Hs'; simpl in Hs'; [congruence | discriminate]. }
  assert (Hcode : word_speaker early_word [unlabelled_segment] 10 = UNKNOWN)
    by (vm_compute; reflexivity).
  rewrite Hcode in H.
  destruct H as [(i & s & (Hi & _) & Hpos & _)
                | [(_ & i & s & (Hi & _) & _ & _ & Hlabel)
                  | (_ & Hnone & _)]].
  - rewrite (Hone i s Hi) in Hpos. vm_compute in Hpos. discriminate Hpos.
  - rewrite (Hone i s Hi) in Hlabel. discriminate Hlabel.
  - apply (Hnone 0%nat unlabelled_segment).
    + repeat split.
      * intros j s' Hs'. rewrite (Hone j s' Hs'). apply Qle_refl.
      * intros j s' Hj. lia.
    + split; [vm_compute; discriminate | exact I].
Qed.

(* --------------------------------------------------------------------- *)
(** ** What interpolation achieves                                         *)
(* --------------------------------------------------------------------- *)

Section InterpolationFacts.

(** The word carries a speaker other than UNKNOWN. *)
Definition known (w : LabelledWord) : Prop := lw_speaker w <> UNKNOWN.

(** Some word at index [j] or later is known. *)
Definition known_from (ws : list LabelledWord) (j : nat) : Prop :=
  exists j' w', (j <= j')%nat /\ ws !! j' = Some w' /\ known w'.

Lemma is_unknown_false (w : LabelledWord) : is_unknown w = false <-> known w.
Proof. unfold is_unknown, known. apply String.eqb_neq. Qed.

(** The state of the backward loop once the indices from [k] on are done. *)
Definition backward_inv (ws : list LabelledWord) (k : nat)
    (st : list LabelledWord * option string) : Prop :=
  length (fst st) = length ws /\
  (forall j, (j < k)%nat -> fst st !! j = ws !! j) /\
  (snd st = None -> fst st = ws /\ ~ known_from ws k) /\
  (forall s, snd st = Some s -> s <> UNKNOWN /\ known_from ws k) /\
  (forall j w, (k <= j)%nat -> ws !! j = Some w -> known_from ws j ->
               exists r, fst st !! j = Some r /\ known r).

Lemma known_from_weaken (ws : list LabelledWord) (j k : nat) :
  (k <= j)%nat -> known_from ws j -> known_from ws k.
Proof.
  intros Hkj (j' & w' & Hj' & Hw' & Hknown).
  exists j', w'. repeat split; try assumption. lia.
Qed.

Lemma backward_inv_step (ws : list LabelledWord) (k : nat)
    (st : list LabelledWord * option string) :
  (k < length ws)%nat ->
  backward_inv ws (S k) st -> backward_inv ws k (backward_step st k).
Proof.
  intros Hk. destruct st as [result next]. unfold backward_inv. simpl.
  intros (Hlen & Hbelow & Hnone & Hsome & Hdone).
  destruct (lookup_lt_is_Some_2 ws k Hk) as [w Hw].
  assert (Hrk : result !! k = Some w) by (rewrite Hbelow by lia; exact Hw).
  unfold backward_step. rewrite Hrk.
  destruct (is_unknown w) eqn:Hunk; simpl.
  - (* an UNKNOWN word *)
    assert (Hlater : forall j, (k <= j)%nat -> known_from ws j ->
                     known_from ws (S k)).
    { intros j Hj (j' & w' & Hj' & Hw' & Hknown).
      exists j', w'. repeat split; try assumption.
      destruct (decide (j' = k)) as [-> | Hne]; [| lia].
      assert (w' = w) as -> by congruence.
      apply is_unknown_false in Hknown. congruence. }
    destruct next as [nk |]; simpl.
    + destruct (Hsome nk eq_refl) as [Hnk Hfrom_nk].
      split; [rewrite length_insert; exact Hlen |].
      split; [intros j Hj; rewrite list_lookup_insert_ne by lia;
              apply Hbelow; lia |].
      split; [discriminate |].
      split; [intros s [= <-]; split;
              [exact Hnk | apply (known_from_weaken ws (S k)); [lia | exact Hfrom_nk]] |].
      intros j w' Hj Hw' Hfrom.
      destruct (decide (j = k)) as [-> | Hne].
      * exists (with_speaker w nk).
        split; [apply list_lookup_insert_eq; lia | exact Hnk].
      * rewrite list_lookup_insert_ne by congruence.
        apply (Hdone j w'); [lia | exact Hw' | exact Hfrom].
    + destruct (Hnone eq_refl) as [Heq Hno].
      split; [exact Hlen |].
      split; [intros j Hj; apply Hbelow; lia |].
      split; [intros _; split; [exact Heq |];
              intros Hfrom; apply Hno; apply (Hlater k); [lia | exact Hfrom] |].
      split; [discriminate |].
      intros j w' Hj Hw' Hfrom. exfalso. apply Hno.
      apply (Hlater j); assumption.
  - (* a known word *)
    apply is_unknown_false in Hunk.
    split; [exact Hlen |].
    split; [intros j Hj; apply Hbelow; lia |].
    split; [discriminate |].
    split; [intros s [= <-]; split;
            [exact Hunk | exists k, w; repeat split; [lia | exact Hw | exact Hunk]] |].
    intros j w' Hj Hw' Hfrom.
    destruct (decide (j = k)) as [-> | Hne].
    + exists w. split; [exact Hrk | exact Hunk].
    + apply (Hdone j w'); [lia | exact Hw' | exact Hfrom].
Qed.

Lemma backward_inv_loop (ws : list LabelledWord) (d : nat) :
  (d <= length ws)%nat ->
  backward_inv ws (length ws - d)
    (fold_left backward_step (rev (seq (length ws - d) d)) (ws, None)).
Proof.
  induction d as [| d IH]; intros Hd.
  - simpl. rewrite Nat.sub_0_r.
    split; [reflexivity |]. split; [reflexivity |].
    split; [intros _; split; [reflexivity |];
            intros (j' & w' & Hj' & Hw' & _);
            apply lookup_lt_Some in Hw'; lia |].
    split; [discriminate |].
    intros j w Hj Hw. apply lookup_lt_Some in Hw. lia.
  - simpl seq. simpl rev. rewrite fold_left_app. simpl.
    apply backward_inv_step; [lia |].
    replace (S (length ws - S d)) with (length ws - d)%nat by lia.
    apply IH. lia.
Qed.

Lemma backward_inv_whole (ws : list LabelledWord) :
  backward_inv ws 0
    (fold_left backward_step (rev (range 0 (length ws))) (ws, None)).
Proof.
  pose proof (backward_inv_loop ws (length ws) (Nat.le_refl _)) as Hinv.
  rewrite Nat.sub_diag in Hinv. unfold range. rewrite Nat.sub_0_r. exact Hinv.
Qed.

(** After the backward pass a word is known as soon as a word at its
    index or later was known before the pass. *)
Lemma backward_pass_fills (ws : list LabelledWord) (j : nat) (w : LabelledWord) :
  ws !! j = Some w -> known_from ws j ->
  exists r, backward_pass ws !! j = Some r /\ known r.
Proof.
  intros Hw Hfrom.
  destruct (backward_inv_whole ws) as (_ & _ & _ & _ & Hdone).
  apply (Hdone j w); [lia | exact Hw | exact Hfrom].
Qed.

Lemma backward_pass_all_unknown (ws : list LabelledWord) :
  ~ known_from ws 0 -> backward_pass ws = ws.
Proof.
  intros Hno.
  destruct (backward_inv_whole ws) as (_ & _ & Hnone & Hsome & _).
  unfold backward_pass.
  destruct (fold_left backward_step (rev (range 0 (length ws))) (ws, None))
    as [result next]. simpl in *.
  destruct next as [s |]; [| apply Hnone; reflexivity].
  destruct (Hsome s eq_refl) as [_ Hfrom]. contradiction.
Qed.

Lemma last_known_none (l : list LabelledWord) :
  last_known l = None <-> Forall (fun w => lw_speaker w = UNKNOWN) l.
Proof.
  induction l as [| w l IH] using rev_ind.
  - split; [constructor | reflexivity].
  - rewrite last_known_snoc, Forall_app.
    destruct (is_unknown w) eqn:Hunk.
    + rewrite IH. apply String.eqb_eq in Hunk.
      split; [intros H; split; [exact H | repeat constructor; exact Hunk]
             | intros [H _]; exact H].
    + apply String.eqb_neq in Hunk. split; [discriminate |].
      intros [_ Hw]. apply Forall_inv in Hw. contradiction.
Qed.

(** With a known word somewhere, the forward pass leaves a known word in
    the last position. *)
Lemma forward_pass_last_known (ws : list LabelledWord) (w : LabelledWord) :
  known_from ws 0 ->
  ws !! (length ws - 1)%nat = Some w ->
  known (forward_word ws (length ws - 1) w).
Proof.
  intros (j & wj & _ & Hj & Hknown) Hw.
  assert (Hlt : (j < length ws)%nat) by (eapply lookup_lt_Some; exact Hj).
  unfold forward_word.
  destruct (is_unknown w) eqn:Hunk; [| apply is_unknown_false; exact Hunk].
  destruct (last_known (take (length ws - 1) ws)) as [lk |] eqn:Hlk.
  - unfold range.
    replace (Nat.min (length ws - 1 + 10) (length ws) - (length ws - 1 + 1))%nat
      with 0%nat by lia.
    simpl. eapply last_known_is_known. exact Hlk.
  - exfalso. apply last_known_none in Hlk.
    destruct (decide (j = length ws - 1)%nat) as [-> | Hne].
    + assert (wj = w) as -> by congruence.
      apply is_unknown_false in Hknown. congruence.
    + rewrite Forall_lookup in Hlk.
      apply Hknown, (Hlk j wj). rewrite lookup_take_lt by lia. exact Hj.
Qed.

End InterpolationFacts.

(** X8. If at least one word carries a known speaker, then after
    [_interpolate_unknown_speakers] no word is left UNKNOWN. *)
Theorem interpolation_leaves_no_unknown (ws : list LabelledWord) :
  (exists i w, ws !! i = Some w /\ lw_speaker w <> UNKNOWN) ->
  Forall (fun w => lw_speaker w <> UNKNOWN) (_interpolate_unknown_speakers ws).
Proof.
  intros (i & wi & Hi & Hknown).
  assert (Hfrom : known_from ws 0).
  { exists i, wi. repeat split; [lia | exact Hi | exact Hknown]. }
  unfold _interpolate_unknown_speakers.
  destruct ws as [| w0 rest] eqn:Hws; [discriminate Hi |]. rewrite <- Hws in *.
  clear Hws w0 rest.
  set (fw := forward_pass ws).
  destruct (forward_pass_kept ws) as [Hlen _]. fold fw in Hlen.
  assert (Hn : (0 < length ws)%nat) by (apply lookup_lt_Some in Hi; lia).
  destruct (lookup_lt_is_Some_2 ws (length ws - 1)) as [wl Hwl]; [lia |].
  pose proof (forward_pass_lookup ws _ wl Hwl) as Hfl. fold fw in Hfl.
  pose proof (forward_pass_last_known ws wl Hfrom Hwl) as Hlast.
  apply Forall_lookup. intros j r Hr.
  assert (Hj : (j < length fw)%nat).
  { destruct (backward_inv_whole fw) as (Hlen' & _).
    simpl in Hlen'. apply lookup_lt_Some in Hr.
    unfold backward_pass in Hr. lia. }
  destruct (lookup_lt_is_Some_2 fw j Hj) as [wj Hwj].
  destruct (backward_pass_fills fw j wj Hwj) as (r' & Hr' & Hk).
  - exists (length ws - 1)%nat, (forward_word ws (length ws - 1) wl).
    repeat split; [lia | exact Hfl | exact Hlast].
  - assert (r' = r) as <- by congruence. exact Hk.
Qed.

Lemma interpolation_leaves_no_unknown_witness :
  Forall (fun w => lw_speaker w <> UNKNOWN)
    (_interpolate_unknown_speakers
       [mkLabelled "so" 0 1 UNKNOWN; mkLabelled "yes" 1 2 "SPEAKER_00";
        mkLabelled "and" 2 3 UNKNOWN; mkLabelled "no" 3 4 "SPEAKER_01";
        mkLabelled "ok" 4 5 UNKNOWN]).
Proof.
  apply interpolation_leaves_no_unknown.
  exists 1%nat, (mkLabelled "yes" 1 2 "SPEAKER_00").
  split; [reflexivity | discriminate].
Defined.

(** X9. If no word carries a known speaker, interpolation returns the
    words unchanged (all still UNKNOWN). *)
Theorem interpolation_without_known_speaker (ws : list LabelledWord) :
  Forall (fun w => lw_speaker w = UNKNOWN) ws ->
  _interpolate_unknown_speakers ws = ws.
Proof.
  intros Hall. unfold _interpolate_unknown_speakers.
  destruct ws as [| w0 rest] eqn:Hws; [reflexivity |]. rewrite <- Hws in *.
  clear Hws w0 rest.
  assert (Hfw : forward_pass ws = ws).
  { destruct (forward_pass_kept ws) as [Hlen _].
    apply list_eq. intros j.
    destruct (ws !! j) as [w |] eqn:Hw.
    - rewrite (forward_pass_lookup ws j w Hw). f_equal.
      unfold forward_word. destruct (is_unknown w); [| reflexivity].
      assert (Hnone : last_known (take j ws) = None).
      { apply last_known_none. apply Forall_take. exact Hall. }
      rewrite Hnone. reflexivity.
    - apply lookup_ge_None. apply lookup_ge_None in Hw. lia. }
  rewrite Hfw. apply backward_pass_all_unknown.
  intros (j & w & _ & Hw & Hknown).
  rewrite Forall_lookup in Hall. apply Hknown, (Hall j w Hw).
Qed.

Lemma interpolation_without_known_speaker_witness :
  _interpolate_unknown_speakers
    [mkLabelled "so" 0 1 UNKNOWN; mkLabelled "yes" 1 2 UNKNOWN]
  = [mkLabelled "so" 0 1 UNKNOWN; mkLabelled "yes" 1 2 UNKNOWN].
Proof.
  apply interpolation_without_known_speaker. repeat constructor.
Defined.

(* --------------------------------------------------------------------- *)
(** ** The shape of the turns                                              *)
(* --------------------------------------------------------------------- *)

Section TurnShape.

Variables gap_threshold max_turn_duration : Q.

(** [R] holds between every element and the next one. *)
Definition adjacent {A} (R : A -> A -> Prop) (l : list A) : Prop :=
  forall i a b, l !! i = Some a -> l !! S i = Some b -> R a b.

(** A word may follow [prev] in the turn that starts at [turn_start]. *)
Definition continues (turn_start : Q) (prev next : LabelledWord) : Prop :=
  lw_start next - lw_end prev <= gap_threshold /\
  lw_end next - turn_start <= max_turn_duration.

(** A group of words that makes one turn of [speaker]. *)
Definition group_ok (speaker : string) (ws : list LabelledWord) : Prop :=
  ws <> [] /\
  Forall (fun w => lw_speaker w = speaker) ws /\
  adjacent (continues (lw_start (first_word ws))) ws.

(** The fields of a turn are those of its words. *)
Definition turn_ok (t : SpeakerTurn) : Prop :=
  group_ok (t_speaker t) (t_words t) /\
  t_start t = lw_start (first_word (t_words t)) /\
  t_end t = lw_end (last_word (t_words t)) /\
  t_text t = _join_words_smart (t_words t).

(** Why the word [w] could not go into the turn [a]. *)
Definition break_reason (a : SpeakerTurn) (w : LabelledWord) : Prop :=
  lw_speaker w <> t_speaker a \/
  gap_threshold < lw_start w - t_end a \/
  max_turn_duration < lw_end w - t_start a.

Lemma list_last_lookup {A} (l : list A) (i : nat) (a d : A) :
  l !! i = Some a -> S i = length l -> List.last l d = a.
Proof.
  revert i. induction l as [| x l IH]; intros i Hi Hlen; [discriminate |].
  destruct l as [| y l].
  - destruct i; simpl in *; [congruence | lia].
  - destruct i as [| i]; [simpl in Hlen; lia |].
    change (List.last (x :: y :: l) d) with (List.last (y :: l) d).
    apply (IH i); [exact Hi | simpl in *; lia].
Qed.

Lemma adjacent_snoc {A} (R : A -> A -> Prop) (l : list A) (x : A) :
  adjacent R l ->
  (forall i a, l !! i = Some a -> S i = length l -> R a x) ->
  adjacent R (l ++ [x]).
Proof.
  intros Hl Hlast i a b Ha Hb.
  destruct (lookup_snoc_cases l x b (S i) Hb) as [[Hb' Hlt] | [Heq ->]].
  - rewrite lookup_app_l in Ha by lia. apply (Hl i a b Ha Hb').
  - rewrite lookup_app_l in Ha by lia. apply (Hlast i a Ha Heq).
Qed.

Lemma first_word_snoc (ws : list LabelledWord) (w : LabelledWord) :
  ws <> [] -> first_word (ws ++ [w]) = first_word ws.
Proof. destruct ws; [congruence | reflexivity]. Qed.

(** What the loop keeps true of its state. *)
Definition grouping_shape (g : grouping) : Prop :=
  Forall turn_ok (g_turns g) /\
  group_ok (current_speaker g) (current_words g) /\
  adjacent (fun a b => break_reason a (first_word (t_words b))) (g_turns g) /\
  (forall i a, g_turns g !! i = Some a -> S i = length (g_turns g) ->
               break_reason a (first_word (current_words g))).

Lemma make_turn_ok (speaker : string) (ws : list LabelledWord) :
  group_ok speaker ws -> turn_ok (make_turn speaker ws).
Proof.
  intros Hg. unfold turn_ok, make_turn. simpl.
  split; [exact Hg | split; [| split]]; reflexivity.
Qed.

Lemma group_ok_single (w : LabelledWord) : group_ok (lw_speaker w) [w].
Proof.
  split; [discriminate |]. split; [repeat constructor |].
  intros i a b Ha Hb. destruct i; discriminate.
Qed.

(** Closing the current turn and opening one with [word]. *)
Lemma close_turn_shape (g : grouping) (word : LabelledWord) :
  grouping_shape g ->
  break_reason (make_turn (current_speaker g) (current_words g)) word ->
  grouping_shape
    {| g_turns := g_turns g
                  ++ [make_turn (current_speaker g) (current_words g)];
       current_words := [word];
       current_speaker := lw_speaker word |}.
Proof.
  intros (Hturns & Hgroup & Hadj & Hlast) Hbreak.
  split; [| split; [| split]]; simpl.
  - apply Forall_app. split; [exact Hturns |].
    constructor; [apply make_turn_ok; exact Hgroup | constructor].
  - apply group_ok_single.
  - apply adjacent_snoc; [exact Hadj | exact Hlast].
  - intros i a Ha Hlen. rewrite length_app in Hlen. simpl in Hlen.
    rewrite lookup_app_r in Ha by lia.
    replace (i - length (g_turns g))%nat with 0%nat in Ha by lia.
    injection Ha as <-. exact Hbreak.
Qed.

Lemma turn_step_shape (g : grouping) (word : LabelledWord) :
  grouping_shape g ->
  grouping_shape (turn_step gap_threshold max_turn_duration g word).
Proof.
  intros Hshape. unfold turn_step, Qgtb.
  destruct (String.eqb_spec (lw_speaker word) (current_speaker g))
    as [Hsame | Hchange]; simpl negb; simpl orb;
    [| apply close_turn_shape; [exact Hshape | left; exact Hchange]].
  destruct (Qlt_le_dec gap_threshold
              (lw_start word - lw_end (last_word (current_words g))))
    as [Hgap | Hnogap]; simpl orb;
    [apply close_turn_shape; [exact Hshape | right; left; exact Hgap] |].
  destruct (Qlt_le_dec max_turn_duration
              (lw_end word - lw_start (first_word (current_words g))))
    as [Hlong | Hshort];
    [apply close_turn_shape; [exact Hshape | right; right; exact Hlong] |].
  (* the word joins the current turn *)
  destruct Hshape as (Hturns & (Hne & Hsp & Hcont) & Hadj & Hlast).
  split; [exact Hturns |]. split; [| split; [exact Hadj |]]; simpl.
  - split; [destruct (current_words g); discriminate |].
    split; [apply Forall_app; split;
            [exact Hsp | constructor; [exact Hsame | constructor]] |].
    rewrite first_word_snoc by exact Hne.
    apply adjacent_snoc; [exact Hcont |].
    intros i a Ha Hlen. split; [| exact Hshort].
    unfold last_word in Hnogap.
    rewrite (list_last_lookup _ i a no_word Ha Hlen) in Hnogap.
    exact Hnogap.
  - rewrite first_word_snoc by exact Hne. exact Hlast.
Qed.

Lemma turn_loop_shape (rest : list LabelledWord) (g : grouping) :
  grouping_shape g ->
  grouping_shape (fold_left (turn_step gap_threshold max_turn_duration) rest g).
Proof.
  revert g. induction rest as [| w rest IH]; intros g Hg; simpl.
  - exact Hg.
  - apply IH, turn_step_shape, Hg.
Qed.

Lemma words_to_turns_shape (ws : list LabelledWord) :
  let ts := words_to_turns ws gap_threshold max_turn_duration in
  Forall turn_ok ts /\
  adjacent (fun a b => break_reason a (first_word (t_words b))) ts.
Proof.
  cbv zeta. destruct ws as [| w0 rest].
  - split; [constructor |]. intros i a b Ha. discriminate.
  - unfold words_to_turns.
    set (g0 := {| g_turns := []; current_words := [w0];
                  current_speaker := lw_speaker w0 |}).
    assert (Hg0 : grouping_shape g0).
    { split; [constructor |]. split; [apply group_ok_single | split].
      - intros i a b Ha. discriminate.
      - intros i a Ha. discriminate. }
    pose proof (turn_loop_shape rest g0 Hg0) as (Hturns & Hgroup & Hadj & Hlast).
    set (g := fold_left (turn_step gap_threshold max_turn_duration) rest g0) in *.
    destruct (current_words g) as [| c cs] eqn:Hc;
      [destruct Hgroup as [Hne _]; congruence |].
    simpl nonempty. cbv iota. split.
    + apply Forall_app. split; [exact Hturns |].
      constructor; [apply make_turn_ok; exact Hgroup | constructor].
    + apply adjacent_snoc; [exact Hadj | exact Hlast].
Qed.

End TurnShape.



(* --------------------------------------------------------------------- *)
(** ** The merged transcript                                               *)
(* --------------------------------------------------------------------- *)

Section MergedFacts.

(** [a] starts no later than [b] (labelled words). *)
Definition lw_starts_before (a b : LabelledWord) : Prop :=
  lw_start a <= lw_start b.

Lemma strongly_sorted_app_inv {A} (R : A -> A -> Prop) (l1 l2 : list A) :
  StronglySorted R (l1 ++ l2) ->
  StronglySorted R l1 /\ StronglySorted R l2 /\
  (forall a b, In a l1 -> In b l2 -> R a b).
Proof.
  induction l1 as [| x l1 IH]; simpl; intros Hs.
  - repeat split; [constructor | exact Hs | intros a b []].
  - apply StronglySorted_inv in Hs. destruct Hs as [Hs Hx].
    destruct (IH Hs) as (H1 & H2 & Hcross).
    rewrite List.Forall_forall in Hx.
    repeat split.
    + constructor; [exact H1 |]. apply List.Forall_forall. intros b Hb.
      apply Hx, in_or_app. left. exact Hb.
    + exact H2.
    + intros a b [<- | Ha] Hb; [apply Hx, in_or_app; right; exact Hb |].
      apply Hcross; assumption.
Qed.

Lemma words_to_turns_concat (ws : list LabelledWord) (gap maxd : Q) :
  List.concat (map t_words (words_to_turns ws gap maxd)) = ws.
Proof.
  destruct ws as [| w0 rest]; [reflexivity |].
  unfold words_to_turns.
  set (g0 := {| g_turns := []; current_words := [w0];
                current_speaker := lw_speaker w0 |}).
  assert (Hg0 : grouping_ok g0) by (split; [constructor | discriminate]).
  pose proof (turn_loop_current_nonempty gap maxd rest g0 Hg0) as [_ Hcur].
  pose proof (turn_loop_consumed gap maxd rest g0) as Hflat.
  set (g := fold_left (turn_step gap maxd) rest g0) in *.
  destruct (current_words g) as [| c cs] eqn:Hc; [congruence |].
  simpl nonempty. cbv iota.
  rewrite map_app, concat_app. simpl. rewrite app_nil_r.
  unfold consumed in Hflat. rewrite Hc in Hflat. exact Hflat.
Qed.

(** The labelled words are valid and sorted, like the words they label. *)
Lemma assign_speakers_sorted_valid (ws : list Word) (segs : list DiarSegment)
    (tol : Q) :
  let out := assign_speakers_to_words ws segs tol in
  Forall (fun w => lw_start w < lw_end w) out /\
  StronglySorted lw_starts_before out.
Proof.
  cbv zeta.
  assert (Hof : map word_of (assign_speakers_to_words ws segs tol)
                = List.filter valid_word (sorted_by_start ws)).
  { unfold assign_speakers_to_words.
    rewrite (kept_list_word_of _ _ (interpolate_kept _)), word_of_label_word.
    reflexivity. }
  assert (Hsorted : StronglySorted starts_before
                      (map word_of (assign_speakers_to_words ws segs tol))).
  { rewrite Hof. apply filter_strongly_sorted, sorted_by_start_sorted. }
  assert (Hvalid : Forall (fun w => w_start w < w_end w)
                     (map word_of (assign_speakers_to_words ws segs tol))).
  { rewrite Hof. apply List.Forall_forall. intros w Hw.
    apply filter_In in Hw. destruct Hw as [_ Hw]. unfold valid_word in Hw.
    destruct (Qlt_le_dec (w_start w) (w_end w)); [assumption | discriminate]. }
  clear Hof. induction (assign_speakers_to_words ws segs tol) as [| x l IH].
  - split; constructor.
  - simpl in Hsorted, Hvalid.
    apply StronglySorted_inv in Hsorted. destruct Hsorted as [Hs Hx].
    apply Forall_cons in Hvalid. destruct Hvalid as [Hvx Hvl].
    destruct (IH Hs Hvl) as [IHv IHs].
    split; constructor; try assumption.
    rewrite List.Forall_forall in Hx. apply List.Forall_forall.
    intros y Hy. apply (Hx (word_of y)). apply in_map. exact Hy.
Qed.

(** Turns over sorted valid words: each has a positive length, and they
    come in the order of their starts. *)
Lemma turns_of_sorted_words (gap maxd : Q) (ts : list SpeakerTurn) :
  Forall (turn_ok gap maxd) ts ->
  Forall (fun w => lw_start w < lw_end w) (List.concat (map t_words ts)) ->
  StronglySorted lw_starts_before (List.concat (map t_words ts)) ->
  Forall (fun t => t_start t < t_end t) ts /\
  StronglySorted (fun a b => t_start a <= t_start b) ts.
Proof.
  induction ts as [| t ts IH]; intros Hok Hvalid Hsorted.
  - split; constructor.
  - simpl in Hvalid, Hsorted.
    apply Forall_cons in Hok. destruct Hok as [Ht Hts].
    apply Forall_app in Hvalid. destruct Hvalid as [Hvt Hvts].
    destruct (strongly_sorted_app_inv _ _ _ Hsorted) as (Hst & Hsts & Hcross).
    destruct (IH Hts Hvts Hsts) as [IHpos IHord].
    destruct Ht as ((Hne & _ & _) & Hstart & Hend & _).
    destruct (t_words t) as [| x l] eqn:Hwords; [congruence |].
    unfold first_word in Hstart. simpl in Hstart.
    split; constructor; try assumption.
    + (* the turn ends after it starts *)
      rewrite Hstart, Hend. unfold last_word.
      destruct (lookup_lt_is_Some_2 (x :: l) (length l)) as [b Hb];
        [simpl; lia |].
      rewrite (list_last_lookup _ _ b no_word Hb) by reflexivity.
      rewrite List.Forall_forall in Hvt.
      assert (Hin : In b (x :: l)).
      { apply list_elem_of_In, list_elem_of_lookup. eauto. }
      pose proof (Hvt b Hin) as Hvb.
      destruct Hin as [<- | Hin]; [exact Hvb |].
      apply StronglySorted_inv in Hst. destruct Hst as [_ Hx].
      rewrite List.Forall_forall in Hx. specialize (Hx b Hin).
      unfold lw_starts_before in Hx. lra.
    + (* later turns start no earlier *)
      apply List.Forall_forall. intros t' Ht'. rewrite Hstart.
      rewrite List.Forall_forall in Hts.
      destruct (Hts t' Ht') as ((Hne' & _ & _) & Hstart' & _).
      rewrite Hstart'.
      destruct (t_words t') as [| x' l'] eqn:Hwords'; [congruence |].
      apply (Hcross x x'); [left; reflexivity |].
      apply in_concat. exists (x' :: l'). split; [| left; reflexivity].
      rewrite <- Hwords'. apply in_map. exact Ht'.
Qed.

End MergedFacts.

(** X12. In the transcript built by [merge_transcript_with_diarisation],
    the word lists of the turns concatenate to the transcript's flat word
    list, every turn starts strictly before it ends, and the turns come in
    non-decreasing order of their start times. *)
Theorem merged_turns_ordered (transcript_words : list Word)
    (segs : list DiarSegment)
    (gap_threshold speaker_tolerance max_turn_duration : Q) :
  let merged := merge_transcript_with_diarisation transcript_words segs
                  gap_threshold speaker_tolerance max_turn_duration in
  List.concat (map t_words (turns merged)) = words merged /\
  Forall (fun t => t_start t < t_end t) (turns merged) /\
  StronglySorted (fun a b => t_start a <= t_start b) (turns merged).
Proof.
  cbv zeta. unfold merge_transcript_with_diarisation. simpl.
  pose proof (words_to_turns_concat
                (assign_speakers_to_words transcript_words segs speaker_tolerance)
                gap_threshold max_turn_duration) as Hcat.
  split; [exact Hcat |].
  destruct (assign_speakers_sorted_valid transcript_words segs
              speaker_tolerance) as [Hvalid Hsorted].
  destruct (words_to_turns_shape gap_threshold max_turn_duration
              (assign_speakers_to_words transcript_words segs speaker_tolerance))
    as [Hok _].
  apply (turns_of_sorted_words gap_threshold max_turn_duration);
    [exact Hok | rewrite Hcat; exact Hvalid | rewrite Hcat; exact Hsorted].
Qed.

(* --------------------------------------------------------------------- *)
(** ** Where the labels come from                                          *)
(* --------------------------------------------------------------------- *)

Section LabelFacts.

(** The label is UNKNOWN or the speaker of one of the segments. *)
Definition label_of (segs : list DiarSegment) (speaker : string) : Prop :=
  speaker = UNKNOWN \/ exists s, In s segs /\ seg_speaker s = speaker.

Lemma word_speaker_label_of (word : Word) (segs : list DiarSegment) (tol : Q) :
  label_of segs (word_speaker word segs tol).
Proof.
  unfold word_speaker. cbv zeta.
  set (word_mid := midpoint word).
  destruct (scan_loop_inv word word_mid segs) as [Hov Hnear].
  set (st := fold_left (scan_step word word_mid) segs scan_init) in *.
  assert (Hbest : label_of segs (best_speaker st)).
  { destruct Hov as [(_ & Hsp & _) | (_ & i & s & (Hi & _) & _ & Hsp)].
    - left. exact Hsp.
    - right. exists s. split; [| symmetry; exact Hsp].
      apply list_elem_of_In, list_elem_of_lookup. eauto. }
  destruct (_ && _ && _); [| exact Hbest].
  destruct Hnear as [(_ & -> & _) | (i & s & (Hi & _) & _ & ->)];
    [left; reflexivity |].
  right. exists s. split; [| reflexivity].
  apply list_elem_of_In, list_elem_of_lookup. eauto.
Qed.

Variable P : string -> Prop.

(** Every label of the list, and the speaker the loop remembers, satisfy
    [P]. *)
Definition labels_in (st : list LabelledWord * option string) : Prop :=
  Forall (fun w => P (lw_speaker w)) (fst st) /\
  (forall s, snd st = Some s -> P s).

Lemma forward_step_labels (st : list LabelledWord * option string) (i : nat) :
  labels_in st -> labels_in (forward_step st i).
Proof.
  destruct st as [result last]. unfold labels_in, forward_step. simpl.
  intros [Hall Hlast].
  destruct (result !! i) as [word |] eqn:Hi; [| split; assumption].
  destruct (is_unknown word); simpl.
  - destruct last as [lk |]; [| split; assumption].
    assert (Hset : Forall (fun w => P (lw_speaker w))
                     (<[i := with_speaker word lk]> result)).
    { apply Forall_insert; [exact Hall |]. simpl. apply Hlast. reflexivity. }
    destruct (first_known _ _) as [nk |]; [destruct (nk =? lk) |];
      simpl; split; assumption.
  - split; [exact Hall |]. intros s [= <-].
    rewrite Forall_lookup in Hall. apply (Hall i word Hi).
Qed.

Lemma backward_step_labels (st : list LabelledWord * option string) (i : nat) :
  labels_in st -> labels_in (backward_step st i).
Proof.
  destruct st as [result next]. unfold labels_in, backward_step. simpl.
  intros [Hall Hnext].
  destruct (result !! i) as [word |] eqn:Hi; [| split; assumption].
  destruct (is_unknown word); simpl.
  - destruct next as [nk |]; [| split; assumption].
    simpl. split; [| exact Hnext].
    apply Forall_insert; [exact Hall |]. simpl. apply Hnext. reflexivity.
  - split; [exact Hall |]. intros s [= <-].
    rewrite Forall_lookup in Hall. apply (Hall i word Hi).
Qed.

Lemma fold_labels (step : list LabelledWord * option string -> nat ->
                          list LabelledWord * option string) :
  (forall st i, labels_in st -> labels_in (step st i)) ->
  forall idxs st, labels_in st -> labels_in (fold_left step idxs st).
Proof.
  intros Hstep idxs. induction idxs as [| i idxs IH]; intros st Hst; simpl.
  - exact Hst.
  - apply IH, Hstep, Hst.
Qed.

(** Interpolation invents no label: it only copies the labels it finds. *)
Lemma interpolate_labels (ws : list LabelledWord) :
  Forall (fun w => P (lw_speaker w)) ws ->
  Forall (fun w => P (lw_speaker w)) (_interpolate_unknown_speakers ws).
Proof.
  intros Hall. unfold _interpolate_unknown_speakers.
  destruct ws as [| w0 rest] eqn:Hws; [exact Hall |]. rewrite <- Hws in *.
  assert (Hfw : Forall (fun w => P (lw_speaker w)) (forward_pass ws)).
  { unfold forward_pass. apply fold_labels.
    - apply forward_step_labels.
    - split; [exact Hall | discriminate]. }
  unfold backward_pass. apply fold_labels.
  - apply backward_step_labels.
  - split; [exact Hfw | discriminate].
Qed.

End LabelFacts.

(** X13. [assign_speakers_to_words] invents no speaker: every label it
    returns is UNKNOWN or the speaker of one of the given segments; with
    no segments at all every word is UNKNOWN. *)
Theorem labels_come_from_segments (ws : list Word) (tolerance : Q) :
  (forall segs : list DiarSegment,
      Forall (fun w => label_of segs (lw_speaker w))
        (assign_speakers_to_words ws segs tolerance)) /\
  Forall (fun w => lw_speaker w = UNKNOWN)
    (assign_speakers_to_words ws [] tolerance).
Proof.
  assert (Hgen : forall segs : list DiarSegment,
             Forall (fun w => label_of segs (lw_speaker w))
               (assign_speakers_to_words ws segs tolerance)).
  { intros segs. unfold assign_speakers_to_words.
    apply (interpolate_labels (label_of segs)).
    apply List.Forall_forall. intros w Hw.
    apply in_map_iff in Hw. destruct Hw as (x & <- & _).
    simpl. apply word_speaker_label_of. }
  split; [exact Hgen |].
  eapply Forall_impl; [apply (Hgen []) |].
  intros w [Hw | (s & [] & _)]. exact Hw.
Qed.

(* --------------------------------------------------------------------- *)
(** ** The join of ordinary words                                          *)
(* --------------------------------------------------------------------- *)

Section PlainJoin.

(** Some character of [s] is whitespace. *)
Fixpoint has_space (s : string) : bool :=
  match s with
  | EmptyString => false
  | String c s' => py_isspace c || has_space s'
  end.

(** An ordinary word text: not empty, no whitespace in it. *)
Definition plain_text (s : string) : Prop := s <> "" /\ has_space s = false.

(** What goes in front of a word that is not the first: nothing if the word
    occurs in the closing-punctuation literal, one space otherwise. *)
Definition separator (text : string) : string :=
  if str_in text closing then "" else " ".

Definition piece (w : LabelledWord) : string :=
  separator (lw_text w) +:+ lw_text w.

(** The texts in order, each after the first behind its separator. *)
Definition spaced_join (ws : list LabelledWord) : string :=
  match ws with
  | [] => ""
  | w :: rest => lw_text w +:+ String.concat "" (map piece rest)
  end.

(** The last character of [s] exists and is not whitespace. *)
Fixpoint ends_nonspace (s : string) : bool :=
  match s with
  | EmptyString => false
  | String c EmptyString => negb (py_isspace c)
  | String _ s' => ends_nonspace s'
  end.

Lemma append_cons (c : ascii) (a b : string) :
  String c a +:+ b = String c (a +:+ b).
Proof. reflexivity. Qed.

Lemma append_nil_r (s : string) : s +:+ "" = s.
Proof.
  induction s as [| c s IH]; [reflexivity |].
  rewrite append_cons, IH. reflexivity.
Qed.

Lemma append_assoc (a b c : string) : (a +:+ b) +:+ c = a +:+ (b +:+ c).
Proof.
  induction a as [| x a IH]; [reflexivity |].
  rewrite !append_cons, IH. reflexivity.
Qed.

Lemma concat_empty_cons (x : string) (xs : list string) :
  String.concat "" (x :: xs) = x +:+ String.concat "" xs.
Proof.
  destruct xs as [| y ys]; [| reflexivity].
  change (x = x +:+ ""). rewrite append_nil_r. reflexivity.
Qed.

Lemma concat_empty_app (xs ys : list string) :
  String.concat "" (xs ++ ys) = String.concat "" xs +:+ String.concat "" ys.
Proof.
  induction xs as [| x xs IH]; [reflexivity |].
  change ((x :: xs) ++ ys) with (x :: (xs ++ ys)).
  rewrite !concat_empty_cons, IH, append_assoc. reflexivity.
Qed.

(** The parts the loop collects for words with non-empty texts. *)
Lemma join_parts (rest : list LabelledWord) (parts : list string) :
  parts <> [] ->
  Forall (fun w => lw_text w <> "") rest ->
  fold_left join_step rest parts = parts ++ map piece rest.
Proof.
  revert parts. induction rest as [| w rest IH]; intros parts Hne Hall; simpl.
  - rewrite app_nil_r. reflexivity.
  - apply Forall_cons in Hall. destruct Hall as [Hw Hrest].
    assert (Hstep : join_step parts w = parts ++ [piece w]).
    { unfold join_step, piece, separator.
      destruct (String.eqb_spec (lw_text w) "") as [Hempty | _]; [congruence |].
      destruct parts as [| p0 parts]; [congruence |]. simpl nonempty.
      rewrite andb_true_l, andb_true_r.
      destruct (str_in (lw_text w) closing); [reflexivity |].
      destruct (str_in (lw_text w) opening); reflexivity. }
    rewrite Hstep, IH by (try exact Hrest; destruct parts; discriminate).
    rewrite <- app_assoc. reflexivity.
Qed.

Lemma space_is_space (c : ascii) : (c =? " ")%char = true -> py_isspace c = true.
Proof. intros H. apply Ascii.eqb_eq in H. subst c. reflexivity. Qed.

(** A text without whitespace in front of a string brings no two spaces
    together. *)
Lemma tight_app_plain (t s : string) :
  has_space t = false ->
  str_in two_spaces s = false -> str_in two_spaces (t +:+ s) = false.
Proof.
  intros Ht Hs. induction t as [| c t IH]; [exact Hs |].
  simpl in Ht. apply orb_false_elim in Ht. destruct Ht as [Hc Ht].
  change (String c t +:+ s) with (String c (t +:+ s)).
  rewrite str_in_two_spaces_cons, (IH Ht), orb_false_r.
  unfold starts_two_spaces. destruct (t +:+ s); [reflexivity |].
  apply andb_false_intro1.
  destruct (c =? " ")%char eqn:Heq; [| reflexivity].
  rewrite (space_is_space c Heq) in Hc. discriminate.
Qed.

Lemma tight_piece (w : LabelledWord) (s : string) :
  plain_text (lw_text w) ->
  str_in two_spaces s = false -> str_in two_spaces (piece w +:+ s) = false.
Proof.
  intros [Hne Hplain] Hs. unfold piece, separator.
  pose proof (tight_app_plain (lw_text w) s Hplain Hs) as Htight.
  destruct (str_in (lw_text w) closing); [exact Htight |].
  change ((" " +:+ lw_text w) +:+ s) with (String " " (lw_text w +:+ s)).
  rewrite str_in_two_spaces_cons, Htight, orb_false_r.
  destruct (lw_text w) as [| c t]; [congruence |].
  simpl in Hplain. apply orb_false_elim in Hplain. destruct Hplain as [Hc _].
  simpl. destruct (c =? " ")%char eqn:Heq; [| reflexivity].
  rewrite (space_is_space c Heq) in Hc. discriminate.
Qed.

Lemma ends_nonspace_app (a b : string) :
  ends_nonspace b = true -> ends_nonspace (a +:+ b) = true.
Proof.
  intros Hb. induction a as [| c a IH]; [exact Hb |].
  rewrite append_cons.
  destruct (a +:+ b) eqn:Hab; [discriminate IH | exact IH].
Qed.

Lemma ends_nonspace_plain (t : string) : plain_text t -> ends_nonspace t = true.
Proof.
  intros [Hne Hplain]. induction t as [| c t IH]; [congruence |].
  simpl in Hplain. apply orb_false_elim in Hplain. destruct Hplain as [Hc Ht].
  simpl. destruct t as [| c' t']; [rewrite Hc; reflexivity |].
  apply IH; [discriminate | exact Ht].
Qed.

Lemma rstrip_ends_nonspace (s : string) : ends_nonspace s = true -> rstrip s = s.
Proof.
  induction s as [| c s IH]; [reflexivity |].
  simpl. destruct s as [| c' s'].
  - simpl. intros Hc. apply negb_true_iff in Hc. rewrite Hc. reflexivity.
  - intros Hs. rewrite (IH Hs). reflexivity.
Qed.

(** The pieces behind the first word: no two spaces, and a character other
    than whitespace at the end. *)
Lemma pieces_tight (rest : list LabelledWord) :
  Forall (fun w => plain_text (lw_text w)) rest ->
  str_in two_spaces (String.concat "" (map piece rest)) = false /\
  (rest <> [] -> ends_nonspace (String.concat "" (map piece rest)) = true).
Proof.
  induction rest as [| w rest IH]; intros Hall.
  - split; [reflexivity | congruence].
  - apply Forall_cons in Hall. destruct Hall as [Hw Hrest].
    destruct (IH Hrest) as [Htight Hend].
    change (map piece (w :: rest)) with (piece w :: map piece rest).
    rewrite concat_empty_cons. split.
    + apply tight_piece; assumption.
    + intros _. destruct rest as [| w' rest'].
      * change (String.concat "" (map piece [])) with "".
        rewrite append_nil_r. unfold piece.
        apply ends_nonspace_app, ends_nonspace_plain, Hw.
      * apply ends_nonspace_app, Hend. discriminate.
Qed.

End PlainJoin.

(** X14. For words whose texts are not empty and contain no whitespace,
    [_join_words_smart] returns the texts in order, the first as it is and
    every later one preceded by a single space, or by nothing when it
    occurs in the closing-punctuation literal; nothing is collapsed or
    trimmed away. *)
Theorem join_of_plain_words (ws : list LabelledWord) :
  Forall (fun w => plain_text (lw_text w)) ws ->
  _join_words_smart ws = spaced_join ws.
Proof.
  intros Hall. destruct ws as [| w rest]; [reflexivity |].
  apply Forall_cons in Hall. destruct Hall as [Hw Hrest].
  unfold _join_words_smart, spaced_join.
  assert (Hparts : fold_left join_step (w :: rest) []
                   = lw_text w :: map piece rest).
  { simpl. unfold join_step at 2. simpl.
    destruct Hw as [Hne _].
    destruct (String.eqb_spec (lw_text w) ""); [congruence |].
    rewrite andb_false_r. simpl.
    rewrite join_parts; [reflexivity | discriminate |].
    eapply Forall_impl; [exact Hrest |]. intros x [Hx _]. exact Hx. }
  rewrite Hparts, concat_empty_cons.
  destruct (pieces_tight rest Hrest) as [Htight Hend].
  destruct Hw as [Hne Hplain].
  rewrite collapse_spaces_id by (apply tight_app_plain; assumption).
  unfold strip.
  assert (Hl : lstrip (lw_text w +:+ String.concat "" (map piece rest))
               = lw_text w +:+ String.concat "" (map piece rest)).
  { destruct (lw_text w) as [| c t]; [congruence |].
    simpl in Hplain. apply orb_false_elim in Hplain. destruct Hplain as [Hc _].
    rewrite append_cons. simpl. rewrite Hc. reflexivity. }
  rewrite Hl. apply rstrip_ends_nonspace.
  destruct rest as [| w' rest'].
  - change (String.concat "" (map piece [])) with "".
    rewrite append_nil_r. apply ends_nonspace_plain. split; assumption.
  - apply ends_nonspace_app, Hend. discriminate.
Qed.

Lemma join_of_plain_words_witness :
  _join_words_smart
    [mkLabelled "Well" 0 1 "A"; mkLabelled "," 1 1.1 "A";
     mkLabelled "yes" 1.2 2 "A"; mkLabelled "!" 2 2.1 "A"]
  = spaced_join
    [mkLabelled "Well" 0 1 "A"; mkLabelled "," 1 1.1 "A";
     mkLabelled "yes" 1.2 2 "A"; mkLabelled "!" 2 2.1 "A"].
Proof.
  apply join_of_plain_words.
  repeat constructor; discriminate.
Defined.

Example spaced_join_punctuation :
  spaced_join
    [mkLabelled "Well" 0 1 "A"; mkLabelled "," 1 1.1 "A";
     mkLabelled "yes" 1.2 2 "A"; mkLabelled "!" 2 2.1 "A"]
  = "Well, yes!".
Proof. vm_compute. reflexivity. Qed.

End Merge.

(* ===================================================================== *)
(** * Merging of diarisation segments ([diarisation.py])                   *)
(* ===================================================================== *)

Module Diarisation.

Import Merge.

Local Open Scope Q_scope.
Local Open Scope string_scope.
Local Open Scope list_scope.

(** [seg.speaker == current.speaker and
     seg.start <= current.end + gap_threshold] *)
Definition joins (gap_threshold : Q) (current seg : DiarSegment) : bool :=
  String.eqb (seg_speaker seg) (seg_speaker current) &&
  (if Qlt_le_dec (seg_end current + gap_threshold) (seg_start seg)
   then false else true).

(** One round of the loop over [segments[1:]]; the state is the list
    [merged] and the segment [current]. *)
Definition merge_step (gap_threshold : Q)
    (st : list DiarSegment * DiarSegment) (seg : DiarSegment)
    : list DiarSegment * DiarSegment :=
  let '(merged, current) := st in
  if joins gap_threshold current seg
  then (merged,
        mkSeg (seg_start current) (py_max (seg_end current) (seg_end seg))
          (seg_speaker current))
  else (merged ++ [current], seg).

Definition _merge_overlapping_segments (segments : list DiarSegment)
    (gap_threshold : Q) : list DiarSegment :=
  match segments with
  | [] => segments
  | first :: rest =>
      let '(merged, current) :=
        fold_left (merge_step gap_threshold) rest ([], first) in
      merged ++ [current]
  end.

(** The output segment [o] stands for the input segment [s]: same speaker,
    and the time span of [s] lies inside that of [o]. *)
Definition covers (o s : DiarSegment) : Prop :=
  seg_speaker o = seg_speaker s /\
  seg_start o <= seg_start s /\ seg_end s <= seg_end o.

Definition by_start (a b : DiarSegment) : Prop := seg_start a <= seg_start b.

Example merge_three_segments :
  _merge_overlapping_segments
    [mkSeg 0 1 "SPEAKER_00"; mkSeg 1.2 2 "SPEAKER_00"; mkSeg 2.1 3 "SPEAKER_01"]
    0.5
  = [mkSeg 0 2 "SPEAKER_00"; mkSeg 2.1 3 "SPEAKER_01"].
Proof. reflexivity. Qed.

Section MergeFacts.

Variable gap_threshold : Q.

Definition apart (a b : DiarSegment) : Prop := joins gap_threshold a b = false.

Lemma joins_same_start (a b b' : DiarSegment) :
  seg_speaker b = seg_speaker b' -> seg_start b = seg_start b' ->
  joins gap_threshold a b = joins gap_threshold a b'.
Proof. unfold joins. intros -> ->. reflexivity. Qed.

Lemma adjacent_prefix {A} (R : A -> A -> Prop) (l : list A) (x : A) :
  adjacent R (l ++ [x]) -> adjacent R l.
Proof.
  intros H i a b Ha Hb. apply (H i a b).
  - rewrite lookup_app_l; [exact Ha | apply lookup_lt_Some in Ha; lia].
  - rewrite lookup_app_l; [exact Hb | apply lookup_lt_Some in Hb; lia].
Qed.

Lemma adjacent_last {A} (R : A -> A -> Prop) (l : list A) (x : A) :
  adjacent R (l ++ [x]) ->
  forall i a, l !! i = Some a -> S i = length l -> R a x.
Proof.
  intros H i a Ha Hlen. apply (H i a x).
  - rewrite lookup_app_l; [exact Ha | lia].
  - rewrite lookup_app_r by lia.
    replace (S i - length l)%nat with 0%nat by lia. reflexivity.
Qed.

Lemma merge_loop_apart (rest : list DiarSegment) :
  forall merged current,
    adjacent apart (merged ++ [current]) ->
    adjacent apart
      (fst (fold_left (merge_step gap_threshold) rest (merged, current))
       ++ [snd (fold_left (merge_step gap_threshold) rest (merged, current))]).
Proof.
  induction rest as [| seg rest IH]; intros merged current Hadj; [exact Hadj |].
  cbn [fold_left]. unfold merge_step at 2 4.
  destruct (joins gap_threshold current seg) eqn:Hj; apply IH.
  - apply adjacent_snoc; [apply (adjacent_prefix _ _ _ Hadj) |].
    intros i a Ha Hlen. unfold apart.
    rewrite (joins_same_start a _ current) by reflexivity.
    apply (adjacent_last _ _ _ Hadj i a Ha Hlen).
  - apply adjacent_snoc; [exact Hadj |].
    intros i a Ha Hlen. rewrite length_app in Hlen. simpl in Hlen.
    rewrite lookup_app_r in Ha by lia.
    replace (i - length merged)%nat with 0%nat in Ha by lia.
    injection Ha as <-. exact Hj.
Qed.

Lemma merge_loop_fixed (rest : list DiarSegment) :
  forall merged current,
    adjacent apart (current :: rest) ->
    fst (fold_left (merge_step gap_threshold) rest (merged, current))
    ++ [snd (fold_left (merge_step gap_threshold) rest (merged, current))]
    = merged ++ current :: rest.
Proof.
  induction rest as [| seg rest IH]; intros merged current Hadj;
    [reflexivity |].
  cbn [fold_left]. unfold merge_step at 2 4.
  assert (Hj : joins gap_threshold current seg = false)
    by (apply (Hadj 0%nat); reflexivity).
  rewrite Hj, IH, <- app_assoc; [reflexivity |].
  intros i a b Ha Hb. apply (Hadj (S i)); assumption.
Qed.

Lemma merge_output (segments : list DiarSegment) :
  _merge_overlapping_segments segments gap_threshold
  = match segments with
    | [] => []
    | first :: rest =>
        fst (fold_left (merge_step gap_threshold) rest ([], first))
        ++ [snd (fold_left (merge_step gap_threshold) rest ([], first))]
    end.
Proof.
  destruct segments as [| first rest]; [reflexivity |].
  unfold _merge_overlapping_segments.
  destruct (fold_left _ rest _) as [merged current]. reflexivity.
Qed.

Lemma merge_apart (segments : list DiarSegment) :
  adjacent apart (_merge_overlapping_segments segments gap_threshold).
Proof.
  rewrite merge_output. destruct segments as [| first rest].
  - intros i a b Ha. discriminate.
  - apply merge_loop_apart. intros [| i] a b Ha Hb; discriminate.
Qed.

Lemma py_max_bounds (a b : Q) : a <= py_max a b /\ b <= py_max a b.
Proof. unfold py_max. destruct (Qlt_le_dec a b); split; lra. Qed.

Lemma covers_in_snoc (l : list DiarSegment) (x x' s : DiarSegment) :
  (forall t, covers x t -> covers x' t) ->
  (exists o, In o (l ++ [x]) /\ covers o s) ->
  exists o, In o (l ++ [x']) /\ covers o s.
Proof.
  intros Hx (o & Ho & Hc). apply in_app_or in Ho. destruct Ho as [Ho | [<- | []]].
  - exists o. split; [apply in_or_app; left; exact Ho | exact Hc].
  - exists x'. split; [apply in_or_app; right; left; reflexivity | apply Hx, Hc].
Qed.

Lemma merge_loop_covers (rest : list DiarSegment) :
  forall merged current done,
    (forall s, In s done -> exists o, In o (merged ++ [current]) /\ covers o s) ->
    StronglySorted by_start (current :: rest) ->
    forall s, In s (done ++ rest) ->
      exists o,
        In o (fst (fold_left (merge_step gap_threshold) rest (merged, current))
              ++ [snd (fold_left (merge_step gap_threshold) rest
                         (merged, current))]) /\
        covers o s.
Proof.
  induction rest as [| seg rest IH]; intros merged current done Hdone Hsorted s Hs.
  - rewrite app_nil_r in Hs. apply Hdone, Hs.
  - cbn [fold_left]. unfold merge_step at 2 4.
    apply StronglySorted_inv in Hsorted. destruct Hsorted as [Hrest Hcur].
    apply StronglySorted_inv in Hrest. destruct Hrest as [Hrest Hseg].
    apply Forall_cons in Hcur. destruct Hcur as [Hcs Hcur].
    unfold by_start in Hcs.
    replace (done ++ seg :: rest) with ((done ++ [seg]) ++ rest) in Hs
      by (rewrite <- app_assoc; reflexivity).
    destruct (joins gap_threshold current seg) eqn:Hj.
    + set (current' := mkSeg (seg_start current)
                         (py_max (seg_end current) (seg_end seg))
                         (seg_speaker current)).
      destruct (py_max_bounds (seg_end current) (seg_end seg)) as [Hm1 Hm2].
      apply (IH merged current' (done ++ [seg])); [| | exact Hs].
      * intros t Ht. apply in_app_or in Ht. destruct Ht as [Ht | [<- | []]].
        -- apply (covers_in_snoc merged current current' t); [| apply Hdone, Ht].
           intros u (Hu1 & Hu2 & Hu3). unfold covers, current'. simpl.
           split; [exact Hu1 | split; [exact Hu2 | lra]].
        -- exists current'. split; [apply in_or_app; right; left; reflexivity |].
           unfold joins in Hj. apply andb_prop in Hj. destruct Hj as [Hsp _].
           apply String.eqb_eq in Hsp. unfold covers, current'. simpl.
           split; [congruence | split; [exact Hcs | exact Hm2]].
      * constructor; [exact Hrest |].
        apply List.Forall_forall. intros t Ht. unfold by_start, current'. simpl.
        rewrite List.Forall_forall in Hcur. apply (Hcur t Ht).
    + apply (IH (merged ++ [current]) seg (done ++ [seg])); [| | exact Hs].
      * intros t Ht. apply in_app_or in Ht. destruct Ht as [Ht | [<- | []]].
        -- destruct (Hdone t Ht) as (o & Ho & Hc). exists o.
           split; [apply in_or_app; left; exact Ho | exact Hc].
        -- exists seg. split; [apply in_or_app; right; left; reflexivity |].
           unfold covers. repeat split; lra.
      * constructor; assumption.
Qed.

End MergeFacts.

(** X21. In the output of [_merge_overlapping_segments] no segment could be
    merged into the one before it (another speaker, or a start more than
    [gap_threshold] after its end), so merging the output once more changes
    nothing. *)
Theorem merged_segments_are_final (segments : list DiarSegment)
    (gap_threshold : Q) :
  let out := _merge_overlapping_segments segments gap_threshold in
  adjacent (fun a b => joins gap_threshold a b = false) out /\
  _merge_overlapping_segments out gap_threshold = out.
Proof.
  cbv zeta. pose proof (merge_apart gap_threshold segments) as Hapart.
  split; [exact Hapart |].
  destruct (_merge_overlapping_segments segments gap_threshold)
    as [| first rest] eqn:Hout; [reflexivity |].
  rewrite merge_output. apply (merge_loop_fixed gap_threshold rest []), Hapart.
Qed.

(** X22. When the input is ordered by start time, every input segment is
    inside an output segment of the same speaker: that one starts no later
    and ends no earlier. *)
Theorem merged_segments_cover_input (segments : list DiarSegment)
    (gap_threshold : Q) (s : DiarSegment) :
  StronglySorted by_start segments -> In s segments ->
  exists o, In o (_merge_overlapping_segments segments gap_threshold) /\
            covers o s.
Proof.
  intros Hsorted Hs. rewrite merge_output.
  destruct segments as [| first rest]; [destruct Hs |].
  apply (merge_loop_covers gap_threshold rest [] first [first]).
  - intros t [Ht | []]. subst t. exists first. split; [left; reflexivity |].
    unfold covers. repeat split; lra.
  - exact Hsorted.
  - exact Hs.
Qed.

Lemma merged_segments_cover_input_witness :
  exists o,
    In o (_merge_overlapping_segments
            [mkSeg 0 1 "SPEAKER_00"; mkSeg 1.2 2 "SPEAKER_00";
             mkSeg 2.1 3 "SPEAKER_01"] 0.5) /\
    covers o (mkSeg 1.2 2 "SPEAKER_00").
Proof.
  apply merged_segments_cover_input.
  - repeat constructor; vm_compute; discriminate.
  - right. left. reflexivity.
Defined.

End Diarisation.

(* ===================================================================== *)
(** * The transcript emitter ([muesli_backend.py], [TranscriptEmitter])    *)
(* ===================================================================== *)

Module Emitter.

Import Merge.

Local Open Scope Q_scope.
Local Open Scope string_scope.
Local Open Scope list_scope.

(** The JSON lines written by [emit_jsonl], in the order they are written.
    [stream] is the [stream_name] the call was given ([null] is [None]). *)
Inductive event :=
| Speakers (known : list string)
| Segment (speaker speaker_id : string) (stream : option string)
          (t0 t1 : Q) (text : string)
| Partial (speaker_id : string) (stream : option string) (t0 : Q) (text : string).

(** The tuple [(last_turn.speaker, last_turn.start, last_turn.text)]. *)
Definition fingerprint : Type := string * Q * string.

(** The fields of [TranscriptEmitter] that [emit_transcript] reads and
    writes; the two locks are left out, a call runs as a whole. *)
Record TranscriptEmitter := mkEmitter {
  finalize_lag : Q;
  last_emitted_t1_by_stream : gmap string Q;
  last_partial_by_stream : gmap string (option fingerprint);
  seen_speakers : gset string
}.

(** [TranscriptEmitter.__init__] *)
Definition new_emitter (lag : Q) : TranscriptEmitter :=
  {| finalize_lag := lag;
     last_emitted_t1_by_stream := ∅;
     last_partial_by_stream := ∅;
     seen_speakers := ∅ |}.

(** Truth value of [stream_name]: [None] and the empty string are false. *)
Definition named (stream_name : option string) : bool :=
  match stream_name with
  | Some s => negb (s =? "")
  | None => false
  end.

(** [stream_key = stream_name or "default"] *)
Definition stream_key (stream_name : option string) : string :=
  if named stream_name then default "" stream_name else "default".

(** [f"{stream_name}:{turn.speaker}" if stream_name else turn.speaker] *)
Definition speaker_id_of (stream_name : option string) (speaker : string)
    : string :=
  if named stream_name then default "" stream_name +:+ ":" +:+ speaker
  else speaker.

(** [self._last_emitted_t1_by_stream.get(stream_key, 0.0)] *)
Definition last_emitted_t1_of (self : TranscriptEmitter) (key : string) : Q :=
  default 0 (last_emitted_t1_by_stream self !! key).

(** [self._last_partial_by_stream.get(stream_key)] *)
Definition last_partial_of (self : TranscriptEmitter) (key : string)
    : option fingerprint :=
  default None (last_partial_by_stream self !! key).

(** The first loop over the turns: new speaker ids go into the set. *)
Fixpoint note_speakers (stream_name : option string) (ts : list SpeakerTurn)
    (seen : gset string) (new_speakers : bool) : gset string * bool :=
  match ts with
  | [] => (seen, new_speakers)
  | turn :: rest =>
      let speaker_id := speaker_id_of stream_name (t_speaker turn) in
      if decide (speaker_id ∈ seen)
      then note_speakers stream_name rest seen new_speakers
      else note_speakers stream_name rest ({[speaker_id]} ∪ seen) true
  end.

(** [sorted(self._seen_speakers)]: the ids in the order of their characters. *)
Fixpoint insert_sorted (s : string) (l : list string) : list string :=
  match l with
  | [] => [s]
  | x :: l' => if String.leb s x then s :: l else x :: insert_sorted s l'
  end.

Definition sorted_speakers (seen : gset string) : list string :=
  fold_right insert_sorted [] (elements seen).

(** [cutoff = current_duration if finalize
             else max(0.0, current_duration - self._finalize_lag)],
    the difference as an exact number ([Emitter64.cutoff_of] rounds it). *)
Definition cutoff_of (self : TranscriptEmitter) (current_duration : Q)
    (finalize : bool) : Q :=
  if finalize then current_duration
  else py_max 0 (current_duration - finalize_lag self).

(** [turn.end <= cutoff and turn.end > last_emitted_t1 + 0.02], the sum as
    an exact number ([Emitter64.final_now] rounds it). *)
Definition final_now (turn : SpeakerTurn) (cutoff last_emitted_t1 : Q) : bool :=
  (if Qlt_le_dec cutoff (t_end turn) then false else true)
  && (if Qlt_le_dec (last_emitted_t1 + 0.02) (t_end turn) then true else false).

(** The second loop over the turns: the segments written and the value of
    the local [last_emitted_t1] after it. *)
Fixpoint emit_segments (stream_name : option string) (cutoff : Q)
    (ts : list SpeakerTurn) (last_emitted_t1 : Q) : Q * list event :=
  match ts with
  | [] => (last_emitted_t1, [])
  | turn :: rest =>
      if final_now turn cutoff last_emitted_t1 then
        let ev := Segment (t_speaker turn)
                    (speaker_id_of stream_name (t_speaker turn))
                    stream_name (t_start turn) (t_end turn) (t_text turn) in
        let '(last, evs) :=
          emit_segments stream_name cutoff rest
            (py_max last_emitted_t1 (t_end turn)) in
        (last, ev :: evs)
      else emit_segments stream_name cutoff rest last_emitted_t1
  end.

(** [partial != last_partial] on a tuple and a tuple or [None]. *)
Definition differs (partial : fingerprint) (last_partial : option fingerprint)
    : bool :=
  match last_partial with
  | None => true
  | Some (speaker, start, text) =>
      let '(speaker', start', text') := partial in
      negb ((speaker' =? speaker) && Qeq_bool start' start && (text' =? text))
  end.

(** The partial block: the event written, if any, and the new
    [last_partial]. *)
Definition emit_partial (stream_name : option string) (cutoff : Q)
    (finalize : bool) (last_turn : SpeakerTurn)
    (last_partial : option fingerprint) : option fingerprint * list event :=
  if finalize then (last_partial, [])
  else if Qlt_le_dec cutoff (t_end last_turn) then
    let partial := (t_speaker last_turn, t_start last_turn, t_text last_turn) in
    if differs partial last_partial then
      (Some partial,
       [Partial (speaker_id_of stream_name (t_speaker last_turn)) stream_name
          (t_start last_turn) (t_text last_turn)])
    else (last_partial, [])
  else (last_partial, []).

(** [TranscriptEmitter.emit_transcript(merged, current_duration, finalize,
    stream_name)]: the emitter after the call and the events written. *)
Definition emit_transcript (self : TranscriptEmitter) (merged : MergedTranscript)
    (current_duration : Q) (finalize : bool) (stream_name : option string)
    : TranscriptEmitter * list event :=
  match turns merged with
  | [] => (self, [])
  | turn0 :: others =>
      let key := stream_key stream_name in
      let last_emitted_t1 := last_emitted_t1_of self key in
      let last_partial := last_partial_of self key in
      let '(seen, new_speakers) :=
        note_speakers stream_name (turns merged) (seen_speakers self) false in
      let speakers_out :=
        if new_speakers then [Speakers (sorted_speakers seen)] else [] in
      let cutoff := cutoff_of self current_duration finalize in
      let '(last_emitted_t1, segments_out) :=
        emit_segments stream_name cutoff (turns merged) last_emitted_t1 in
      let last_turn := List.last others turn0 in
      let '(last_partial, partial_out) :=
        emit_partial stream_name cutoff finalize last_turn last_partial in
      ({| finalize_lag := finalize_lag self;
          last_emitted_t1_by_stream :=
            <[key := last_emitted_t1]> (last_emitted_t1_by_stream self);
          last_partial_by_stream :=
            <[key := last_partial]> (last_partial_by_stream self);
          seen_speakers := seen |},
       speakers_out ++ segments_out ++ partial_out)
  end.

(** One call of [emit_transcript]. *)
Record call := mkCall {
  c_merged : MergedTranscript;
  c_current_duration : Q;
  c_finalize : bool;
  c_stream_name : option string
}.

Definition emit_call (self : TranscriptEmitter) (c : call)
    : TranscriptEmitter * list event :=
  emit_transcript self (c_merged c) (c_current_duration c) (c_finalize c)
    (c_stream_name c).

(** A sequence of calls on one emitter, and everything they write. *)
Fixpoint run (self : TranscriptEmitter) (calls : list call)
    : TranscriptEmitter * list event :=
  match calls with
  | [] => (self, [])
  | c :: rest =>
      let '(self1, out1) := emit_call self c in
      let '(self2, out2) := run self1 rest in
      (self2, out1 ++ out2)
  end.

(** The [t1] values of the segment events of the stream with key [key]. *)
Definition segment_t1s (key : string) (evs : list event) : list Q :=
  flat_map
    (fun e =>
       match e with
       | Segment _ _ stream _ t1 _ =>
           if stream_key stream =? key then [t1] else []
       | _ => []
       end)
    evs.

(** [b] is more than the slack of 0.02 above [a]. *)
Definition gap (a b : Q) : Prop := a + 0.02 < b.

(** The bound of the specification on one event: a segment ends by [bound]. *)
Definition segment_ends_by (bound : Q) (e : event) : Prop :=
  match e with
  | Segment _ _ _ _ t1 _ => t1 <= bound
  | _ => True
  end.

(* --------------------------------------------------------------------- *)
(** ** Chains of [t1] values                                               *)
(* --------------------------------------------------------------------- *)

Section ChainFacts.







End ChainFacts.

(* --------------------------------------------------------------------- *)
(** ** One call                                                            *)
(* --------------------------------------------------------------------- *)

Section CallFacts.

Lemma final_now_spec (turn : SpeakerTurn) (cutoff last : Q) :
  final_now turn cutoff last = true ->
  t_end turn <= cutoff /\ gap last (t_end turn).
Proof.
  unfold final_now, gap.
  destruct (Qlt_le_dec cutoff (t_end turn)); [discriminate |].
  destruct (Qlt_le_dec (last + 0.02) (t_end turn)); [| discriminate].
  intros _. split; assumption.
Qed.





Lemma emit_partial_no_segment (stream_name : option string) (cutoff : Q)
    (finalize : bool) (last_turn : SpeakerTurn) (lp : option fingerprint)
    (key : string) (bound : Q) :
  let res := emit_partial stream_name cutoff finalize last_turn lp in
  segment_t1s key (snd res) = [] /\ Forall (segment_ends_by bound) (snd res).
Proof.
  unfold emit_partial. destruct finalize; [split; [reflexivity | constructor] |].
  destruct (Qlt_le_dec cutoff (t_end last_turn));
    [| split; [reflexivity | constructor]].
  destruct (differs _ lp); split; try reflexivity; repeat constructor.
Qed.


End CallFacts.

(* --------------------------------------------------------------------- *)
(** ** Sequences of calls                                                  *)
(* --------------------------------------------------------------------- *)



(** C8. A call of [emit_transcript] whose merged transcript has no turns
    writes no event and leaves the emitter as it was, whatever [finalize],
    [current_duration] and [stream_name] are. *)
Theorem empty_turns_is_noop (self : TranscriptEmitter)
    (merged : MergedTranscript) (current_duration : Q) (finalize : bool)
    (stream_name : option string) :
  turns merged = [] ->
  emit_transcript self merged current_duration finalize stream_name = (self, []).
Proof. intros Hturns. unfold emit_transcript. rewrite Hturns. reflexivity. Qed.

Lemma empty_turns_is_noop_witness :
  emit_transcript (new_emitter 5) (mkMerged [] [] []) 12 true (Some "system")
  = (new_emitter 5, []).
Proof. apply empty_turns_is_noop. reflexivity. Defined.

(* --------------------------------------------------------------------- *)
(** ** More on one call                                                    *)
(* --------------------------------------------------------------------- *)

Section MoreCallFacts.

(** The speaker ids of the turns, as the first loop forms them. *)
Definition turn_ids (stream_name : option string) (ts : list SpeakerTurn)
    : list string :=
  map (fun t => speaker_id_of stream_name (t_speaker t)) ts.

(** The segment event of a turn. *)
Definition segment_event (stream_name : option string) (turn : SpeakerTurn)
    : event :=
  Segment (t_speaker turn) (speaker_id_of stream_name (t_speaker turn))
    stream_name (t_start turn) (t_end turn) (t_text turn).

(** The segment events among [evs]. *)
Definition segments_of (evs : list event) : list event :=
  List.filter (fun e => match e with Segment _ _ _ _ _ _ => true | _ => false end)
    evs.

Lemma note_speakers_seen (stream_name : option string) (ts : list SpeakerTurn)
    (seen : gset string) (b : bool) :
  let res := note_speakers stream_name ts seen b in
  fst res = seen ∪ list_to_set (turn_ids stream_name ts) /\
  (snd res = true <->
   b = true \/ exists id, In id (turn_ids stream_name ts) /\ id ∉ seen).
Proof.
  cbv zeta. revert seen b.
  induction ts as [| turn rest IH]; intros seen b; simpl.
  - split; [rewrite union_empty_r_L; reflexivity |].
    split; [auto | intros [H | (id & [] & _)]; exact H].
  - destruct (decide (speaker_id_of stream_name (t_speaker turn) ∈ seen))
      as [Hin | Hnew].
    + destruct (IH seen b) as [Hset Hflag].
      split.
      { rewrite Hset. apply set_eq. intros x.
        change (list_to_set (turn_ids stream_name (turn :: rest)) : gset string)
          with ({[speaker_id_of stream_name (t_speaker turn)]}
                ∪ list_to_set (turn_ids stream_name rest) : gset string).
        rewrite !elem_of_union, elem_of_singleton.
        split; [tauto | intros [H | [-> | H]]; auto]. }
      rewrite Hflag. split.
      * intros [H | (id & Hid & Hno)]; [left; exact H |].
        right. exists id. split; [right; exact Hid | exact Hno].
      * intros [H | (id & [<- | Hid] & Hno)]; [left; exact H | contradiction |].
        right. exists id. split; assumption.
    + destruct (IH ({[speaker_id_of stream_name (t_speaker turn)]} ∪ seen) true)
        as [Hset Hflag].
      split.
      { rewrite Hset. apply set_eq. intros x.
        change (list_to_set (turn_ids stream_name (turn :: rest)) : gset string)
          with ({[speaker_id_of stream_name (t_speaker turn)]}
                ∪ list_to_set (turn_ids stream_name rest) : gset string).
        rewrite !elem_of_union, elem_of_singleton. tauto. }
      rewrite Hflag. split; [| intros _; left; reflexivity].
      intros _. right.
      exists (speaker_id_of stream_name (t_speaker turn)).
      split; [left; reflexivity | exact Hnew].
Qed.





(** The segment loop writes the events of a sub-list of the turns, each
    ending by the cutoff. *)
Lemma emit_segments_sublist (stream_name : option string) (cutoff : Q)
    (ts : list SpeakerTurn) (last : Q) :
  exists chosen,
    sublist chosen ts /\
    snd (emit_segments stream_name cutoff ts last)
    = map (segment_event stream_name) chosen /\
    Forall (fun t => t_end t <= cutoff) chosen.
Proof.
  revert last. induction ts as [| turn rest IH]; intros last; simpl.
  - exists []. repeat split; constructor.
  - destruct (final_now turn cutoff last) eqn:Hnow.
    + destruct (final_now_spec _ _ _ Hnow) as [Hcut _].
      destruct (IH (py_max last (t_end turn))) as (chosen & Hsub & Hevs & Hall).
      destruct (emit_segments stream_name cutoff rest _) as [last' evs].
      simpl in *. exists (turn :: chosen).
      split; [constructor; exact Hsub |].
      split; [rewrite Hevs; reflexivity | constructor; assumption].
    + destruct (IH last) as (chosen & Hsub & Hevs & Hall).
      exists chosen. split; [constructor; exact Hsub |]. split; assumption.
Qed.



End MoreCallFacts.


(* --------------------------------------------------------------------- *)
(** ** Streams, speakers and partials                                      *)
(* --------------------------------------------------------------------- *)

Section StreamFacts.

(** The event is not a [speakers] event. *)
Definition not_speakers (e : event) : Prop :=
  match e with Speakers _ => False | _ => True end.

(** The partial events of the stream with key [key]. *)
Definition partials_of (key : string) (evs : list event) : list event :=
  List.filter
    (fun e => match e with
              | Partial _ stream _ _ => stream_key stream =? key
              | _ => false
              end)
    evs.

(** Two partial events that show the same thing. *)
Definition same_partial (e1 e2 : event) : Prop :=
  match e1, e2 with
  | Partial id1 stream1 t1 text1, Partial id2 stream2 t2 text2 =>
      id1 = id2 /\ stream1 = stream2 /\ t1 == t2 /\ text1 = text2
  | _, _ => False
  end.

Lemma append_inj_l (p a b : string) : p +:+ a = p +:+ b -> a = b.
Proof.
  induction p as [| c p IH]; [auto |].
  intros H. injection H as H. apply IH, H.
Qed.

Lemma speaker_id_of_inj (stream_name : option string) (a b : string) :
  speaker_id_of stream_name a = speaker_id_of stream_name b -> a = b.
Proof.
  unfold speaker_id_of. destruct (named stream_name); [| auto].
  intros H. apply append_inj_l in H. apply (append_inj_l ":") in H. exact H.
Qed.

Lemma insert_sorted_perm (x : string) (l : list string) :
  Permutation (insert_sorted x l) (x :: l).
Proof.
  induction l as [| y l IH]; simpl; [reflexivity |].
  destruct (String.leb x y); [reflexivity |].
  rewrite IH. apply perm_swap.
Qed.

Lemma insert_sorted_sorted (x : string) (l : list string) :
  Sorted (fun a b => String.leb a b = true) l ->
  Sorted (fun a b => String.leb a b = true) (insert_sorted x l).
Proof.
  induction l as [| y l IH]; intros Hs; simpl.
  - repeat constructor.
  - destruct (String.leb x y) eqn:Hxy.
    + constructor; [exact Hs | constructor; exact Hxy].
    + apply Sorted_inv in Hs. destruct Hs as [Hl Hy].
      constructor; [apply IH, Hl |].
      assert (Hyx : String.leb y x = true).
      { destruct (String.leb_total x y) as [H | H]; [congruence | exact H]. }
      destruct l as [| z l]; simpl; [constructor; exact Hyx |].
      destruct (String.leb x z); constructor; [exact Hyx |].
      apply HdRel_inv in Hy. exact Hy.
Qed.

Lemma sorted_speakers_spec (seen : gset string) :
  Sorted (fun a b => String.leb a b = true) (sorted_speakers seen) /\
  Permutation (sorted_speakers seen) (elements seen).
Proof.
  unfold sorted_speakers. induction (elements seen) as [| x l [IHs IHp]]; simpl.
  - split; [constructor | reflexivity].
  - split; [apply insert_sorted_sorted, IHs |].
    rewrite insert_sorted_perm, IHp. reflexivity.
Qed.

Lemma emit_segments_no_speakers (stream_name : option string) (cutoff : Q)
    (ts : list SpeakerTurn) (last : Q) (key : string) :
  Forall not_speakers (snd (emit_segments stream_name cutoff ts last)) /\
  partials_of key (snd (emit_segments stream_name cutoff ts last)) = [].
Proof.
  destruct (emit_segments_sublist stream_name cutoff ts last)
    as (chosen & _ & -> & _).
  induction chosen as [| t chosen [IH1 IH2]]; simpl.
  - split; [constructor | reflexivity].
  - split; [constructor; [exact I | exact IH1] | exact IH2].
Qed.

Lemma emit_partial_no_speakers (stream_name : option string) (cutoff : Q)
    (finalize : bool) (last_turn : SpeakerTurn) (lp : option fingerprint) :
  Forall not_speakers
    (snd (emit_partial stream_name cutoff finalize last_turn lp)).
Proof.
  unfold emit_partial. destruct finalize; [constructor |].
  destruct (Qlt_le_dec _ _); [| constructor].
  destruct (differs _ lp); repeat constructor.
Qed.

End StreamFacts.

(** X18. A call for one stream leaves what the emitter records for every
    other stream key untouched (its last emitted [t1] and its last partial
    fingerprint), keeps [finalize_lag], and only adds to the set of seen
    speakers: afterwards it holds the old ids and the ids of the call's
    turns, nothing else. *)
Theorem call_touches_its_stream_only (self : TranscriptEmitter)
    (merged : MergedTranscript) (current_duration : Q) (finalize : bool)
    (stream_name : option string) :
  let self1 :=
    fst (emit_transcript self merged current_duration finalize stream_name) in
  (forall key, key <> stream_key stream_name ->
     last_emitted_t1_of self1 key = last_emitted_t1_of self key /\
     last_partial_of self1 key = last_partial_of self key) /\
  finalize_lag self1 = finalize_lag self /\
  seen_speakers self1
  = seen_speakers self ∪ list_to_set (turn_ids stream_name (turns merged)).
Proof.
  cbv zeta. unfold emit_transcript.
  destruct (turns merged) as [| turn0 others] eqn:Hturns.
  - simpl. repeat split. rewrite union_empty_r_L. reflexivity.
  - pose proof (note_speakers_seen stream_name (turn0 :: others)
                  (seen_speakers self) false) as [Hseen _].
    destruct (note_speakers _ _ _ _) as [seen new_speakers].
    destruct (emit_segments _ _ _ _) as [last1 segments_out].
    destruct (emit_partial _ _ _ _ _) as [lp1 partial_out].
    cbn [fst] in *. split; [| split; [reflexivity | exact Hseen]].
    intros key Hkey. unfold last_emitted_t1_of, last_partial_of. simpl.
    rewrite !lookup_insert_ne by congruence. split; reflexivity.
Qed.

(** X19. A [speakers] event is written exactly when a turn of the call has
    a speaker id not seen before; it is then the first event of the call
    and the only one of its kind, and it lists every id seen so far once,
    in the order of the strings. *)
Theorem speakers_event_when_new (self : TranscriptEmitter)
    (merged : MergedTranscript) (current_duration : Q) (finalize : bool)
    (stream_name : option string) :
  let res := emit_transcript self merged current_duration finalize stream_name in
  let ids := turn_ids stream_name (turns merged) in
  ((forall id, In id ids -> id ∈ seen_speakers self) ->
   Forall not_speakers (snd res)) /\
  ((exists id, In id ids /\ id ∉ seen_speakers self) ->
   exists known rest,
     snd res = Speakers known :: rest /\ Forall not_speakers rest /\
     Sorted (fun a b => String.leb a b = true) known /\
     Permutation known (elements (seen_speakers (fst res)))).
Proof.
  cbv zeta. unfold emit_transcript.
  destruct (turns merged) as [| turn0 others] eqn:Hturns.
  - simpl. split; [constructor |]. intros (id & [] & _).
  - pose proof (note_speakers_seen stream_name (turn0 :: others)
                  (seen_speakers self) false) as [_ Hflag].
    destruct (note_speakers _ _ _ _) as [seen new_speakers].
    pose proof (emit_segments_no_speakers stream_name
                  (cutoff_of self current_duration finalize) (turn0 :: others)
                  (last_emitted_t1_of self (stream_key stream_name)) "")
      as [Hsegs _].
    destruct (emit_segments _ _ _ _) as [last1 segments_out].
    pose proof (emit_partial_no_speakers stream_name
                  (cutoff_of self current_duration finalize) finalize
                  (List.last others turn0)
                  (last_partial_of self (stream_key stream_name))) as Hpart.
    destruct (emit_partial _ _ _ _ _) as [lp1 partial_out].
    cbn [fst snd] in *.
    assert (Hrest : Forall not_speakers (segments_out ++ partial_out))
      by (apply Forall_app; split; assumption).
    split.
    + intros Hall. destruct new_speakers; [| exact Hrest].
      destruct (proj1 Hflag eq_refl) as [H | (id & Hid & Hno)];
        [discriminate |].
      exfalso. apply Hno, Hall, Hid.
    + intros Hnew.
      assert (new_speakers = true) as -> by (apply Hflag; right; exact Hnew).
      exists (sorted_speakers seen), (segments_out ++ partial_out).
      split; [reflexivity |]. split; [exact Hrest |].
      apply sorted_speakers_spec.
Qed.

Section PartialFacts.

(** The last partial event written for the stream, if there is one, is the
    one whose fingerprint the emitter has recorded. *)
Definition recorded_partial (key : string) (pre : list event)
    (self : TranscriptEmitter) : Prop :=
  forall i e, pre !! i = Some e -> S i = length pre ->
    exists speaker stream_name t0 text,
      e = Partial (speaker_id_of stream_name speaker) stream_name t0 text /\
      last_partial_of self key = Some (speaker, t0, text).

Definition distinct_neighbours (l : list event) : Prop :=
  adjacent (fun a b => ~ same_partial a b) l.

Lemma differs_spec (partial : fingerprint) (speaker : string) (t0 : Q)
    (text : string) :
  differs partial (Some (speaker, t0, text)) = true ->
  ~ (fst (fst partial) = speaker /\ snd (fst partial) == t0 /\
     snd partial = text).
Proof.
  destruct partial as [[speaker' t0'] text']. unfold differs. simpl.
  intros Hd (-> & Ht & ->). rewrite !String.eqb_refl in Hd.
  apply Qeq_bool_iff in Ht. rewrite Ht in Hd. discriminate.
Qed.

Lemma emit_transcript_partials (key : string) (self : TranscriptEmitter)
    (merged : MergedTranscript) (current_duration : Q) (finalize : bool)
    (stream_name : option string) (pre : list event) :
  distinct_neighbours pre -> recorded_partial key pre self ->
  let res := emit_transcript self merged current_duration finalize stream_name in
  distinct_neighbours (pre ++ partials_of key (snd res)) /\
  recorded_partial key (pre ++ partials_of key (snd res)) (fst res).
Proof.
  intros Hpre Hrec. cbv zeta. unfold emit_transcript.
  destruct (turns merged) as [| turn0 others] eqn:Hturns.
  - simpl. rewrite app_nil_r. split; assumption.
  - destruct (note_speakers _ _ _ _) as [seen new_speakers].
    pose proof (emit_segments_no_speakers stream_name
                  (cutoff_of self current_duration finalize) (turn0 :: others)
                  (last_emitted_t1_of self (stream_key stream_name)) key)
      as [_ Hsegs].
    destruct (emit_segments _ _ _ _) as [last1 segments_out].
    set (lp := last_partial_of self (stream_key stream_name)).
    set (cutoff := cutoff_of self current_duration finalize).
    set (last_turn := List.last others turn0).
    assert (Hcases :
      emit_partial stream_name cutoff finalize last_turn lp = (lp, []) \/
      (emit_partial stream_name cutoff finalize last_turn lp
       = (Some (t_speaker last_turn, t_start last_turn, t_text last_turn),
          [Partial (speaker_id_of stream_name (t_speaker last_turn))
             stream_name (t_start last_turn) (t_text last_turn)]) /\
       differs (t_speaker last_turn, t_start last_turn, t_text last_turn) lp
       = true)).
    { unfold emit_partial. destruct finalize; [left; reflexivity |].
      destruct (Qlt_le_dec cutoff (t_end last_turn)); [| left; reflexivity].
      destruct (differs _ lp) eqn:Hd; [right; split; reflexivity |].
      left. reflexivity. }
    cbn [fst snd] in *.
    assert (Hfilter : forall out,
              partials_of key
                ((if new_speakers then [Speakers (sorted_speakers seen)] else [])
                 ++ segments_out ++ out) = partials_of key out).
    { intros out. unfold partials_of in *.
      rewrite !List.filter_app, Hsegs. destruct new_speakers; reflexivity. }
    assert (Hother : forall lp1, key <> stream_key stream_name ->
              last_partial_of
                {| finalize_lag := finalize_lag self;
                   last_emitted_t1_by_stream :=
                     <[stream_key stream_name := last1]>
                       (last_emitted_t1_by_stream self);
                   last_partial_by_stream :=
                     <[stream_key stream_name := lp1]>
                       (last_partial_by_stream self);
                   seen_speakers := seen |} key
              = last_partial_of self key).
    { intros lp1 Hne. unfold last_partial_of. simpl.
      rewrite lookup_insert_ne by congruence. reflexivity. }
    assert (Hsame : forall lp1,
              last_partial_of
                {| finalize_lag := finalize_lag self;
                   last_emitted_t1_by_stream :=
                     <[stream_key stream_name := last1]>
                       (last_emitted_t1_by_stream self);
                   last_partial_by_stream :=
                     <[stream_key stream_name := lp1]>
                       (last_partial_by_stream self);
                   seen_speakers := seen |} (stream_key stream_name)
              = lp1).
    { intros lp1. unfold last_partial_of. simpl.
      rewrite lookup_insert_eq. reflexivity. }
    destruct Hcases as [-> | [-> Hd]]; cbn [fst snd]; rewrite Hfilter.
    + (* no partial written *)
      simpl. rewrite app_nil_r. split; [exact Hpre |].
      intros i e Hi Hlen.
      destruct (Hrec i e Hi Hlen) as (sp & sn & t0 & tx & He & Hlp).
      exists sp, sn, t0, tx. split; [exact He |].
      destruct (decide (key = stream_key stream_name)) as [-> | Hne].
      * rewrite Hsame. exact Hlp.
      * rewrite Hother by exact Hne. exact Hlp.
    + (* a partial written *)
      unfold partials_of. simpl.
      destruct (String.eqb_spec (stream_key stream_name) key) as [Hkey | Hne].
      * subst key. split.
        -- apply adjacent_snoc; [exact Hpre |].
           intros i e Hi Hlen.
           destruct (Hrec i e Hi Hlen) as (sp & sn & t0 & tx & -> & Hlp).
           fold lp in Hlp. rewrite Hlp in Hd.
           apply differs_spec in Hd. simpl in Hd.
           intros (Hid & <- & Ht & Htx). apply Hd.
           apply speaker_id_of_inj in Hid.
           repeat split; [congruence | symmetry; exact Ht | congruence].
        -- intros i e Hi Hlen. rewrite length_app in Hlen. simpl in Hlen.
           rewrite lookup_app_r in Hi by lia.
           replace (i - length pre)%nat with 0%nat in Hi by lia.
           injection Hi as <-.
           exists (t_speaker last_turn), stream_name, (t_start last_turn),
             (t_text last_turn).
           split; [reflexivity | apply Hsame].
      * rewrite app_nil_r. split; [exact Hpre |].
        intros i e Hi Hlen.
        destruct (Hrec i e Hi Hlen) as (sp & sn & t0 & tx & He & Hlp).
        exists sp, sn, t0, tx. split; [exact He |].
        rewrite Hother by congruence. exact Hlp.
Qed.

Lemma run_partials (key : string) (calls : list call)
    (self : TranscriptEmitter) (pre : list event) :
  distinct_neighbours pre -> recorded_partial key pre self ->
  distinct_neighbours (pre ++ partials_of key (snd (run self calls))) /\
  recorded_partial key (pre ++ partials_of key (snd (run self calls)))
    (fst (run self calls)).
Proof.
  revert self pre. induction calls as [| c rest IH]; intros self pre Hpre Hrec.
  - simpl. rewrite app_nil_r. split; assumption.
  - simpl. unfold emit_call.
    destruct (emit_transcript_partials key self (c_merged c)
                (c_current_duration c)
                (c_finalize c) (c_stream_name c) pre Hpre Hrec) as [H1 H2].
    destruct (emit_transcript self _ _ _ _) as [self1 out1].
    cbn [fst snd] in H1, H2.
    specialize (IH self1 _ H1 H2).
    destruct (run self1 rest) as [self2 out2]. cbn [fst snd] in *.
    unfold partials_of in *. rewrite List.filter_app, app_assoc. exact IH.
Qed.

End PartialFacts.

(** X20. Across any sequence of calls, two consecutive partial events of
    one stream key never show the same thing: they differ in the speaker
    id, the stream name, the start time or the text. *)
Theorem consecutive_partials_differ (self : TranscriptEmitter)
    (calls : list call) (key : string) (i : nat) (e1 e2 : event) :
  partials_of key (snd (run self calls)) !! i = Some e1 ->
  partials_of key (snd (run self calls)) !! S i = Some e2 ->
  ~ same_partial e1 e2.
Proof.
  destruct (run_partials key calls self []) as [Hdistinct _].
  - intros j a b Ha. discriminate.
  - intros j e Hj. discriminate.
  - apply Hdistinct.
Qed.

Definition growing_tail : list call :=
  [mkCall (mkMerged [mkTurn "SPEAKER_00" 1 9 "so we" []] [] []) 12 false None;
   mkCall (mkMerged [mkTurn "SPEAKER_00" 1 9 "so we" []] [] []) 13 false None;
   mkCall (mkMerged [mkTurn "SPEAKER_00" 1 14 "so we could" []] [] []) 15 false
     None].

Lemma consecutive_partials_differ_witness :
  ~ same_partial (Partial "SPEAKER_00" None 1 "so we")
      (Partial "SPEAKER_00" None 1 "so we could").
Proof.
  apply (consecutive_partials_differ (new_emitter 5) growing_tail "default" 0);
    reflexivity.
Defined.

(** ** A run of two calls on one stream *)

Definition turn_ending (t1 : Q) : SpeakerTurn :=
  {| t_speaker := "SPEAKER_00"; t_start := t1 - 1; t_end := t1;
     t_text := "words"; t_words := [] |}.

Definition two_calls : list call :=
  [mkCall (mkMerged [turn_ending 3; turn_ending 8] [] []) 12 false (Some "system");
   mkCall (mkMerged [turn_ending 3; turn_ending 8; turn_ending 10.5] [] []) 16
     false (Some "system")].

Example two_calls_segments :
  segment_t1s "system" (snd (run (new_emitter 5) two_calls)) = [3; 8; 10.5].
Proof. vm_compute. reflexivity. Qed.

Example two_calls_first_segments :
  segment_t1s "system" (snd (run (new_emitter 5) (take 1 two_calls))) = [3].
Proof. vm_compute. reflexivity. Qed.

End Emitter.

(* ===================================================================== *)
(** * Live processing of a stream ([muesli_backend.py], [LiveProcessor])   *)
(* ===================================================================== *)

Module Live.

Import Aligner Merge Emitter.

Local Open Scope Z_scope.
Local Open Scope list_scope.

(** [StreamSnapshot] without its path: the raw file is passed where it is
    read. *)
Record StreamSnapshot := mkSnapshot {
  sample_rate : Z;
  channels : Z;
  size_bytes : Z
}.

(** [snapshot_stream]: the raw file exists from [open_stream_writer] on, and
    every write to it is flushed before [write_aligned_audio] returns, so
    [stat().st_size] is the length of the raw sink. *)
Definition snapshot_stream (writer : StreamWriter) (sample_rate channels : Z)
    : StreamSnapshot :=
  mkSnapshot sample_rate channels (len (pcm writer)).

(** ** [write_wav_from_pcm] *)

Definition CHUNK : Z := 1024 * 1024.

(** The loop [while remaining > 0]: [pcm.read(n)] gives the next [n] bytes
    of the file, fewer at its end; [wav_out] is the data written with
    [writeframes] so far.  Every round but the last reads at least one
    byte, so [remaining] rounds are enough. *)
Fixpoint copy_loop (fuel : nat) (pcm_file : list byte) (remaining : Z)
    (wav_out : list byte) : list byte :=
  match fuel with
  | O => wav_out
  | S fuel =>
      if 0 <? remaining then
        let chunk := slice_to pcm_file (Z.min CHUNK remaining) in
        if len chunk =? 0 then wav_out
        else copy_loop fuel (slice_from pcm_file (len chunk))
               (remaining - len chunk) (wav_out ++ chunk)
      else wav_out
  end.

(** [write_wav_from_pcm(snapshot, temp_dir)]: [None], or the frame data of
    the temporary WAV file.  [pcm_file] is the content of the raw file when
    it is opened.  The snapshot's [channels] is a positive integer (with
    [0] the [%] raises in Python). *)
Definition write_wav_from_pcm (snapshot : StreamSnapshot)
    (pcm_file : list byte) : option (list byte) :=
  if size_bytes snapshot <=? 0 then None
  else
    let bytes_per_frame := BYTES_PER_SAMPLE * channels snapshot in
    let remaining :=
      size_bytes snapshot - size_bytes snapshot mod bytes_per_frame in
    Some (copy_loop (Z.to_nat remaining) pcm_file remaining []).

Example write_wav_from_pcm_drops_odd_bytes :
  write_wav_from_pcm (mkSnapshot 48000 2 7)
    [x01; x02; x03; x04; x05; x06; x07; x08; x09]
  = Some [x01; x02; x03; x04].
Proof. reflexivity. Qed.

Section CopyFacts.

Lemma copy_loop_spec (fuel : nat) :
  forall pcm_file remaining wav_out,
    remaining <= Z.of_nat fuel ->
    copy_loop fuel pcm_file remaining wav_out
    = wav_out ++ slice_to pcm_file remaining.
Proof.
  induction fuel as [| fuel IH]; intros file r acc Hr.
  - simpl. unfold slice_to. replace (Z.to_nat r) with 0%nat by lia.
    simpl. rewrite app_nil_r. reflexivity.
  - cbn [copy_loop]. destruct (0 <? r) eqn:Hpos.
    2:{ apply Z.ltb_ge in Hpos. unfold slice_to.
        replace (Z.to_nat r) with 0%nat by lia.
        simpl. rewrite app_nil_r. reflexivity. }
    apply Z.ltb_lt in Hpos.
    set (n := Z.min CHUNK r).
    assert (Hn : 0 < n <= r) by (unfold n, CHUNK; lia).
    destruct (len (slice_to file n) =? 0) eqn:Hc.
    + apply Z.eqb_eq in Hc.
      assert (file = []) as ->.
      { destruct file as [| b file]; [reflexivity |].
        unfold len, slice_to in Hc.
        destruct (Z.to_nat n) eqn:Hk; [lia |]. simpl in Hc. lia. }
      unfold slice_to. rewrite firstn_nil, app_nil_r. reflexivity.
    + apply Z.eqb_neq in Hc. rewrite IH.
      * rewrite <- app_assoc. f_equal. unfold slice_to, slice_from, len.
        rewrite Nat2Z.id, length_firstn.
        set (c := Nat.min (Z.to_nat n) (length file)).
        replace (firstn (Z.to_nat n) file) with (firstn c file).
        2:{ unfold c.
            destruct (Nat.le_gt_cases (Z.to_nat n) (length file)) as [H | H].
            - rewrite Nat.min_l by lia. reflexivity.
            - rewrite Nat.min_r by lia. rewrite !firstn_all2 by lia.
              reflexivity. }
        rewrite take_take_drop. f_equal. lia.
      * pose proof (len_nonneg (slice_to file n)). lia.
Qed.

Lemma write_aligned_audio_pcm_prefix (w : StreamWriter) (payload : list byte)
    (pts sr ch : Z) :
  exists added, pcm (write_aligned_audio w payload pts sr ch) = pcm w ++ added.
Proof.
  unfold write_aligned_audio.
  destruct payload as [| b0 rest];
    [exists []; rewrite app_nil_r; reflexivity |].
  destruct (_ <=? 0); [exists []; rewrite app_nil_r; reflexivity |].
  unfold align.
  destruct (_ <? _).
  - simpl. rewrite <- app_assoc. eexists. reflexivity.
  - destruct (_ <? _).
    + destruct (_ <=? _); [exists []; rewrite app_nil_r; reflexivity |].
      simpl. eexists. reflexivity.
    + simpl. eexists. reflexivity.
Qed.

Lemma apply_frames_pcm_prefix (sr ch : Z) (frames : list AudioFrame) :
  forall w, exists added, pcm (apply_frames sr ch w frames) = pcm w ++ added.
Proof.
  unfold apply_frames.
  induction frames as [| f frames IH]; intros w; simpl.
  - exists []. rewrite app_nil_r. reflexivity.
  - destruct (IH (write_aligned_audio w (fr_payload f) (fr_pts_us f) sr ch))
      as [added2 ->].
    destruct (write_aligned_audio_pcm_prefix w (fr_payload f) (fr_pts_us f) sr ch)
      as [added1 ->].
    exists (added1 ++ added2). rewrite app_assoc. reflexivity.
Qed.

Lemma apply_frames_keeps (sr ch : Z) (frames : list AudioFrame) :
  1 <= ch ->
  forall w, raw_size_ok ch w /\ sinks_agree w ->
    raw_size_ok ch (apply_frames sr ch w frames) /\
    sinks_agree (apply_frames sr ch w frames).
Proof.
  intros Hch. unfold apply_frames.
  induction frames as [| f frames IH]; intros w [Hraw Hsinks]; simpl.
  - split; assumption.
  - apply IH. split.
    + apply write_aligned_audio_raw_size_ok; assumption.
    + apply write_aligned_audio_sinks_agree, Hsinks.
Qed.

Lemma opened_writer_ok (ch : Z) :
  raw_size_ok ch open_stream_writer /\ sinks_agree open_stream_writer.
Proof. repeat split. Qed.

Lemma slice_to_prefix (a b : list byte) : slice_to (a ++ b) (len a) = a.
Proof.
  unfold slice_to, len. rewrite Nat2Z.id, firstn_app, Nat.sub_diag, firstn_all.
  simpl. apply app_nil_r.
Qed.

End CopyFacts.

(** X23. [write_wav_from_pcm] returns [None] exactly for a snapshot with no
    bytes; otherwise the loop of at most 1 MiB reads copies the first
    [size_bytes - size_bytes % bytes_per_frame] bytes of the raw file, in
    order (all of the file if it is shorter), and nothing else. *)
Theorem wav_from_pcm_copies_whole_frames (snapshot : StreamSnapshot)
    (pcm_file : list byte) :
  write_wav_from_pcm snapshot pcm_file
  = if size_bytes snapshot <=? 0 then None
    else Some (slice_to pcm_file
                 (size_bytes snapshot
                  - size_bytes snapshot mod (BYTES_PER_SAMPLE * channels snapshot))).
Proof.
  unfold write_wav_from_pcm. destruct (size_bytes snapshot <=? 0); [reflexivity |].
  rewrite copy_loop_spec by lia. reflexivity.
Qed.

(** X24. A snapshot is taken of a writer that received any frames, then
    more frames arrive before the raw file is read.  The temporary WAV then
    holds exactly what the writer's own WAV held at the snapshot: no
    partial frame is dropped, and none of the later audio gets in. *)
Theorem temp_wav_is_capture_at_snapshot (sample_rate channels : Z)
    (frames later : list AudioFrame) :
  1 <= channels ->
  let w := apply_frames sample_rate channels open_stream_writer frames in
  let w' := apply_frames sample_rate channels w later in
  write_wav_from_pcm (snapshot_stream w sample_rate channels) (pcm w')
  = if len (pcm w) <=? 0 then None else Some (wav w).
Proof.
  intros Hch. cbv zeta.
  destruct (apply_frames_keeps sample_rate channels frames Hch
              open_stream_writer (opened_writer_ok channels))
    as [Hraw [Hsame _]].
  set (w := apply_frames sample_rate channels open_stream_writer frames) in *.
  destruct (apply_frames_pcm_prefix sample_rate channels later w) as [added ->].
  unfold write_wav_from_pcm, snapshot_stream.
  cbn [Live.size_bytes Live.channels].
  destruct (len (pcm w) <=? 0); [reflexivity |].
  rewrite copy_loop_spec by lia.
  unfold raw_size_ok in Hraw.
  assert (Hmod : len (pcm w) mod (BYTES_PER_SAMPLE * channels) = 0)
    by (rewrite Hraw; apply Z.mod_mul; unfold BYTES_PER_SAMPLE; lia).
  rewrite Hmod, Z.sub_0_r, slice_to_prefix, Hsame. reflexivity.
Qed.

Lemma temp_wav_is_capture_at_snapshot_witness :
  write_wav_from_pcm
    (snapshot_stream
       (apply_frames 48000 1 open_stream_writer [mkFrame [x01; x02; x03] 0])
       48000 1)
    (pcm (apply_frames 48000 1
            (apply_frames 48000 1 open_stream_writer [mkFrame [x01; x02; x03] 0])
            [mkFrame [x04; x05] 100]))
  = Some [x01; x02].
Proof.
  apply (temp_wav_is_capture_at_snapshot 48000 1 [mkFrame [x01; x02; x03] 0]
           [mkFrame [x04; x05] 100]).
  lia.
Defined.

(** ** [LiveProcessor]: when a stream is processed *)

Local Open Scope Q_scope.

(** The fields of [LiveProcessor] that decide when the pipeline runs;
    [_event] is whether the wake-up event is set. *)
Record LiveProcessor := mkLive {
  _live_interval : Q;
  _live_min_seconds : Q;
  _current_duration : Q;
  _last_processed_duration : Q;
  _event : bool
}.

(** [a >= b] and [a < b] on numbers. *)
Definition Qgeb (a b : Q) : bool := if Qlt_le_dec a b then false else true.
Definition Qltb (a b : Q) : bool := if Qlt_le_dec a b then true else false.

(** [notify_duration(duration)] *)
Definition notify_duration (self : LiveProcessor) (duration : Q)
    : LiveProcessor :=
  let wake :=
    Qgeb duration (_live_min_seconds self) &&
    Qgeb (duration - _last_processed_duration self) (_live_interval self) in
  {| _live_interval := _live_interval self;
     _live_min_seconds := _live_min_seconds self;
     _current_duration := duration;
     _last_processed_duration := _last_processed_duration self;
     _event := if wake then true else _event self |}.

(** [writer.last_sample_index / float(state.sample_rate)], the duration the
    dispatcher passes to [notify_duration] after a frame. *)
Definition writer_duration (writer : StreamWriter) (sample_rate : Z) : Q :=
  inject_Z (last_sample_index writer) / inject_Z sample_rate.

(** [snapshot.size_bytes / float(bytes_per_frame * snapshot.sample_rate)] *)
Definition snapshot_duration (snapshot : StreamSnapshot) : Q :=
  inject_Z (size_bytes snapshot)
  / inject_Z (BYTES_PER_SAMPLE * channels snapshot * sample_rate snapshot).

(** The JSON lines of [_maybe_process], in the order they are written. *)
Inductive output :=
| LiveProcessStart (stream : string) (duration : Q) (finalize : bool)
| LiveProcessDone (stream : string) (duration : Q) (turns : nat)
    (finalize : bool)
| PipelineError
| Transcript (e : event).

(** [_maybe_process(finalize)].  [snapshot] is what [_snapshot()] returns,
    [pcm_file] the raw file when it is read, and [run_pipeline] the run of
    the models on the temporary WAV, [None] when it raises.  The result is
    the processor, the emitter, the lines written and the returned flag. *)
Definition _maybe_process (self : LiveProcessor) (emitter : TranscriptEmitter)
    (stream_name : string) (snapshot : option StreamSnapshot)
    (pcm_file : list byte)
    (run_pipeline : list byte -> option MergedTranscript) (finalize : bool)
    : LiveProcessor * TranscriptEmitter * list output * bool :=
  match snapshot with
  | None => (self, emitter, [], false)
  | Some snapshot =>
    if (size_bytes snapshot <=? 0)%Z then (self, emitter, [], false)
    else
      let duration := snapshot_duration snapshot in
      if negb finalize && Qltb duration (_live_min_seconds self) then
        (self, emitter, [], false)
      else if negb finalize &&
              Qltb (duration - _last_processed_duration self)
                (_live_interval self) then
        (self, emitter, [], false)
      else
        let started := [LiveProcessStart stream_name duration finalize] in
        match write_wav_from_pcm snapshot pcm_file with
        | None => (self, emitter, started, false)
        | Some temp_wav =>
          match run_pipeline temp_wav with
          | None => (self, emitter, started ++ [PipelineError], false)
          | Some merged =>
            let '(emitter1, events) :=
              emit_transcript emitter merged duration finalize
                (Some stream_name) in
            ({| _live_interval := _live_interval self;
                _live_min_seconds := _live_min_seconds self;
                _current_duration := _current_duration self;
                _last_processed_duration :=
                  py_max (_last_processed_duration self) duration;
                _event := _event self |},
             emitter1,
             started
             ++ [LiveProcessDone stream_name duration (length (turns merged))
                   finalize]
             ++ map Transcript events,
             true)
          end
        end
  end.




Section GateFacts.


Lemma Qgeb_true (a b : Q) : Qgeb a b = true <-> b <= a.
Proof.
  unfold Qgeb. destruct (Qlt_le_dec a b); split; intros H;
    try discriminate; try reflexivity; try assumption; lra.
Qed.









Lemma duration_agrees (w : StreamWriter) (sr ch : Z) :
  (1 <= sr)%Z -> (1 <= ch)%Z -> raw_size_ok ch w ->
  snapshot_duration (snapshot_stream w sr ch) == writer_duration w sr.
Proof.
  intros Hsr Hch Hraw. unfold snapshot_duration, writer_duration,
    snapshot_stream. cbn [Live.size_bytes Live.channels Live.sample_rate].
  unfold raw_size_ok in Hraw. rewrite Hraw, !inject_Z_mult.
  assert (H1 : ~ inject_Z sr == 0)
    by (unfold Qeq, inject_Z; simpl; lia).
  assert (H2 : ~ inject_Z ch == 0)
    by (unfold Qeq, inject_Z; simpl; lia).
  assert (H3 : ~ inject_Z BYTES_PER_SAMPLE == 0) by (intros H; discriminate H).
  field. repeat split; assumption.
Qed.

Lemma Qltb_proper (a a' b : Q) : a == a' -> Qltb a b = Qltb a' b.
Proof.
  intros H. unfold Qltb.
  destruct (Qlt_le_dec a b), (Qlt_le_dec a' b); try reflexivity; lra.
Qed.

End GateFacts.

(** X25. For a writer that received any frames, the duration the
    dispatcher passes to [notify_duration] is the duration [_maybe_process]
    computes from the size of the raw file; and a non-final
    [_maybe_process] on that snapshot gets past its gates (it writes
    [live_process_start]) exactly when the stream has audio and
    [notify_duration] would set the wake-up event for that duration. *)
Theorem notify_and_process_agree (self : LiveProcessor)
    (emitter : TranscriptEmitter) (stream_name : string)
    (sample_rate channels : Z) (frames : list AudioFrame)
    (pcm_file : list byte)
    (run_pipeline : list byte -> option MergedTranscript) :
  (1 <= sample_rate)%Z -> (1 <= channels)%Z -> _event self = false ->
  let w := apply_frames sample_rate channels open_stream_writer frames in
  let duration := writer_duration w sample_rate in
  snapshot_duration (snapshot_stream w sample_rate channels) == duration /\
  (snd (fst (_maybe_process self emitter stream_name
               (Some (snapshot_stream w sample_rate channels)) pcm_file
               run_pipeline false)) <> []
   <-> (0 < last_sample_index w)%Z /\
       _event (notify_duration self duration) = true).
Proof.
  intros Hsr Hch Hev. cbv zeta.
  destruct (apply_frames_keeps sample_rate channels frames Hch
              open_stream_writer (opened_writer_ok channels)) as [Hraw _].
  set (w := apply_frames sample_rate channels open_stream_writer frames) in *.
  pose proof (duration_agrees w sample_rate channels Hsr Hch Hraw) as Hd.
  split; [exact Hd |].
  assert (Hsize : ((size_bytes (snapshot_stream w sample_rate channels) <=? 0)
                   = negb (0 <? last_sample_index w))%Z).
  { unfold snapshot_stream. cbn [Live.size_bytes]. unfold raw_size_ok in Hraw.
    rewrite Hraw. unfold BYTES_PER_SAMPLE.
    destruct (Z.ltb_spec 0 (last_sample_index w));
      destruct (Z.leb_spec (last_sample_index w * (2 * channels)) 0);
      try reflexivity; nia. }
  unfold _maybe_process, notify_duration. cbn [_event]. rewrite Hsize, Hev.
  cbn [negb andb].
  rewrite (Qltb_proper _ _ (_live_min_seconds self) Hd).
  assert (Hd' : snapshot_duration (snapshot_stream w sample_rate channels)
                - _last_processed_duration self
                == writer_duration w sample_rate - _last_processed_duration self)
    by (rewrite Hd; reflexivity).
  rewrite (Qltb_proper _ _ (_live_interval self) Hd').
  unfold Qltb, Qgeb.
  destruct (0 <? last_sample_index w)%Z eqn:Hpos; cbn [negb].
  2:{ split; [intros H; elim H; reflexivity | intros [H _]; lia]. }
  apply Z.ltb_lt in Hpos.
  destruct (Qlt_le_dec (writer_duration w sample_rate) (_live_min_seconds self));
    cbn [andb].
  { split; [intros H; elim H; reflexivity | intros [_ H]; discriminate]. }
  destruct (Qlt_le_dec _ (_live_interval self)).
  { split; [intros H; elim H; reflexivity | intros [_ H]; discriminate]. }
  split; [intros _; split; [exact Hpos | reflexivity] | intros _].
  destruct (write_wav_from_pcm _ pcm_file); [| discriminate].
  destruct (run_pipeline l); [| discriminate].
  destruct (emit_transcript _ _ _ _ _). discriminate.
Qed.

Lemma notify_and_process_agree_witness :
  snapshot_duration
    (snapshot_stream
       (apply_frames 1 1 open_stream_writer [mkFrame [x01; x02; x03; x04] 0])
       1 1)
  == 2 /\
  (snd (fst (_maybe_process (mkLive 1 1 0 0 false) (new_emitter 5) "system"
               (Some (snapshot_stream
                        (apply_frames 1 1 open_stream_writer
                           [mkFrame [x01; x02; x03; x04] 0]) 1 1))
               [x01; x02; x03; x04] (fun _ => None) false)) <> []
   <-> (0 < 2)%Z /\ true = true).
Proof.
  apply (notify_and_process_agree (mkLive 1 1 0 0 false) (new_emitter 5)
           "system" 1 1 [mkFrame [x01; x02; x03; x04] 0] [x01; x02; x03; x04]
           (fun _ => None)); [lia | lia | reflexivity].
Defined.




End Live.

(* ===================================================================== *)
(** * The message loop of [main] ([muesli_backend.py])                     *)
(* ===================================================================== *)

Module Dispatch.

Import Aligner.

Local Open Scope Z_scope.
Local Open Scope list_scope.

Definition MSG_AUDIO : Z := 1.
Definition MSG_SCREENSHOT_EVENT : Z := 2.
Definition MSG_MEETING_START : Z := 3.
Definition MSG_MEETING_STOP : Z := 4.

Definition STREAM_SYSTEM : Z := 0.
Definition STREAM_MIC : Z := 1.

(** One framed message, as unpacked from its header and read from
    [stdin]. *)
Record message := mkMessage {
  msg_type : Z;
  stream_id : Z;
  pts_us : Z;
  payload : list byte
}.

(** [BackendState] without its locks. *)
Record BackendState := mkState {
  system_writer : option StreamWriter;
  mic_writer : option StreamWriter;
  sample_rate : Z;
  channels : Z
}.

(** [BackendState(stdout_lock)] *)
Definition new_state : BackendState :=
  {| system_writer := None; mic_writer := None;
     sample_rate := 48000; channels := 1 |}.

(** How one round of the loop ends: it goes on to the next message, it
    leaves the loop ([break]), or an exception leaves [main]. *)
Inductive outcome :=
| Running (state : BackendState)
| Stopped (state : BackendState)
| Raised.

(** [rms_int16(payload)] raises when [struct.unpack] is given a buffer that
    is not [2 * count] bytes long: a payload of odd length, [3] or more. *)
Definition rms_int16_raises (pcm : list byte) : bool :=
  negb (len pcm <? 2) && Z.odd (len pcm).

Section Loop.

(** [--emit-meters] *)
Variable emit_meters : bool.

(** The meta data of a [MEETING_START] payload that is not empty:
    [json.loads(payload.decode("utf-8"))], then [int(meta.get("sample_rate",
    48000))] and [int(meta.get("channels", 1))]; [None] where this
    raises. *)
Variable meeting_meta : list byte -> option (Z * Z).

(** Whether a screenshot payload that is not empty is a JSON object (so
    that [json.loads] and [{"type": "screenshot", **evt}] do not raise). *)
Variable screenshot_ok : list byte -> bool.

Definition meta_of (data : list byte) : option (Z * Z) :=
  match data with
  | [] => Some (48000, 1)
  | _ => meeting_meta data
  end.

(** [open_stream_writer] raises [wave.Error] in [setnchannels] when
    [channels < 1], and in [setframerate] when [sample_rate <= 0]. *)
Definition open_raises (rate chans : Z) : bool :=
  (chans <? 1) || (rate <=? 0).

(** The body of [while True] after a message has been read. *)
Definition handle (state : BackendState) (m : message) : outcome :=
  if msg_type m =? MSG_MEETING_START then
    match meta_of (payload m) with
    | None => Raised
    | Some (rate, chans) =>
        if open_raises rate chans then Raised
        else
          Running {| system_writer := Some open_stream_writer;
                     mic_writer := Some open_stream_writer;
                     sample_rate := rate; channels := chans |}
    end
  else if msg_type m =? MSG_AUDIO then
    match stream_id m =? STREAM_SYSTEM, system_writer state with
    | true, Some writer =>
        let writer :=
          write_aligned_audio writer (payload m) (pts_us m)
            (sample_rate state) (channels state) in
        if emit_meters && rms_int16_raises (payload m) then Raised
        else Running {| system_writer := Some writer;
                        mic_writer := mic_writer state;
                        sample_rate := sample_rate state;
                        channels := channels state |}
    | _, _ =>
        match stream_id m =? STREAM_MIC, mic_writer state with
        | true, Some writer =>
            let writer :=
              write_aligned_audio writer (payload m) (pts_us m)
                (sample_rate state) (channels state) in
            if emit_meters && rms_int16_raises (payload m) then Raised
            else Running {| system_writer := system_writer state;
                            mic_writer := Some writer;
                            sample_rate := sample_rate state;
                            channels := channels state |}
        | _, _ => Running state
        end
    end
  else if msg_type m =? MSG_SCREENSHOT_EVENT then
    match payload m with
    | [] => Running state
    | _ => if screenshot_ok (payload m) then Running state else Raised
    end
  else if msg_type m =? MSG_MEETING_STOP then Stopped state
  else Running state.

(** The loop over the messages on [stdin]; at the end of the input
    [read_exact] raises [EOFError] and the loop is left. *)
Fixpoint main_loop (state : BackendState) (messages : list message)
    : outcome :=
  match messages with
  | [] => Running state
  | m :: rest =>
      match handle state m with
      | Running state => main_loop state rest
      | other => other
      end
  end.








End Loop.




(** A meeting that announces no channel ends the loop with an exception. *)
Example start_without_channels_raises :
  main_loop false (fun _ => Some (48000, 0)) (fun _ => false) new_state
    [mkMessage 3 0 0 [x01]; mkMessage 1 0 0 [x03; x04]]
  = Raised.
Proof. reflexivity. Qed.

(** X28. Until a [MEETING_START] arrives no writer is open, so audio is
    dropped and the state stays as created; and once [MEETING_STOP] is
    handled the loop is over: the messages behind it change nothing. *)
Theorem no_audio_outside_a_meeting (emit_meters : bool)
    (meeting_meta : list byte -> option (Z * Z))
    (screenshot_ok : list byte -> bool)
    (messages behind : list message) (state : BackendState) :
  (forallb (fun m => msg_type m =? MSG_AUDIO) messages = true ->
   main_loop emit_meters meeting_meta screenshot_ok new_state messages
   = Running new_state) /\
  (main_loop emit_meters meeting_meta screenshot_ok new_state messages
   = Stopped state ->
   main_loop emit_meters meeting_meta screenshot_ok new_state
     (messages ++ behind)
   = Stopped state).
Proof.
  split.
  - induction messages as [| m rest IH]; [reflexivity |].
    cbn [forallb]. intros H. apply andb_prop in H. destruct H as [Hm Hrest].
    cbn [main_loop]. unfold handle. apply Z.eqb_eq in Hm. rewrite Hm.
    change (MSG_AUDIO =? MSG_MEETING_START) with false.
    change (MSG_AUDIO =? MSG_AUDIO) with true. cbv iota.
    cbn [system_writer mic_writer new_state].
    destruct (stream_id m =? STREAM_SYSTEM), (stream_id m =? STREAM_MIC);
      apply IH, Hrest.
  - generalize new_state. induction messages as [| m rest IH]; intros s0 H;
      [discriminate |].
    cbn [main_loop app] in *.
    destruct (handle emit_meters meeting_meta screenshot_ok s0 m) as [s | s |];
      [apply IH, H | exact H | discriminate].
Qed.

End Dispatch.

(* ===================================================================== *)
(** * Turn grouping with the rounding of the machine ([merge.py])          *)
(* ===================================================================== *)

(** [Merge.turn_step] compares the exact differences of the word times with
    the thresholds.  The code compares the doubles [word.start -
    current_words[-1].end] and [word.end - current_words[0].start]; this
    module is [words_to_turns] with these two subtractions rounded, for the
    properties that depend on where exactly a turn is cut. *)

Module Merge64.

Import Binary64 Merge.

Local Open Scope Q_scope.
Local Open Scope string_scope.
Local Open Scope list_scope.

(** The body of [for word in words[1:]]. *)
Definition turn_step (gap_threshold max_turn_duration : Q)
    (g : grouping) (word : LabelledWord) : grouping :=
  let gap := fl (lw_start word - lw_end (last_word (current_words g))) in
  let speaker_change := negb (lw_speaker word =? current_speaker g) in
  let turn_duration :=
    fl (lw_end word - lw_start (first_word (current_words g))) in
  if speaker_change || Qgtb gap gap_threshold
     || Qgtb turn_duration max_turn_duration
  then
    {| g_turns := g_turns g ++ [make_turn (current_speaker g) (current_words g)];
       current_words := [word];
       current_speaker := lw_speaker word |}
  else
    {| g_turns := g_turns g;
       current_words := current_words g ++ [word];
       current_speaker := current_speaker g |}.

Definition words_to_turns (ws : list LabelledWord)
    (gap_threshold max_turn_duration : Q) : list SpeakerTurn :=
  match ws with
  | [] => []
  | w0 :: rest =>
      let g := fold_left (turn_step gap_threshold max_turn_duration) rest
                 {| g_turns := []; current_words := [w0];
                    current_speaker := lw_speaker w0 |} in
      if nonempty (current_words g)
      then g_turns g ++ [make_turn (current_speaker g) (current_words g)]
      else g_turns g
  end.

(** Two words 0.8 s apart on paper: the gap from 0.01 to 0.81 is computed
    as the double 0.8, which is not above a threshold of 0.8, and the words
    stay in one turn; the exact difference of the two doubles is above that
    threshold. *)
Example rounded_gap_keeps_turn :
  let ws := [mkLabelled "so" 0 (fl 0.01) "A"; mkLabelled "then" (fl 0.81) (fl 0.9) "A"] in
  map t_words (words_to_turns ws (fl 0.8) 60) = [ws] /\
  fl 0.8 < fl 0.81 - fl 0.01.
Proof. vm_compute. repeat split. Qed.

Section TurnShape64.

Variables gap_threshold max_turn_duration : Q.

(** A word may follow [prev] in the turn that starts at [turn_start]: the
    two differences, as the machine computes them, are within the
    thresholds. *)
Definition continues (turn_start : Q) (prev next : LabelledWord) : Prop :=
  fl (lw_start next - lw_end prev) <= gap_threshold /\
  fl (lw_end next - turn_start) <= max_turn_duration.

(** A group of words that makes one turn of [speaker]. *)
Definition group_ok (speaker : string) (ws : list LabelledWord) : Prop :=
  ws <> [] /\
  Forall (fun w => lw_speaker w = speaker) ws /\
  adjacent (continues (lw_start (first_word ws))) ws.

(** The fields of a turn are those of its words. *)
Definition turn_ok (t : SpeakerTurn) : Prop :=
  group_ok (t_speaker t) (t_words t) /\
  t_start t = lw_start (first_word (t_words t)) /\
  t_end t = lw_end (last_word (t_words t)) /\
  t_text t = _join_words_smart (t_words t).

(** What the loop keeps true of its state. *)
Definition grouping_ok (g : grouping) : Prop :=
  Forall turn_ok (g_turns g) /\
  group_ok (current_speaker g) (current_words g).

Lemma make_turn_rounded_ok (speaker : string) (ws : list LabelledWord) :
  group_ok speaker ws -> turn_ok (make_turn speaker ws).
Proof.
  intros Hg. unfold turn_ok, make_turn. simpl.
  split; [exact Hg | split; [| split]]; reflexivity.
Qed.

Lemma group_rounded_single (w : LabelledWord) : group_ok (lw_speaker w) [w].
Proof.
  split; [discriminate |]. split; [repeat constructor |].
  intros i a b Ha Hb. destruct i; discriminate.
Qed.

Lemma close_turn_rounded (g : grouping) (word : LabelledWord) :
  grouping_ok g ->
  grouping_ok
    {| g_turns := g_turns g
                  ++ [make_turn (current_speaker g) (current_words g)];
       current_words := [word];
       current_speaker := lw_speaker word |}.
Proof.
  intros (Hturns & Hgroup). split; simpl.
  - apply Forall_app. split; [exact Hturns |].
    constructor; [apply make_turn_rounded_ok; exact Hgroup | constructor].
  - apply group_rounded_single.
Qed.

Lemma turn_step_rounded_ok (g : grouping) (word : LabelledWord) :
  grouping_ok g ->
  grouping_ok (turn_step gap_threshold max_turn_duration g word).
Proof.
  intros Hshape. unfold turn_step, Qgtb.
  destruct (String.eqb_spec (lw_speaker word) (current_speaker g))
    as [Hsame | Hchange]; simpl negb; simpl orb;
    [| apply close_turn_rounded; exact Hshape].
  destruct (Qlt_le_dec gap_threshold
              (fl (lw_start word - lw_end (last_word (current_words g)))))
    as [Hgap | Hnogap]; simpl orb;
    [apply close_turn_rounded; exact Hshape |].
  destruct (Qlt_le_dec max_turn_duration
              (fl (lw_end word - lw_start (first_word (current_words g)))))
    as [Hlong | Hshort];
    [apply close_turn_rounded; exact Hshape |].
  (* the word joins the current turn *)
  destruct Hshape as (Hturns & (Hne & Hsp & Hcont)).
  split; [exact Hturns |]. simpl.
  split; [destruct (current_words g); discriminate |].
  split; [apply Forall_app; split;
          [exact Hsp | constructor; [exact Hsame | constructor]] |].
  rewrite first_word_snoc by exact Hne.
  apply adjacent_snoc; [exact Hcont |].
  intros i a Ha Hlen. split; [| exact Hshort].
  unfold last_word in Hnogap.
  rewrite (list_last_lookup _ i a no_word Ha Hlen) in Hnogap.
  exact Hnogap.
Qed.

Lemma turn_loop_rounded_ok (rest : list LabelledWord) (g : grouping) :
  grouping_ok g ->
  grouping_ok (fold_left (turn_step gap_threshold max_turn_duration) rest g).
Proof.
  revert g. induction rest as [| w rest IH]; intros g Hg; simpl.
  - exact Hg.
  - apply IH, turn_step_rounded_ok, Hg.
Qed.

Lemma words_to_turns_rounded_ok (ws : list LabelledWord) :
  Forall turn_ok (words_to_turns ws gap_threshold max_turn_duration).
Proof.
  destruct ws as [| w0 rest]; [constructor |].
  unfold words_to_turns.
  set (g0 := {| g_turns := []; current_words := [w0];
                current_speaker := lw_speaker w0 |}).
  assert (Hg0 : grouping_ok g0)
    by (split; [constructor | apply group_rounded_single]).
  pose proof (turn_loop_rounded_ok rest g0 Hg0) as (Hturns & Hgroup).
  set (g := fold_left (turn_step gap_threshold max_turn_duration) rest g0) in *.
  destruct (current_words g) as [| c cs] eqn:Hc;
    [destruct Hgroup as [Hne _]; congruence |].
  simpl nonempty. cbv iota.
  apply Forall_app. split; [exact Hturns |].
  constructor; [apply make_turn_rounded_ok; exact Hgroup | constructor].
Qed.

End TurnShape64.

(** X10. Every turn returned by [words_to_turns] is made of words of one
    speaker, the turn's; starts where its first word starts and ends where
    its last word ends; carries the punctuation-aware join of its words as
    text; within it, for every word after the first, the gap to the word
    before and the time since the start of the turn, as the code computes
    them (each a subtraction rounded to the nearest double), are at most
    [gap_threshold] and [max_turn_duration]; so the computed length
    [end - start] of a turn of two or more words is at most
    [max_turn_duration]. *)
Theorem turns_are_well_formed (ws : list LabelledWord)
    (gap_threshold max_turn_duration : Q) :
  Forall
    (fun t =>
       turn_ok gap_threshold max_turn_duration t /\
       ((2 <= length (t_words t))%nat ->
        fl (t_end t - t_start t) <= max_turn_duration))
    (words_to_turns ws gap_threshold max_turn_duration).
Proof.
  pose proof (words_to_turns_rounded_ok gap_threshold max_turn_duration ws)
    as Hok.
  eapply Forall_impl; [exact Hok |]. intros t Ht. split; [exact Ht |].
  intros Hlen. destruct Ht as ((_ & _ & Hcont) & Hstart & Hend & _).
  destruct (lookup_lt_is_Some_2 (t_words t) (length (t_words t) - 2))
    as [a Ha]; [lia |].
  destruct (lookup_lt_is_Some_2 (t_words t) (S (length (t_words t) - 2)))
    as [b Hb]; [lia |].
  destruct (Hcont _ a b Ha Hb) as [_ Hdur].
  rewrite Hstart, Hend. unfold last_word.
  rewrite (list_last_lookup _ _ b no_word Hb) by lia. exact Hdur.
Qed.

End Merge64.

(* ===================================================================== *)
(** * The transcript emitter with the rounding of the machine              *)
(* ===================================================================== *)

(** [Emitter.cutoff_of] and [Emitter.final_now] subtract and add exactly.
    The code computes [current_duration - self._finalize_lag] and
    [last_emitted_t1 + 0.02] as doubles; this module is [emit_transcript]
    with these two operations rounded, for the properties that compare a
    [t1] with the cutoff or with the slack above [last_emitted_t1].
    Everything else is taken from [Emitter]. *)

Module Emitter64.

Import Binary64 Merge Emitter.

Local Open Scope Q_scope.
Local Open Scope string_scope.
Local Open Scope list_scope.

(** The literal [0.02]: the double nearest to 1/50. *)
Definition slack : Q := fl 0.02.

(** [cutoff = current_duration if finalize
             else max(0.0, current_duration - self._finalize_lag)] *)
Definition cutoff_of (self : TranscriptEmitter) (current_duration : Q)
    (finalize : bool) : Q :=
  if finalize then current_duration
  else py_max 0 (fl (current_duration - finalize_lag self)).

(** [turn.end <= cutoff and turn.end > last_emitted_t1 + 0.02] *)
Definition final_now (turn : SpeakerTurn) (cutoff last_emitted_t1 : Q) : bool :=
  (if Qlt_le_dec cutoff (t_end turn) then false else true)
  && (if Qlt_le_dec (fl (last_emitted_t1 + slack)) (t_end turn)
      then true else false).

(** The second loop over the turns: the segments written and the value of
    the local [last_emitted_t1] after it. *)
Fixpoint emit_segments (stream_name : option string) (cutoff : Q)
    (ts : list SpeakerTurn) (last_emitted_t1 : Q) : Q * list event :=
  match ts with
  | [] => (last_emitted_t1, [])
  | turn :: rest =>
      if final_now turn cutoff last_emitted_t1 then
        let ev := Segment (t_speaker turn)
                    (speaker_id_of stream_name (t_speaker turn))
                    stream_name (t_start turn) (t_end turn) (t_text turn) in
        let '(last, evs) :=
          emit_segments stream_name cutoff rest
            (py_max last_emitted_t1 (t_end turn)) in
        (last, ev :: evs)
      else emit_segments stream_name cutoff rest last_emitted_t1
  end.

(** [TranscriptEmitter.emit_transcript(merged, current_duration, finalize,
    stream_name)]: the emitter after the call and the events written. *)
Definition emit_transcript (self : TranscriptEmitter) (merged : MergedTranscript)
    (current_duration : Q) (finalize : bool) (stream_name : option string)
    : TranscriptEmitter * list event :=
  match turns merged with
  | [] => (self, [])
  | turn0 :: others =>
      let key := stream_key stream_name in
      let last_emitted_t1 := last_emitted_t1_of self key in
      let last_partial := last_partial_of self key in
      let '(seen, new_speakers) :=
        note_speakers stream_name (turns merged) (seen_speakers self) false in
      let speakers_out :=
        if new_speakers then [Speakers (sorted_speakers seen)] else [] in
      let cutoff := cutoff_of self current_duration finalize in
      let '(last_emitted_t1, segments_out) :=
        emit_segments stream_name cutoff (turns merged) last_emitted_t1 in
      let last_turn := List.last others turn0 in
      let '(last_partial, partial_out) :=
        emit_partial stream_name cutoff finalize last_turn last_partial in
      ({| finalize_lag := finalize_lag self;
          last_emitted_t1_by_stream :=
            <[key := last_emitted_t1]> (last_emitted_t1_by_stream self);
          last_partial_by_stream :=
            <[key := last_partial]> (last_partial_by_stream self);
          seen_speakers := seen |},
       speakers_out ++ segments_out ++ partial_out)
  end.

Definition emit_call (self : TranscriptEmitter) (c : call)
    : TranscriptEmitter * list event :=
  emit_transcript self (c_merged c) (c_current_duration c) (c_finalize c)
    (c_stream_name c).

(** The emitter states that calls can produce. *)
Inductive reachable : TranscriptEmitter -> Prop :=
| reachable_new (lag : Q) : reachable (new_emitter lag)
| reachable_emit (self : TranscriptEmitter) (c : call) :
    reachable self -> reachable (fst (emit_call self c)).

(** Every recorded [last_emitted_t1] is non-negative. *)
Definition recorded_nonneg (self : TranscriptEmitter) : Prop :=
  forall key v, last_emitted_t1_by_stream self !! key = Some v -> 0 <= v.

(** After a segment ending at 3.0, a turn ending at the double 3.02 is not
    written: [3.0 + 0.02] is computed as that same double, although the
    exact sum is below it. *)
Example slack_is_rounded :
  final_now (mkTurn "SPEAKER_00" 3 (fl 3.02) "ok" []) 10 3 = false /\
  3 + slack < fl 3.02 /\ 0.02 < slack.
Proof. vm_compute. repeat split. Qed.

Section RoundedCallFacts.

Lemma slack_pos : 0 < slack.
Proof. reflexivity. Qed.

Lemma fl_slack : fl slack == slack.
Proof. apply fl_idem. Qed.

Lemma final_now_rounded (turn : SpeakerTurn) (cutoff last : Q) :
  final_now turn cutoff last = true ->
  t_end turn <= cutoff /\ fl (last + slack) < t_end turn.
Proof.
  unfold final_now.
  destruct (Qlt_le_dec cutoff (t_end turn)); [discriminate |].
  destruct (Qlt_le_dec (fl (last + slack)) (t_end turn)); [| discriminate].
  intros _. split; assumption.
Qed.

Lemma py_max_upper (a b : Q) : a <= py_max a b /\ b <= py_max a b.
Proof. unfold py_max. destruct (Qlt_le_dec a b); split; lra. Qed.

(** Above a non-negative [last], the rounded sum is at least the slack. *)
Lemma slack_below_sum (last : Q) : 0 <= last -> slack <= fl (last + slack).
Proof.
  intros Hlast. rewrite <- fl_slack at 1. apply fl_mono. lra.
Qed.

Lemma emit_segments_rounded_nonneg (stream_name : option string) (cutoff : Q)
    (ts : list SpeakerTurn) (last : Q) :
  0 <= last ->
  let res := emit_segments stream_name cutoff ts last in
  0 <= fst res /\ Forall (segment_ends_by cutoff) (snd res) /\
  (cutoff <= 0 -> snd res = []).
Proof.
  cbv zeta. revert last. induction ts as [| turn rest IH]; intros last Hlast.
  - simpl. repeat split; auto.
  - simpl. destruct (final_now turn cutoff last) eqn:Hnow; [| apply IH, Hlast].
    destruct (final_now_rounded _ _ _ Hnow) as [Hcut Hgap].
    pose proof (slack_below_sum last Hlast) as Hslack.
    pose proof slack_pos as Hpos.
    pose proof (py_max_upper last (t_end turn)) as [Hm _].
    assert (Hnext : 0 <= py_max last (t_end turn)) by lra.
    specialize (IH _ Hnext).
    destruct (emit_segments stream_name cutoff rest _) as [last' evs].
    simpl in IH |- *. destruct IH as (Hpos' & Hall & _).
    repeat split.
    + exact Hpos'.
    + constructor; [exact Hcut | exact Hall].
    + intros Hzero. lra.
Qed.

Lemma emit_segments_rounded_sublist (stream_name : option string) (cutoff : Q)
    (ts : list SpeakerTurn) (last : Q) :
  exists chosen,
    sublist chosen ts /\
    snd (emit_segments stream_name cutoff ts last)
    = map (segment_event stream_name) chosen /\
    Forall (fun t => t_end t <= cutoff) chosen.
Proof.
  revert last. induction ts as [| turn rest IH]; intros last; simpl.
  - exists []. repeat split; constructor.
  - destruct (final_now turn cutoff last) eqn:Hnow.
    + destruct (final_now_rounded _ _ _ Hnow) as [Hcut _].
      destruct (IH (py_max last (t_end turn))) as (chosen & Hsub & Hevs & Hall).
      destruct (emit_segments stream_name cutoff rest _) as [last' evs].
      simpl in *. exists (turn :: chosen).
      split; [constructor; exact Hsub |].
      split; [rewrite Hevs; reflexivity | constructor; assumption].
    + destruct (IH last) as (chosen & Hsub & Hevs & Hall).
      exists chosen. split; [constructor; exact Hsub |]. split; assumption.
Qed.

(** After the segment loop no turn whose end is a double is due any more. *)
Lemma emit_segments_rounded_settles (stream_name : option string) (cutoff : Q)
    (ts : list SpeakerTurn) (last : Q) :
  Forall (fun t => representable (t_end t)) ts ->
  let res := emit_segments stream_name cutoff ts last in
  last <= fst res /\
  Forall (fun t => t_end t <= cutoff -> t_end t <= fl (fst res + slack)) ts.
Proof.
  cbv zeta. intros Hrep. revert last.
  induction Hrep as [| turn rest Hturn _ IH]; intros last; simpl.
  - split; [lra | constructor].
  - pose proof slack_pos as Hpos.
    destruct (final_now turn cutoff last) eqn:Hnow.
    + pose proof (py_max_upper last (t_end turn)) as [Hm1 Hm2].
      specialize (IH (py_max last (t_end turn))).
      destruct (emit_segments stream_name cutoff rest _) as [last' evs].
      simpl in *. destruct IH as [Hle Hall].
      split; [lra |]. constructor; [| exact Hall].
      intros _. unfold representable in Hturn. rewrite <- Hturn.
      apply fl_mono. lra.
    + destruct (IH last) as [Hle Hall]. split; [exact Hle |].
      constructor; [| exact Hall].
      intros Hcut. unfold final_now in Hnow.
      destruct (Qlt_le_dec cutoff (t_end turn)); [lra |].
      destruct (Qlt_le_dec (fl (last + slack)) (t_end turn)) as [| Hnot];
        [discriminate |].
      apply Qle_trans with (fl (last + slack)); [exact Hnot |].
      apply fl_mono. lra.
Qed.

Lemma recorded_of_nonneg (self : TranscriptEmitter) (key : string) :
  recorded_nonneg self -> 0 <= last_emitted_t1_of self key.
Proof.
  intros Hself. unfold last_emitted_t1_of.
  destruct (last_emitted_t1_by_stream self !! key) as [v0 |] eqn:Hv0; simpl.
  - eapply Hself. exact Hv0.
  - lra.
Qed.

Lemma emit_transcript_rounded_nonneg (self : TranscriptEmitter)
    (merged : MergedTranscript) (current_duration : Q) (finalize : bool)
    (stream_name : option string) :
  recorded_nonneg self ->
  recorded_nonneg
    (fst (emit_transcript self merged current_duration finalize stream_name)).
Proof.
  intros Hself. unfold emit_transcript.
  destruct (turns merged) as [| turn0 others]; [exact Hself |].
  destruct (note_speakers _ _ _ _) as [seen new_speakers].
  pose proof (emit_segments_rounded_nonneg stream_name
                (cutoff_of self current_duration finalize) (turn0 :: others)
                (last_emitted_t1_of self (stream_key stream_name))
                (recorded_of_nonneg _ _ Hself)) as (Hpos & _).
  destruct (emit_segments _ _ _ _) as [last1 segments_out].
  destruct (emit_partial _ _ _ _ _) as [lp1 partial_out].
  cbn [fst] in *. intros key v. cbn [last_emitted_t1_by_stream].
  destruct (decide (key = stream_key stream_name)) as [-> | Hne].
  - rewrite lookup_insert_eq. intros [= <-]. exact Hpos.
  - rewrite lookup_insert_ne by congruence. apply Hself.
Qed.

Lemma reachable_recorded_nonneg (self : TranscriptEmitter) :
  reachable self -> recorded_nonneg self.
Proof.
  induction 1 as [lag | self c _ IH].
  - intros key v Hv. simpl in Hv. rewrite lookup_empty in Hv. discriminate.
  - apply emit_transcript_rounded_nonneg, IH.
Qed.

End RoundedCallFacts.

(** C2 (as amended). For every call of [emit_transcript] with
    [finalize = false], [current_duration >= 0] and [finalize_lag >= 0],
    the cutoff is at most [current_duration], and no segment event of the
    call has a [t1] above the double the code computes for
    [current_duration - finalize_lag], the difference rounded to the
    nearest double. *)
Theorem non_final_segments_respect_lag (self : TranscriptEmitter)
    (merged : MergedTranscript) (current_duration : Q)
    (stream_name : option string) :
  reachable self ->
  0 <= current_duration ->
  0 <= finalize_lag self ->
  representable current_duration ->
  cutoff_of self current_duration false <= current_duration /\
  Forall (segment_ends_by (fl (current_duration - finalize_lag self)))
    (snd (emit_transcript self merged current_duration false stream_name)).
Proof.
  intros Hreach Hdur Hlag Hrep.
  assert (Hdiff : fl (current_duration - finalize_lag self) <= current_duration).
  { unfold representable in Hrep. rewrite <- Hrep at 2. apply fl_mono. lra. }
  assert (Hcut : cutoff_of self current_duration false <= current_duration).
  { unfold cutoff_of, py_max. destruct (Qlt_le_dec 0 _); lra. }
  split; [exact Hcut |].
  unfold emit_transcript.
  destruct (turns merged) as [| turn0 others]; [constructor |].
  destruct (note_speakers _ _ _ _) as [seen new_speakers].
  pose proof (emit_segments_rounded_nonneg stream_name
                (cutoff_of self current_duration false) (turn0 :: others)
                (last_emitted_t1_of self (stream_key stream_name))
                (recorded_of_nonneg _ _ (reachable_recorded_nonneg _ Hreach)))
    as (_ & Hsegs & Hnone).
  destruct (emit_segments _ _ _ _) as [last' segments_out].
  pose proof (emit_partial_no_segment stream_name
                (cutoff_of self current_duration false) false
                (List.last others turn0)
                (last_partial_of self (stream_key stream_name)) ""
                (fl (current_duration - finalize_lag self))) as [_ Hpartial].
  destruct (emit_partial _ _ _ _ _) as [last_partial partial_out].
  simpl in Hsegs, Hnone, Hpartial |- *.
  apply Forall_app. split; [destruct new_speakers; repeat constructor |].
  apply Forall_app. split; [| exact Hpartial].
  unfold cutoff_of, py_max in Hsegs, Hnone.
  destruct (Qlt_le_dec 0 (fl (current_duration - finalize_lag self)))
    as [Hpos | Hneg].
  - exact Hsegs.
  - rewrite Hnone by lra. constructor.
Qed.

Lemma non_final_segments_respect_lag_witness :
  cutoff_of (new_emitter 5) 12 false <= 12 /\
  Forall (segment_ends_by (fl (12 - finalize_lag (new_emitter 5))))
    (snd (emit_transcript (new_emitter 5)
            (mkMerged [mkTurn "SPEAKER_00" 1 3 "good morning" [];
                       mkTurn "SPEAKER_01" 4 9 "hello" []] [] [])
            12 false (Some "system"))).
Proof.
  apply non_final_segments_respect_lag.
  - apply reachable_new.
  - vm_compute. discriminate.
  - vm_compute. discriminate.
  - vm_compute. reflexivity.
Defined.

(** A first call on a new emitter with a lag of 0.1, 0.351 s of audio, and
    one turn that ends at 0.251: all three are doubles. *)
Definition tenth_lag : TranscriptEmitter := new_emitter (fl 0.1).
Definition short_audio : Q := fl 0.351.
Definition early_turn : MergedTranscript :=
  mkMerged [mkTurn "SPEAKER_00" 0 (fl 0.251) "yes" []] [] [].

(** C2 (as stated) fails: the cutoff is the rounded difference, the double
    0.251, and the turn that ends there is written as a segment; the exact
    difference [current_duration - finalize_lag] of the two doubles lies
    below its [t1]. *)
Lemma non_final_segment_beyond_exact_lag :
  ~ (forall (self : TranscriptEmitter) (merged : MergedTranscript)
            (current_duration : Q) (stream_name : option string),
        reachable self -> 0 <= current_duration -> 0 <= finalize_lag self ->
        representable current_duration ->
        cutoff_of self current_duration false <= current_duration /\
        Forall (segment_ends_by (current_duration - finalize_lag self))
          (snd (emit_transcript self merged current_duration false
                  stream_name))).
Proof.
  intros H.
  destruct (H tenth_lag early_turn short_audio None (reachable_new _))
    as [_ Hall].
  - vm_compute. discriminate.
  - vm_compute. discriminate.
  - apply fl_idem.
  - assert (Hevs : snd (emit_transcript tenth_lag early_turn short_audio false
                          None)
                   = [Speakers ["SPEAKER_00"];
                      Segment "SPEAKER_00" "SPEAKER_00" None 0 (fl 0.251) "yes"])
      by (vm_compute; reflexivity).
    rewrite Hevs in Hall.
    apply Forall_cons in Hall. destruct Hall as [_ Hall].
    apply Forall_cons in Hall. destruct Hall as [Hseg _].
    vm_compute in Hseg. apply Hseg. reflexivity.
Qed.

(** X16. The segment events of a call are the events of some of the
    transcript's turns, in the order of the turns, each turn at most once
    and only turns that end by the cutoff the code computes. *)
Theorem segments_are_turns (self : TranscriptEmitter)
    (merged : MergedTranscript) (current_duration : Q) (finalize : bool)
    (stream_name : option string) :
  exists chosen,
    sublist chosen (turns merged) /\
    segments_of
      (snd (emit_transcript self merged current_duration finalize stream_name))
    = map (segment_event stream_name) chosen /\
    Forall (fun t => t_end t <= cutoff_of self current_duration finalize) chosen.
Proof.
  unfold emit_transcript.
  destruct (turns merged) as [| turn0 others] eqn:Hturns.
  - exists []. repeat split; constructor.
  - destruct (note_speakers _ _ _ _) as [seen new_speakers].
    destruct (emit_segments_rounded_sublist stream_name
                (cutoff_of self current_duration finalize) (turn0 :: others)
                (last_emitted_t1_of self (stream_key stream_name)))
      as (chosen & Hsub & Hevs & Hall).
    destruct (emit_segments _ _ _ _) as [last' segments_out].
    simpl in Hevs.
    assert (Hpartial : forall lp,
              segments_of
                (snd (emit_partial stream_name
                        (cutoff_of self current_duration finalize) finalize
                        (List.last others turn0) lp)) = []).
    { intros lp. unfold emit_partial. destruct finalize; [reflexivity |].
      destruct (Qlt_le_dec _ _); [| reflexivity].
      destruct (differs _ lp); reflexivity. }
    specialize (Hpartial (last_partial_of self (stream_key stream_name))).
    destruct (emit_partial _ _ _ _ _) as [last_partial partial_out].
    simpl in Hpartial |- *.
    exists chosen. split; [exact Hsub |]. split; [| exact Hall].
    unfold segments_of in *. rewrite !List.filter_app, Hpartial, app_nil_r.
    assert (Hsp : List.filter
                    (fun e => match e with
                              | Segment _ _ _ _ _ _ => true | _ => false end)
                    (if new_speakers then [Speakers (sorted_speakers seen)]
                     else []) = []) by (destruct new_speakers; reflexivity).
    rewrite Hsp, Hevs. simpl.
    clear. induction chosen as [| t chosen IH]; simpl; [reflexivity |].
    rewrite IH. reflexivity.
Qed.

(** X17. After a call no turn of the transcript that ends by the cutoff is
    left waiting: the end of each (a double) is at most the sum the code
    computes from the [last_emitted_t1] it records for the stream and
    0.02, so the same call again would not write it. *)
Theorem no_due_turn_left (self : TranscriptEmitter)
    (merged : MergedTranscript) (current_duration : Q) (finalize : bool)
    (stream_name : option string) :
  turns merged <> [] ->
  Forall (fun t => representable (t_end t)) (turns merged) ->
  let self1 :=
    fst (emit_transcript self merged current_duration finalize stream_name) in
  Forall
    (fun t =>
       t_end t <= cutoff_of self current_duration finalize ->
       t_end t
       <= fl (last_emitted_t1_of self1 (stream_key stream_name) + slack))
    (turns merged).
Proof.
  intros Hne Hrep. cbv zeta. unfold emit_transcript.
  destruct (turns merged) as [| turn0 others] eqn:Hturns; [congruence |].
  destruct (note_speakers _ _ _ _) as [seen new_speakers].
  pose proof (emit_segments_rounded_settles stream_name
                (cutoff_of self current_duration finalize) (turn0 :: others)
                (last_emitted_t1_of self (stream_key stream_name)) Hrep)
    as [_ Hsettled].
  destruct (emit_segments _ _ _ _) as [last1 segments_out].
  destruct (emit_partial _ _ _ _ _) as [lp1 partial_out].
  cbn [fst] in *. unfold last_emitted_t1_of at 1.
  cbn [last_emitted_t1_by_stream]. rewrite lookup_insert_eq.
  exact Hsettled.
Qed.

Lemma no_due_turn_left_witness :
  let merged := mkMerged [mkTurn "SPEAKER_00" 1 3 "good morning" [];
                          mkTurn "SPEAKER_01" 4 9 "hello" []] [] [] in
  let self1 := fst (emit_transcript (new_emitter 5) merged 12 true None) in
  Forall
    (fun t =>
       t_end t <= cutoff_of (new_emitter 5) 12 true ->
       t_end t <= fl (last_emitted_t1_of self1 (stream_key None) + slack))
    (turns merged).
Proof.
  apply (no_due_turn_left (new_emitter 5)
           (mkMerged [mkTurn "SPEAKER_00" 1 3 "good morning" [];
                      mkTurn "SPEAKER_01" 4 9 "hello" []] [] [])).
  - discriminate.
  - repeat constructor; vm_compute; reflexivity.
Defined.

End Emitter64.
